(** * KS: lexer, parser and tree-walking interpreter

    A shallow embedding of the KS pipeline (lexer.py, parser.py,
    ast_nodes.py, interpreter.py), the properties of it that the
    specification states, and further properties of the code.

    Conventions of the embedding.
    - A source text is a [string]; its characters are the code points
      U+0000..U+00FF, and the character classes below are Python's
      [str.isdigit], [str.isalpha] and [str.isalnum] on that range.
    - Python objects that are mutated in place and shared (the
      environments) live in a heap and are named by reference.
    - An exception is a result of its own; the state it left behind is
      part of the result, because [finally] blocks and [except] clauses
      observe it.
    - The host's floating point numbers, its printf-style string
      formatting and its object addresses are parameters of the
      interpreter ([HostFloat], [HostObjects]).
    - Recursion and loops of the program are bounded by a budget ([fuel]);
      a run that uses it up has no result. The limits of the host on the
      depth of recursion and on the digits of an integer conversion are
      left out, and so is its memory but for the repetition of a string:
      integers are unbounded, and a run that the host would end with a
      [RecursionError] goes on here. *)

From stdpp Require Import base strings list gmap pretty.
From Stdlib Require Import Ascii String ZArith Lia Floats.

Set Warnings "-register-all".

Local Open Scope string_scope.
Local Open Scope list_scope.

(** ** Python exceptions raised by the host, outside the KS classes *)
Inductive py_exception :=
| SyntaxError (msg : string)
| TypeError
| ValueError
| IndexError
| ZeroDivisionError
| OverflowError
| MemoryError.

(** ** Characters *)
Module Char.

Definition code (c : ascii) : nat := nat_of_ascii c.

Definition between (lo hi : nat) (c : ascii) : bool :=
  Nat.leb lo (code c) && Nat.leb (code c) hi.

(** [c.isdigit()]: the decimal digits and the superscripts U+00B2, U+00B3,
    U+00B9. *)
Definition isdigit (c : ascii) : bool :=
  between 48 57 c || between 178 179 c || between 185 185 c.

(** [c.isalpha()]. *)
Definition isalpha (c : ascii) : bool :=
  between 65 90 c || between 97 122 c || between 170 170 c
  || between 181 181 c || between 186 186 c || between 192 214 c
  || between 216 246 c || between 248 255 c.

(** [c.isalnum()]: letters, digits and the fractions U+00BC..U+00BE. *)
Definition isalnum (c : ascii) : bool :=
  isalpha c || isdigit c || between 188 190 c.

(** [c in s] for a one-character string [c]. *)
Fixpoint char_in (c : ascii) (s : string) : bool :=
  match s with
  | EmptyString => false
  | String d s' => if Ascii.eqb c d then true else char_in c s'
  end.

Definition newline : ascii := ascii_of_nat 10.
Definition tab : ascii := ascii_of_nat 9.
Definition carriage_return : ascii := ascii_of_nat 13.
Definition backslash : ascii := ascii_of_nat 92.
Definition quote : ascii := ascii_of_nat 34.

(** A one-character string. *)
Definition str (c : ascii) : string := String c EmptyString.

End Char.

(** ** lexer.py *)
Module Lexer.

Inductive TokenType :=
| NUMBER | STRING | BOOLEAN | IDENTIFIER
| LET | FUNC | IF | ELSE | FOR | WHILE | RETURN | GORUN | TRUE | FALSE
| PLUS | MINUS | MULTIPLY | DIVIDE | MODULO | ASSIGN
| EQUAL | NOT_EQUAL | LESS_THAN | GREATER_THAN | LESS_EQUAL | GREATER_EQUAL
| AND | OR | NOT
| SEMICOLON | COMMA | LEFT_PAREN | RIGHT_PAREN | LEFT_BRACE | RIGHT_BRACE
| EOF | NEWLINE | WHITESPACE.

#[global] Instance TokenType_eq_dec : EqDecision TokenType.
Proof. solve_decision. Defined.

(** [TokenType.value]: the member's name. *)
Definition type_value (t : TokenType) : string :=
  match t with
  | NUMBER => "NUMBER" | STRING => "STRING" | BOOLEAN => "BOOLEAN"
  | IDENTIFIER => "IDENTIFIER"
  | LET => "LET" | FUNC => "FUNC" | IF => "IF" | ELSE => "ELSE"
  | FOR => "FOR" | WHILE => "WHILE" | RETURN => "RETURN" | GORUN => "GORUN"
  | TRUE => "TRUE" | FALSE => "FALSE"
  | PLUS => "PLUS" | MINUS => "MINUS" | MULTIPLY => "MULTIPLY"
  | DIVIDE => "DIVIDE" | MODULO => "MODULO" | ASSIGN => "ASSIGN"
  | EQUAL => "EQUAL" | NOT_EQUAL => "NOT_EQUAL" | LESS_THAN => "LESS_THAN"
  | GREATER_THAN => "GREATER_THAN" | LESS_EQUAL => "LESS_EQUAL"
  | GREATER_EQUAL => "GREATER_EQUAL"
  | AND => "AND" | OR => "OR" | NOT => "NOT"
  | SEMICOLON => "SEMICOLON" | COMMA => "COMMA"
  | LEFT_PAREN => "LEFT_PAREN" | RIGHT_PAREN => "RIGHT_PAREN"
  | LEFT_BRACE => "LEFT_BRACE" | RIGHT_BRACE => "RIGHT_BRACE"
  | EOF => "EOF" | NEWLINE => "NEWLINE" | WHITESPACE => "WHITESPACE"
  end.

Record Token := mkToken {
  type : TokenType;
  value : string;
  line : nat;
  column : nat
}.

(** The dictionaries built by [Lexer.__init__]. *)
Definition keywords (s : string) : option TokenType :=
  if String.eqb s "let" then Some LET
  else if String.eqb s "func" then Some FUNC
  else if String.eqb s "if" then Some IF
  else if String.eqb s "else" then Some ELSE
  else if String.eqb s "for" then Some FOR
  else if String.eqb s "while" then Some WHILE
  else if String.eqb s "return" then Some RETURN
  else if String.eqb s "gorun" then Some GORUN
  else if String.eqb s "true" then Some TRUE
  else if String.eqb s "false" then Some FALSE
  else None.

Definition operators (s : string) : option TokenType :=
  if String.eqb s "+" then Some PLUS
  else if String.eqb s "-" then Some MINUS
  else if String.eqb s "*" then Some MULTIPLY
  else if String.eqb s "/" then Some DIVIDE
  else if String.eqb s "%" then Some MODULO
  else if String.eqb s "=" then Some ASSIGN
  else if String.eqb s "==" then Some EQUAL
  else if String.eqb s "!=" then Some NOT_EQUAL
  else if String.eqb s "<" then Some LESS_THAN
  else if String.eqb s ">" then Some GREATER_THAN
  else if String.eqb s "<=" then Some LESS_EQUAL
  else if String.eqb s ">=" then Some GREATER_EQUAL
  else if String.eqb s "&&" then Some AND
  else if String.eqb s "||" then Some OR
  else if String.eqb s "!" then Some NOT
  else None.

Definition delimiters (c : ascii) : option TokenType :=
  if Ascii.eqb c ";" then Some SEMICOLON
  else if Ascii.eqb c "," then Some COMMA
  else if Ascii.eqb c "(" then Some LEFT_PAREN
  else if Ascii.eqb c ")" then Some RIGHT_PAREN
  else if Ascii.eqb c "{" then Some LEFT_BRACE
  else if Ascii.eqb c "}" then Some RIGHT_BRACE
  else None.

(** The scanning state: [rest] is [text[pos:]], so [current_char] is its
    head and [peek_char] the character after it. *)
Record Lexer := mkLexer {
  rest : string;
  cur_line : nat;
  cur_column : nat
}.

Definition init (text : string) : Lexer := mkLexer text 1 1.

(** The number of characters still to scan. *)
Definition remaining (lx : Lexer) : nat := String.length (rest lx).

Definition current_char (lx : Lexer) : option ascii :=
  match rest lx with
  | EmptyString => None
  | String c _ => Some c
  end.

Definition peek_char (lx : Lexer) : option ascii :=
  match rest lx with
  | String _ (String c _) => Some c
  | _ => None
  end.

(** [advance]: at the end of the text [pos] still moves on and the column
    still grows; [rest] stays empty. *)
Definition advance (lx : Lexer) : Lexer :=
  match rest lx with
  | EmptyString => mkLexer EmptyString (cur_line lx) (S (cur_column lx))
  | String c r =>
      if Ascii.eqb c Char.newline then mkLexer r (S (cur_line lx)) 1
      else mkLexer r (cur_line lx) (S (cur_column lx))
  end.

(** The scanning loops run over the remaining text: [go] is the loop body
    at a text [r], line [l] and column [k]. *)
Fixpoint skip_whitespace_go (r : string) (l k : nat) : Lexer :=
  match r with
  | String c r' =>
      if Char.char_in c (String " " (String Char.tab (String Char.carriage_return EmptyString)))
      then skip_whitespace_go r' l (S k)
      else mkLexer r l k
  | EmptyString => mkLexer r l k
  end.

Definition skip_whitespace (lx : Lexer) : Lexer :=
  skip_whitespace_go (rest lx) (cur_line lx) (cur_column lx).

Fixpoint skip_to_eol (r : string) (l k : nat) : Lexer :=
  match r with
  | String c r' =>
      if Ascii.eqb c Char.newline then mkLexer r l k
      else skip_to_eol r' l (S k)
  | EmptyString => mkLexer r l k
  end.

Definition skip_comment (lx : Lexer) : Lexer :=
  match current_char lx, peek_char lx with
  | Some c, Some d =>
      if Ascii.eqb c "/" && Ascii.eqb d "/"
      then skip_to_eol (rest lx) (cur_line lx) (cur_column lx)
      else lx
  | _, _ => lx
  end.

(** [read_number]: digits and dots, as many as follow. *)
Fixpoint read_number_go (r : string) (l k : nat) (number_str : string)
  : string * Lexer :=
  match r with
  | String c r' =>
      if Char.isdigit c || Ascii.eqb c "."
      then read_number_go r' l (S k) (number_str +:+ Char.str c)
      else (number_str, mkLexer r l k)
  | EmptyString => (number_str, mkLexer r l k)
  end.

Definition read_number (lx : Lexer) : Token * Lexer :=
  let '(number_str, lx') :=
    read_number_go (rest lx) (cur_line lx) (cur_column lx) "" in
  (mkToken NUMBER number_str (cur_line lx) (cur_column lx), lx').

Definition escape_chars (c : ascii) : ascii :=
  if Ascii.eqb c "n" then Char.newline
  else if Ascii.eqb c "t" then Char.tab
  else if Ascii.eqb c "r" then Char.carriage_return
  else c.

(** The characters that may follow a backslash: n, t, r, the backslash
    and the double quote. *)
Definition escapable : string :=
  "ntr" +:+ Char.str Char.backslash +:+ Char.str Char.quote.

(** [read_string], after the opening quote. A backslash that ends the text
    makes the membership test of [self.current_char()] run on [None]: a
    [TypeError]. *)
Fixpoint read_string_go (r : string) (lx_line lx_col : nat) (string_value : string)
  : py_exception + (string * Lexer) :=
  match r with
  | EmptyString => inr (string_value, mkLexer r lx_line lx_col)
  | String c r' =>
      let after := advance (mkLexer r lx_line lx_col) in
      if Ascii.eqb c Char.quote then inr (string_value, after)
      else if Ascii.eqb c Char.backslash then
        match r' with
        | EmptyString => inl TypeError
        | String d r'' =>
            let after2 := advance after in
            let d' := if Char.char_in d escapable then escape_chars d else d in
            read_string_go r'' (cur_line after2) (cur_column after2)
                           (string_value +:+ Char.str d')
        end
      else read_string_go r' (cur_line after) (cur_column after)
                          (string_value +:+ Char.str c)
  end.

Definition read_string (lx : Lexer) : py_exception + (Token * Lexer) :=
  let opened := advance lx in
  match read_string_go (rest opened) (cur_line opened) (cur_column opened) "" with
  | inl e => inl e
  | inr (string_value, lx') =>
      inr (mkToken STRING string_value (cur_line lx) (cur_column lx), lx')
  end.

Fixpoint read_identifier_go (r : string) (l k : nat) (identifier : string)
  : string * Lexer :=
  match r with
  | String c r' =>
      if Char.isalnum c || Ascii.eqb c "_"
      then read_identifier_go r' l (S k) (identifier +:+ Char.str c)
      else (identifier, mkLexer r l k)
  | EmptyString => (identifier, mkLexer r l k)
  end.

(** [read_identifier]: a keyword gets its own kind, except that [true] and
    [false] are turned into [BOOLEAN]. *)
Definition read_identifier (lx : Lexer) : Token * Lexer :=
  let '(identifier, lx') :=
    read_identifier_go (rest lx) (cur_line lx) (cur_column lx) "" in
  let token_type := default IDENTIFIER (keywords identifier) in
  let token_type :=
    if bool_decide (token_type = TRUE) || bool_decide (token_type = FALSE)
    then BOOLEAN else token_type in
  (mkToken token_type identifier (cur_line lx) (cur_column lx), lx').

Definition position (lx : Lexer) : string :=
  " at line " +:+ pretty (cur_line lx) +:+ ", column " +:+ pretty (cur_column lx).

(** [read_operator], called on a non-empty rest whose head is [char]. *)
Definition read_operator (char : ascii) (lx : Lexer) : py_exception + (Token * Lexer) :=
  let two_char :=
    Char.str char +:+ from_option Char.str "" (peek_char lx) in
  match operators two_char with
  | Some ty =>
      inr (mkToken ty two_char (cur_line lx) (cur_column lx), advance (advance lx))
  | None =>
      match operators (Char.str char) with
      | Some ty =>
          inr (mkToken ty (Char.str char) (cur_line lx) (cur_column lx), advance lx)
      | None =>
          inl (SyntaxError ("Unknown operator: " +:+ Char.str char +:+ position lx))
      end
  end.

Inductive result :=
| Tokens (tokens : list Token)
| Raise (e : py_exception)
| Exhausted.

Definition eof_token (lx : Lexer) : Token :=
  mkToken EOF "" (cur_line lx) (cur_column lx).

(** The loop of [tokenize]; every round either ends the scan or consumes a
    character, so [fuel] counts rounds. *)
Fixpoint tokenize_loop (fuel : nat) (lx : Lexer) (tokens : list Token) : result :=
  match fuel with
  | O => Exhausted
  | S fuel' =>
      match rest lx with
      | EmptyString => Tokens (tokens ++ [eof_token lx])
      | String _ _ =>
          let lx := skip_whitespace lx in
          match current_char lx with
          | None => Tokens (tokens ++ [eof_token lx])
          | Some char =>
              if Ascii.eqb char "/"
                 && bool_decide (peek_char lx = Some "/"%char)
              then tokenize_loop fuel' (skip_comment lx) tokens
              else if Ascii.eqb char Char.newline then
                tokenize_loop fuel' (advance lx)
                  (tokens ++ [mkToken NEWLINE (Char.str char) (cur_line lx) (cur_column lx)])
              else if Char.isdigit char then
                let '(t, lx') := read_number lx in
                tokenize_loop fuel' lx' (tokens ++ [t])
              else if Ascii.eqb char Char.quote then
                match read_string lx with
                | inl e => Raise e
                | inr (t, lx') => tokenize_loop fuel' lx' (tokens ++ [t])
                end
              else if Char.isalpha char || Ascii.eqb char "_" then
                let '(t, lx') := read_identifier lx in
                tokenize_loop fuel' lx' (tokens ++ [t])
              else
                match delimiters char with
                | Some ty =>
                    tokenize_loop fuel' (advance lx)
                      (tokens ++ [mkToken ty (Char.str char) (cur_line lx) (cur_column lx)])
                | None =>
                    if Char.char_in char "+-*/%=<>!&|" then
                      match read_operator char lx with
                      | inl e => Raise e
                      | inr (t, lx') => tokenize_loop fuel' lx' (tokens ++ [t])
                      end
                    else
                      Raise (SyntaxError ("Unexpected character: " +:+ Char.str char
                                          +:+ position lx))
                end
          end
      end
  end.

(** [Lexer(text).tokenize()]. One round more than the text has characters
    is always enough. *)
Definition tokenize (text : string) : result :=
  tokenize_loop (S (String.length text)) (init text) [].

End Lexer.

(** ** The host's floating point numbers

    Python's [float] is the host's binary floating point type. The
    interpreter only moves such numbers around and hands them to the host's
    arithmetic, so the type and its operations are taken from the host. A
    [None] result is the host raising [OverflowError]. *)
Class HostFloat := {
  float : Type;
  (** [float(s)] for a decimal literal [s] that denotes [n / 10^k] *)
  float_of_decimal : Z -> nat -> float;
  (** the conversion of an integer operand in mixed arithmetic *)
  float_of_int : Z -> option float;
  (** [a / b] on integers, [b] not zero *)
  int_truediv : Z -> Z -> option float;
  float_add : float -> float -> float;
  float_sub : float -> float -> float;
  float_mul : float -> float -> float;
  (** [x / y] and [x % y], [y] not zero *)
  float_truediv : float -> float -> float;
  float_mod : float -> float -> float;
  float_neg : float -> float;
  (** comparisons are exact, also against an integer; [None] when a NaN
      makes the operands unordered *)
  float_compare : float -> float -> option comparison;
  float_compare_int : float -> Z -> option comparison;
  (** [repr(x)], which is also [str(x)] *)
  float_repr : float -> string
}.

(** ** ast_nodes.py *)
Module Ast.
Section Nodes.
Context `{HostFloat}.

(** The values a [LiteralExpression] holds: what [Parser.primary] puts
    there. *)
Inductive Literal :=
| LBool (b : bool)
| LInt (n : Z)
| LFloat (x : float)
| LStr (s : string).

(** The target of an [AssignmentExpression] is an [IdentifierExpression];
    the node keeps its name. *)
Inductive Expression :=
| LiteralExpression (value : Literal) (type : string)
| IdentifierExpression (name : string)
| BinaryExpression (left : Expression) (operator : string) (right : Expression)
| UnaryExpression (operator : string) (operand : Expression)
| CallExpression (function : Expression) (arguments : list Expression)
| AssignmentExpression (target : string) (value : Expression).

(** The body of a [FunctionDeclaration] is a [BlockStatement]; the node
    keeps its statements. *)
Inductive Statement :=
| VariableDeclaration (name : string) (initializer : option Expression)
| FunctionDeclaration (name : string) (parameters : list string)
                      (body : list Statement)
| ExpressionStatement (expression : Expression)
| BlockStatement (statements : list Statement)
| IfStatement (condition : Expression) (then_branch : Statement)
              (else_branch : option Statement)
| ForStatement (initializer : option Statement) (condition : option Expression)
               (increment : option Expression) (body : Statement)
| WhileStatement (condition : Expression) (body : Statement)
| ReturnStatement (value : option Expression)
| GorunStatement (expression : Expression).

Inductive Program :=
| mkProgram (statements : list Statement).

Definition statements_of (p : Program) : list Statement :=
  let 'mkProgram ss := p in ss.

End Nodes.
End Ast.

(** ** parser.py *)
Module Parser.
Import Lexer Ast.

Inductive exn :=
| ParseError (msg : string)
| HostError (e : py_exception).

Record Parser := mkParser {
  tokens : list Token;
  current : nat
}.

(** [Parser(tokens)]: newline and whitespace tokens are dropped. *)
Definition init (toks : list Token) : Parser :=
  mkParser
    (filter (fun t => type t <> WHITESPACE /\ type t <> NEWLINE) toks) 0.

(** The result of a parsing method: it returns, or it raises and leaves the
    parser as it was at that point, or the recursion budget ran out. *)
Inductive outcome (A : Type) :=
| Returned (a : A) (p : Parser)
| Raised (e : exn) (p : Parser)
| Exhausted.
Arguments Returned {A} a p.
Arguments Raised {A} e p.
Arguments Exhausted {A}.

Definition M (A : Type) : Type := Parser -> outcome A.

Definition ret {A} (a : A) : M A := fun p => Returned a p.
Definition raise {A} (e : exn) : M A := fun p => Raised e p.
Definition exhausted {A} : M A := fun _ => Exhausted.
Definition bind {A B} (m : M A) (k : A -> M B) : M B :=
  fun p =>
    match m p with
    | Returned a p' => k a p'
    | Raised e p' => Raised e p'
    | Exhausted => Exhausted
    end.

#[local] Notation "'let*' x ':=' m 'in' k" := (bind m (fun x => k))
  (at level 10, x binder, k at level 200).

(** [self.tokens[i]] for an index that is not negative. *)
Definition token_at (i : nat) : M Token :=
  fun p =>
    match tokens p !! i with
    | Some t => Returned t p
    | None => Raised (HostError IndexError) p
    end.

Definition peek : M Token := fun p => token_at (current p) p.

Definition is_at_end : M bool :=
  let* t := peek in ret (bool_decide (type t = EOF)).

(** [self.tokens[self.current - 1]]; at [current = 0] the index is [-1],
    the last token. *)
Definition previous : M Token :=
  fun p =>
    match current p with
    | O => token_at (List.length (tokens p) - 1) p
    | S i => token_at i p
    end.

Definition advance : M Token :=
  let* e := is_at_end in
  let* _ := (if e then ret tt
             else fun p => Returned tt (mkParser (tokens p) (S (current p)))) in
  previous.

Definition check (token_type : TokenType) : M bool :=
  let* e := is_at_end in
  if e then ret false
  else let* t := peek in ret (bool_decide (type t = token_type)).

(** [match]: the first of [token_types] that the current token has is
    consumed. *)
Fixpoint match_ (token_types : list TokenType) : M bool :=
  match token_types with
  | [] => ret false
  | token_type :: others =>
      let* c := check token_type in
      if c then let* _ := advance in ret true else match_ others
  end.

Definition consume (token_type : TokenType) (message : string) : M Token :=
  let* c := check token_type in
  if c then advance
  else
    let* current_token := peek in
    raise (ParseError (message +:+ ". Got " +:+ type_value (type current_token)
                       +:+ " at line " +:+ pretty (line current_token))).

(** [synchronize]: its loop moves on by one token a round. *)
Fixpoint synchronize_loop (fuel : nat) : M unit :=
  match fuel with
  | O => exhausted
  | S fuel' =>
      let* e := is_at_end in
      if e then ret tt
      else
        let* prev := previous in
        if bool_decide (type prev = SEMICOLON) then ret tt
        else
          let* t := peek in
          if bool_decide (type t ∈ [FUNC; LET; FOR; IF; WHILE; GORUN; RETURN])
          then ret tt
          else let* _ := advance in synchronize_loop fuel'
  end.

Definition synchronize : M unit :=
  let* _ := advance in fun p => synchronize_loop (S (List.length (tokens p))) p.

(** [try: body except ParseError as e: self.synchronize(); raise e]. *)
Definition resynchronizing {A} (body : M A) : M A :=
  fun p =>
    match body p with
    | Raised (ParseError msg) p' =>
        match synchronize p' with
        | Returned _ p'' => Raised (ParseError msg) p''
        | Raised e p'' => Raised e p''
        | Exhausted => Exhausted
        end
    | r => r
    end.

(** *** The literal conversions of the host

    [int(s)] and [float(s)] on the lexemes of [Lexer.read_number]: strings
    of digit characters and dots. Only the digits 0 to 9 are decimal
    digits; a lexeme with another character, with two dots or with no
    decimal digit makes the host raise [ValueError]. *)
Definition is_decimal (c : ascii) : bool := Char.between 48 57 c.

Fixpoint decimal_value (s : string) (acc : Z) : option Z :=
  match s with
  | EmptyString => Some acc
  | String c s' =>
      if is_decimal c
      then decimal_value s' (10 * acc + Z.of_nat (Char.code c - 48))%Z
      else None
  end.

Definition py_int (s : string) : option Z :=
  match s with
  | EmptyString => None
  | _ => decimal_value s 0%Z
  end.

(** The text before the first dot and the text after it. *)
Fixpoint split_at_dot (s : string) : string * option string :=
  match s with
  | EmptyString => (EmptyString, None)
  | String c s' =>
      if Ascii.eqb c "." then (EmptyString, Some s')
      else let '(a, b) := split_at_dot s' in (String c a, b)
  end.

Section Grammar.
Context `{HostFloat}.

Definition py_float (s : string) : option float :=
  let '(int_part, after) := split_at_dot s in
  let frac_part := default EmptyString after in
  match int_part +:+ frac_part with
  | EmptyString => None
  | digits =>
      match decimal_value digits 0%Z with
      | Some n => Some (float_of_decimal n (String.length frac_part))
      | None => None
      end
  end.

Definition primary (expression : M Expression) : M Expression :=
  let* m := match_ [TRUE] in
  if m then ret (LiteralExpression (LBool true) "boolean") else
  let* m := match_ [FALSE] in
  if m then ret (LiteralExpression (LBool false) "boolean") else
  let* m := match_ [NUMBER] in
  if m then
    let* t := previous in
    if Char.char_in "." (value t) then
      match py_float (value t) with
      | Some x => ret (LiteralExpression (LFloat x) "number")
      | None => raise (HostError ValueError)
      end
    else
      match py_int (value t) with
      | Some n => ret (LiteralExpression (LInt n) "number")
      | None => raise (HostError ValueError)
      end
  else
  let* m := match_ [STRING] in
  if m then let* t := previous in ret (LiteralExpression (LStr (value t)) "string") else
  let* m := match_ [IDENTIFIER] in
  if m then let* t := previous in ret (IdentifierExpression (value t)) else
  let* m := match_ [LEFT_PAREN] in
  if m then
    let* expr := expression in
    let* _ := consume RIGHT_PAREN "Expected ')' after expression" in
    ret expr
  else
  let* current_token := peek in
  raise (ParseError ("Unexpected token " +:+ type_value (type current_token)
                     +:+ " at line " +:+ pretty (line current_token))).

(** The loops of the parser take a round for every token they consume;
    [fuel] bounds the rounds and the depth of the recursion. *)
Fixpoint finish_call_loop (fuel : nat) (expression : M Expression)
    (arguments : list Expression) : M (list Expression) :=
  match fuel with
  | O => exhausted
  | S fuel' =>
      let* m := match_ [COMMA] in
      if m then
        let* arg := expression in
        finish_call_loop fuel' expression (arguments ++ [arg])
      else ret arguments
  end.

Definition finish_call (fuel : nat) (expression : M Expression)
    (callee : Expression) : M Expression :=
  let* c := check RIGHT_PAREN in
  let* arguments :=
    (if c then ret []
     else let* arg := expression in finish_call_loop fuel expression [arg]) in
  let* _ := consume RIGHT_PAREN "Expected ')' after arguments" in
  ret (CallExpression callee arguments).

Fixpoint call_loop (fuel : nat) (expression : M Expression) (expr : Expression)
  : M Expression :=
  match fuel with
  | O => exhausted
  | S fuel' =>
      let* m := match_ [LEFT_PAREN] in
      if m then
        let* expr := finish_call fuel' expression expr in
        call_loop fuel' expression expr
      else ret expr
  end.

Definition call (fuel : nat) (expression : M Expression) : M Expression :=
  let* expr := primary expression in
  call_loop fuel expression expr.

Fixpoint unary (fuel : nat) (expression : M Expression) : M Expression :=
  match fuel with
  | O => exhausted
  | S fuel' =>
      let* m := match_ [NOT; MINUS] in
      if m then
        let* operator := previous in
        let* rhs := unary fuel' expression in
        ret (UnaryExpression (value operator) rhs)
      else call fuel' expression
  end.

(** [while self.match(...): operator = ...; right = operand(); expr =
    BinaryExpression(expr, operator, right)], the loop shared by the six
    binary levels. *)
Fixpoint binary_loop (fuel : nat) (token_types : list TokenType)
    (operand : M Expression) (expr : Expression) : M Expression :=
  match fuel with
  | O => exhausted
  | S fuel' =>
      let* m := match_ token_types in
      if m then
        let* operator := previous in
        let* rhs := operand in
        binary_loop fuel' token_types operand
                    (BinaryExpression expr (value operator) rhs)
      else ret expr
  end.

Definition factor (fuel : nat) (expression : M Expression) : M Expression :=
  let* expr := unary fuel expression in
  binary_loop fuel [DIVIDE; MULTIPLY; MODULO] (unary fuel expression) expr.

Definition term (fuel : nat) (expression : M Expression) : M Expression :=
  let* expr := factor fuel expression in
  binary_loop fuel [MINUS; PLUS] (factor fuel expression) expr.

Definition comparison (fuel : nat) (expression : M Expression) : M Expression :=
  let* expr := term fuel expression in
  binary_loop fuel [GREATER_THAN; GREATER_EQUAL; LESS_THAN; LESS_EQUAL]
              (term fuel expression) expr.

Definition equality (fuel : nat) (expression : M Expression) : M Expression :=
  let* expr := comparison fuel expression in
  binary_loop fuel [EQUAL; NOT_EQUAL] (comparison fuel expression) expr.

Definition logical_and (fuel : nat) (expression : M Expression) : M Expression :=
  let* expr := equality fuel expression in
  binary_loop fuel [AND] (equality fuel expression) expr.

Definition logical_or (fuel : nat) (expression : M Expression) : M Expression :=
  let* expr := logical_and fuel expression in
  binary_loop fuel [OR] (logical_and fuel expression) expr.

Fixpoint assignment (fuel : nat) : M Expression :=
  match fuel with
  | O => exhausted
  | S fuel' =>
      let* expr := logical_or fuel' (assignment fuel') in
      let* m := match_ [ASSIGN] in
      if m then
        let* value := assignment fuel' in
        match expr with
        | IdentifierExpression name => ret (AssignmentExpression name value)
        | _ => raise (ParseError "Invalid assignment target")
        end
      else ret expr
  end.

Definition expression (fuel : nat) : M Expression := assignment fuel.

Fixpoint parameters_loop (fuel : nat) (parameters : list string)
  : M (list string) :=
  match fuel with
  | O => exhausted
  | S fuel' =>
      let* m := match_ [COMMA] in
      if m then
        let* t := consume IDENTIFIER "Expected parameter name" in
        parameters_loop fuel' (parameters ++ [value t])
      else ret parameters
  end.

(** [block_statement] is passed in and returns the statements of the
    body. *)
Definition function_declaration (fuel : nat) (block_statement : M (list Statement))
  : M Statement :=
  let* t := consume IDENTIFIER "Expected function name" in
  let name := value t in
  let* _ := consume LEFT_PAREN "Expected '(' after function name" in
  let* c := check RIGHT_PAREN in
  let* parameters :=
    (if c then ret []
     else let* t := consume IDENTIFIER "Expected parameter name" in
          parameters_loop fuel [value t]) in
  let* _ := consume RIGHT_PAREN "Expected ')' after parameters" in
  let* _ := consume LEFT_BRACE "Expected '{' before function body" in
  let* body := block_statement in
  ret (FunctionDeclaration name parameters body).

Definition variable_declaration (expression : M Expression) : M Statement :=
  let* t := consume IDENTIFIER "Expected variable name" in
  let name := value t in
  let* m := match_ [ASSIGN] in
  let* initializer :=
    (if m then let* e := expression in ret (Some e) else ret None) in
  let* _ := consume SEMICOLON "Expected ';' after variable declaration" in
  ret (VariableDeclaration name initializer).

Definition gorun_statement (expression : M Expression) : M Statement :=
  let* _ := consume LEFT_PAREN "Expected '(' after 'gorun'" in
  let* expr := expression in
  let* _ := consume RIGHT_PAREN "Expected ')' after gorun expression" in
  let* _ := consume SEMICOLON "Expected ';' after gorun statement" in
  ret (GorunStatement expr).

Definition return_statement (expression : M Expression) : M Statement :=
  let* c := check SEMICOLON in
  let* value :=
    (if c then ret None else let* e := expression in ret (Some e)) in
  let* _ := consume SEMICOLON "Expected ';' after return statement" in
  ret (ReturnStatement value).

Definition if_statement (expression : M Expression) (statement : M Statement)
  : M Statement :=
  let* _ := consume LEFT_PAREN "Expected '(' after 'if'" in
  let* condition := expression in
  let* _ := consume RIGHT_PAREN "Expected ')' after if condition" in
  let* then_branch := statement in
  let* m := match_ [ELSE] in
  let* else_branch :=
    (if m then let* s := statement in ret (Some s) else ret None) in
  ret (IfStatement condition then_branch else_branch).

Definition expression_statement (expression : M Expression) : M Statement :=
  let* expr := expression in
  let* _ := consume SEMICOLON "Expected ';' after expression" in
  ret (ExpressionStatement expr).

Definition for_statement (expression : M Expression) (statement : M Statement)
  : M Statement :=
  let* _ := consume LEFT_PAREN "Expected '(' after 'for'" in
  let* m := match_ [SEMICOLON] in
  let* initializer :=
    (if m then ret None
     else
       let* m := match_ [LET] in
       if m then let* s := variable_declaration expression in ret (Some s)
       else let* s := expression_statement expression in ret (Some s)) in
  let* c := check SEMICOLON in
  let* condition :=
    (if c then ret None else let* e := expression in ret (Some e)) in
  let* _ := consume SEMICOLON "Expected ';' after for loop condition" in
  let* c := check RIGHT_PAREN in
  let* increment :=
    (if c then ret None else let* e := expression in ret (Some e)) in
  let* _ := consume RIGHT_PAREN "Expected ')' after for clauses" in
  let* body := statement in
  ret (ForStatement initializer condition increment body).

Definition while_statement (expression : M Expression) (statement : M Statement)
  : M Statement :=
  let* _ := consume LEFT_PAREN "Expected '(' after 'while'" in
  let* condition := expression in
  let* _ := consume RIGHT_PAREN "Expected ')' after while condition" in
  let* body := statement in
  ret (WhileStatement condition body).

Fixpoint block_statement_loop (fuel : nat) (declaration : M Statement)
    (statements : list Statement) : M (list Statement) :=
  match fuel with
  | O => exhausted
  | S fuel' =>
      let* c := check RIGHT_BRACE in
      let* e := is_at_end in
      if negb c && negb e then
        let* stmt := declaration in
        block_statement_loop fuel' declaration (statements ++ [stmt])
      else ret statements
  end.

(** [block_statement], giving the statements of the [BlockStatement] it
    builds. *)
Definition block_statement (fuel : nat) (declaration : M Statement)
  : M (list Statement) :=
  let* statements := block_statement_loop fuel declaration [] in
  let* _ := consume RIGHT_BRACE "Expected '}' after block" in
  ret statements.

Fixpoint declaration (fuel : nat) : M Statement :=
  match fuel with
  | O => exhausted
  | S fuel' =>
      resynchronizing
        (let* m := match_ [FUNC] in
         if m then function_declaration fuel' (block_statement fuel' (declaration fuel'))
         else
           let* m := match_ [LET] in
           if m then variable_declaration (expression fuel')
           else statement fuel')
  end
with statement (fuel : nat) : M Statement :=
  match fuel with
  | O => exhausted
  | S fuel' =>
      let* m := match_ [GORUN] in
      if m then gorun_statement (expression fuel') else
      let* m := match_ [RETURN] in
      if m then return_statement (expression fuel') else
      let* m := match_ [IF] in
      if m then if_statement (expression fuel') (statement fuel') else
      let* m := match_ [FOR] in
      if m then for_statement (expression fuel') (statement fuel') else
      let* m := match_ [WHILE] in
      if m then while_statement (expression fuel') (statement fuel') else
      let* m := match_ [LEFT_BRACE] in
      if m then
        let* statements := block_statement fuel' (declaration fuel') in
        ret (BlockStatement statements)
      else expression_statement (expression fuel')
  end.

Fixpoint parse_loop (fuel : nat) (statements : list Statement)
  : M (list Statement) :=
  match fuel with
  | O => exhausted
  | S fuel' =>
      let* e := is_at_end in
      if e then ret statements
      else
        let* stmt := declaration fuel' in
        parse_loop fuel' (statements ++ [stmt])
  end.

Definition parse_with (fuel : nat) : M Program :=
  let* statements := parse_loop fuel [] in
  ret (mkProgram statements).

(** [Parser(tokens).parse()], with a recursion budget that grows with the
    number of tokens, enough for every token list. The limit of the host
    on nested calls, which a deeply nested expression exceeds with a
    [RecursionError], is not part of the model. *)
Definition parse (toks : list Token) : outcome Program :=
  parse_with (4 * List.length toks + 8) (init toks).

End Grammar.

(** [Parser(Lexer(text).tokenize()).parse()]: the exception of the lexer,
    or the outcome of the parser. *)
Definition parse_source `{HostFloat} (text : string)
  : py_exception + outcome Program :=
  match tokenize text with
  | Tokens toks => inr (parse toks)
  | Lexer.Raise e => inl e
  | Lexer.Exhausted => inr Exhausted
  end.

End Parser.

(** ** interpreter.py: values and environments *)
Module Interp.
Import Ast.

Section Values.
Context `{HostFloat}.

(** A runtime value: [None], a [bool], an [int], a [float], a [str] or a
    [KSFunction] object. A function object holds its declaration (name,
    parameters, body) and a reference to the environment it closes over;
    [oid] numbers the objects in the order of their construction and stands
    for the identity of the object. *)
Inductive Value :=
| VNone
| VBool (b : bool)
| VInt (n : Z)
| VFloat (x : float)
| VStr (s : string)
| VFunction (oid : nat) (name : string) (parameters : list string)
            (body : list Statement) (closure : nat).

(** [Environment]: the dictionary [variables] and the reference [parent]. *)
Record Environment := mkEnvironment {
  variables : gmap string Value;
  parent : option nat
}.

(** The environment objects of a run, the newest first. An environment is
    named by the number of environments that were constructed before it,
    which is the length of the heap below it; the parent of an environment
    is constructed before the environment itself, and [parent] is never
    assigned again, so the walks along the parent links go down the heap. *)
Definition Heap := list Environment.

(** [Environment(parent)]: the new reference and the new heap. *)
Definition allocate (parent : option nat) (h : Heap) : nat * Heap :=
  (List.length h, mkEnvironment ∅ parent :: h).

Fixpoint heap_lookup (h : Heap) (e : nat) : option Environment :=
  match h with
  | [] => None
  | env :: older =>
      if decide (e = List.length older) then Some env else heap_lookup older e
  end.

(** [env.define(name, value)] for the environment named [e]. *)
Fixpoint define (h : Heap) (e : nat) (name : string) (value : Value) : Heap :=
  match h with
  | [] => []
  | env :: older =>
      if decide (e = List.length older)
      then mkEnvironment (<[name := value]> (variables env)) (parent env) :: older
      else env :: define older e name value
  end.

(** [env.get(name)]; [None] is the [KSRuntimeError] of an undefined
    variable. *)
Fixpoint get (h : Heap) (e : nat) (name : string) : option Value :=
  match h with
  | [] => None
  | env :: older =>
      if decide (e = List.length older) then
        match variables env !! name with
        | Some v => Some v
        | None =>
            match parent env with
            | Some p => get older p name
            | None => None
            end
        end
      else get older e name
  end.

(** [env.assign(name, value)]; [None] is the [KSRuntimeError] of an
    undefined variable: the error of the parent is caught and raised
    anew. *)
Fixpoint assign (h : Heap) (e : nat) (name : string) (value : Value)
  : option Heap :=
  match h with
  | [] => None
  | env :: older =>
      if decide (e = List.length older) then
        match variables env !! name with
        | Some _ =>
            Some (mkEnvironment (<[name := value]> (variables env)) (parent env)
                  :: older)
        | None =>
            match parent env with
            | Some p =>
                match assign older p name value with
                | Some older' => Some (env :: older')
                | None => None
                end
            | None => None
            end
        end
      else
        match assign older e name value with
        | Some older' => Some (env :: older')
        | None => None
        end
  end.

(** *** Reading the heap

    Used to state what the methods above do. *)

(** The binding of [name] in the environment [e] itself, without its
    parents. *)
Definition binding (h : Heap) (e : nat) (name : string) : option Value :=
  env ← heap_lookup h e; variables env !! name.

Definition parent_of (h : Heap) (e : nat) : option nat :=
  env ← heap_lookup h e; parent env.

(** The innermost environment on the parent chain of [e] that defines
    [name]: the walk of [Environment.get]. *)
Fixpoint defining_scope (h : Heap) (e : nat) (name : string) : option nat :=
  match h with
  | [] => None
  | env :: older =>
      if decide (e = List.length older) then
        match variables env !! name with
        | Some _ => Some e
        | None =>
            match parent env with
            | Some p => defining_scope older p name
            | None => None
            end
        end
      else defining_scope older e name
  end.

(** The parent chain of [e]: the environment itself, its parent, and so
    on up to the globals. *)
Fixpoint scope_chain (h : Heap) (e : nat) : list nat :=
  match h with
  | [] => []
  | env :: older =>
      if decide (e = List.length older) then
        e :: match parent env with
             | Some p => scope_chain older p
             | None => []
             end
      else scope_chain older e
  end.

(** The heap [h'] is the heap [h] with the binding of [name] in the
    environment [d] set to [value]: the same environments, the same
    parents, and no other binding added, removed or changed. *)
Definition rebinds (h h' : Heap) (d : nat) (name : string) (value : Value)
  : Prop :=
  List.length h' = List.length h
  /\ (forall e, parent_of h' e = parent_of h e)
  /\ (forall e x,
        binding h' e x =
        if decide (e = d /\ x = name) then Some value else binding h e x).

End Values.

(** ** The rest of the host

    [str_mod] is the host's [%] on a string (printf-style formatting),
    [object_address] the address the host shows in the default [str] of an
    object, and [string_fits n] tells whether the host has the memory for
    the [n] characters of a repeated string. *)
Class HostObjects `{HostFloat} := {
  str_mod : string -> Value -> py_exception + string;
  object_address : nat -> string;
  string_fits : Z -> bool
}.

(** ** interpreter.py: the operations on values *)
Section Operations.
Context `{HostObjects}.

(** *** What the host does with the values *)

(** The numbers of the host: [bool] is a subclass of [int], so [True] and
    [False] count as 1 and 0 in arithmetic and in comparisons. *)
Inductive number :=
| NInt (n : Z)
| NFloat (x : float).

Definition as_number (v : Value) : option number :=
  match v with
  | VBool b => Some (NInt (if b then 1 else 0)%Z)
  | VInt n => Some (NInt n)
  | VFloat x => Some (NFloat x)
  | _ => None
  end.

(** The integers that may count the repetitions of a string. *)
Definition as_index (v : Value) : option Z :=
  match v with
  | VBool b => Some (if b then 1 else 0)%Z
  | VInt n => Some n
  | _ => None
  end.

(** The numbers of the language: the integers and the floating point
    numbers. *)
Definition is_number (v : Value) : bool :=
  match v with
  | VInt _ | VFloat _ => true
  | _ => false
  end.

Definition to_float (a : number) : py_exception + float :=
  match a with
  | NFloat x => inr x
  | NInt n =>
      match float_of_int n with
      | Some x => inr x
      | None => inl OverflowError
      end
  end.

(** A binary operation on numbers: on two integers it is [on_int], with a
    float operand the other is converted and it is [on_float]. *)
Definition arith (on_int : Z -> Z -> py_exception + Value)
    (on_float : float -> float -> py_exception + Value) (a b : number)
  : py_exception + Value :=
  match a, b with
  | NInt m, NInt n => on_int m n
  | _, _ =>
      match to_float a with
      | inl e => inl e
      | inr x =>
          match to_float b with
          | inl e => inl e
          | inr y => on_float x y
          end
      end
  end.

(** The three-way comparison of two numbers, exact also between an integer
    and a float; [None] when a NaN is involved. *)
Definition compare_numbers (a b : number) : option comparison :=
  match a, b with
  | NInt m, NInt n => Some (m ?= n)%Z
  | NFloat x, NFloat y => float_compare x y
  | NFloat x, NInt n => float_compare_int x n
  | NInt m, NFloat y => CompOpp <$> float_compare_int y m
  end.

Definition is_zero (a : number) : bool :=
  bool_decide (compare_numbers a (NInt 0) = Some Eq).

Definition py_add (l r : Value) : py_exception + Value :=
  match as_number l, as_number r with
  | Some a, Some b =>
      arith (fun m n => inr (VInt (m + n))) (fun x y => inr (VFloat (float_add x y))) a b
  | _, _ => inl TypeError
  end.

Definition py_sub (l r : Value) : py_exception + Value :=
  match as_number l, as_number r with
  | Some a, Some b =>
      arith (fun m n => inr (VInt (m - n))) (fun x y => inr (VFloat (float_sub x y))) a b
  | _, _ => inl TypeError
  end.

(** [n] copies of [s]. *)
Fixpoint repeat_string (s : string) (n : nat) : string :=
  match n with
  | O => EmptyString
  | S n' => s +:+ repeat_string s n'
  end.

(** The largest index of the host, [sys.maxsize] of a 64-bit host. *)
Definition index_max : Z := (2 ^ 63 - 1)%Z.

(** [s * n] in the host. The count has to fit the index type, or the host
    raises [OverflowError]; a count below 1 gives the empty string and the
    count 1 the string itself; the length of the result has to fit the
    index type as well; a result that is not empty is a new string, for
    which the host raises [MemoryError] when it has no room for it. The
    repetition is the one operation of the language that asks for such
    room with a short program. *)
Definition str_repeat (s : string) (n : Z) : py_exception + string :=
  let len := Z.of_nat (String.length s) in
  if ((n <? - index_max - 1) || (index_max <? n))%Z then inl OverflowError
  else if (n <? 1)%Z then inr EmptyString
  else if (n =? 1)%Z then inr s
  else if (index_max / n <? len)%Z then inl OverflowError
  else if (len * n =? 0)%Z then inr EmptyString
  else if string_fits (len * n) then inr (repeat_string s (Z.to_nat n))
  else inl MemoryError.

Definition str_mul (s : string) (n : Z) : py_exception + Value :=
  match str_repeat s n with
  | inl e => inl e
  | inr t => inr (VStr t)
  end.

Definition py_mul (l r : Value) : py_exception + Value :=
  match as_number l, as_number r with
  | Some a, Some b =>
      arith (fun m n => inr (VInt (m * n))) (fun x y => inr (VFloat (float_mul x y))) a b
  | _, _ =>
      match l, as_index r with
      | VStr s, Some n => str_mul s n
      | _, _ =>
          match as_index l, r with
          | Some n, VStr s => str_mul s n
          | _, _ => inl TypeError
          end
      end
  end.

(** [l / r], reached with an [r] that is not equal to zero. *)
Definition py_truediv (l r : Value) : py_exception + Value :=
  match as_number l, as_number r with
  | Some a, Some b =>
      arith (fun m n => match int_truediv m n with
                        | Some x => inr (VFloat x)
                        | None => inl OverflowError
                        end)
            (fun x y => inr (VFloat (float_truediv x y))) a b
  | _, _ => inl TypeError
  end.

(** [l % r]: the remainder has the sign of the divisor, and a divisor
    equal to zero is an error of the host, found once the operands are
    converted; on a string [%] is the formatting of the host. *)
Definition py_mod (l r : Value) : py_exception + Value :=
  match l with
  | VStr s =>
      match str_mod s r with
      | inl e => inl e
      | inr t => inr (VStr t)
      end
  | _ =>
      match as_number l, as_number r with
      | Some a, Some b =>
          arith (fun m n => if decide (n = 0)%Z then inl ZeroDivisionError
                            else inr (VInt (m `mod` n)))
                (fun x y => if is_zero (NFloat y) then inl ZeroDivisionError
                            else inr (VFloat (float_mod x y))) a b
      | _, _ => inl TypeError
      end
  end.

(** [l == r]: numbers by value, strings by their characters, [None] with
    itself and a function object with itself. *)
Definition py_eq (l r : Value) : bool :=
  match as_number l, as_number r with
  | Some a, Some b => bool_decide (compare_numbers a b = Some Eq)
  | _, _ =>
      match l, r with
      | VNone, VNone => true
      | VStr s, VStr t => String.eqb s t
      | VFunction i _ _ _ _, VFunction j _ _ _ _ => Nat.eqb i j
      | _, _ => false
      end
  end.

(** The ordering operators: [holds] says which results of the three-way
    comparison make the operator true. Numbers are ordered among
    themselves and strings among themselves. *)
Definition py_order (holds : comparison -> bool) (l r : Value)
  : py_exception + Value :=
  match as_number l, as_number r with
  | Some a, Some b =>
      inr (VBool (from_option holds false (compare_numbers a b)))
  | _, _ =>
      match l, r with
      | VStr s, VStr t => inr (VBool (holds (String.compare s t)))
      | _, _ => inl TypeError
      end
  end.

Definition py_neg (v : Value) : py_exception + Value :=
  match as_number v with
  | Some (NInt n) => inr (VInt (- n))
  | Some (NFloat x) => inr (VFloat (float_neg x))
  | None => inl TypeError
  end.

(** [str(v)] of the host. *)
Definition py_str (v : Value) : string :=
  match v with
  | VNone => "None"
  | VBool b => if b then "True" else "False"
  | VInt n => pretty n
  | VFloat x => float_repr x
  | VStr s => s
  | VFunction oid _ _ _ _ =>
      "<interpreter.KSFunction object at " +:+ object_address oid +:+ ">"
  end.

(** *** The methods of [Interpreter] on values *)

Definition is_truthy (value : Value) : bool :=
  match value with
  | VNone => false
  | VBool b => b
  | _ => true
  end.

(** [text[:-2]] when [text] ends with a dot and a zero, else [text]. *)
Fixpoint strip_dot_zero (text : string) : string :=
  match text with
  | String "." (String "0" EmptyString) => EmptyString
  | String c text' => String c (strip_dot_zero text')
  | EmptyString => EmptyString
  end.

Definition stringify (value : Value) : string :=
  match value with
  | VNone => "null"
  | VBool b => if b then "true" else "false"
  | VFloat x => strip_dot_zero (float_repr x)
  | _ => py_str value
  end.

End Operations.
(** ** interpreter.py: the evaluator *)
Section Evaluator.
Context `{HostObjects}.

(** The interpreter object, with the heap of environments, the counter of
    function objects and the two output streams, a line per entry. *)
Record Interpreter := mkInterpreter {
  heap : Heap;
  globals : nat;
  environment : nat;
  next_object : nat;
  stdout : list string;
  stderr : list string
}.

(** [Interpreter()]: one environment, the globals, which is also the
    current one. *)
Definition new_interpreter : Interpreter :=
  let '(g, h) := allocate None [] in
  mkInterpreter h g g 0 [] [].

Definition with_heap (h : Heap) (st : Interpreter) : Interpreter :=
  mkInterpreter h (globals st) (environment st) (next_object st)
                (stdout st) (stderr st).

Definition with_environment (e : nat) (st : Interpreter) : Interpreter :=
  mkInterpreter (heap st) (globals st) e (next_object st)
                (stdout st) (stderr st).

(** What a method raises: the error of the language, the signal of a
    [return] statement, or an exception of the host. *)
Inductive signal :=
| KSRuntimeError (msg : string)
| ReturnValue (value : Value)
| HostError (e : py_exception).

(** A method returns or raises, and leaves a state either way; or the
    budget of nested calls and loop rounds ran out. *)
Inductive outcome (A : Type) :=
| Returned (a : A) (st : Interpreter)
| Raised (s : signal) (st : Interpreter)
| Exhausted.
Arguments Returned {A} a st.
Arguments Raised {A} s st.
Arguments Exhausted {A}.

Definition M (A : Type) : Type := Interpreter -> outcome A.

Definition ret {A} (a : A) : M A := fun st => Returned a st.
Definition raise {A} (s : signal) : M A := fun st => Raised s st.
Definition exhausted {A} : M A := fun _ => Exhausted.
Definition bind {A B} (m : M A) (k : A -> M B) : M B :=
  fun st =>
    match m st with
    | Returned a st' => k a st'
    | Raised s st' => Raised s st'
    | Exhausted => Exhausted
    end.

#[local] Notation "'let*' x ':=' m 'in' k" := (bind m (fun x => k))
  (at level 10, x binder, k at level 200).

(** The result of a host operation, returned or raised. *)
Definition host {A} (r : py_exception + A) : M A :=
  match r with
  | inl e => raise (HostError e)
  | inr a => ret a
  end.

(** [try: body finally: self.environment = previous]. *)
Definition restoring (previous : nat) {A} (body : M A) : M A :=
  fun st =>
    match body st with
    | Returned a st' => Returned a (with_environment previous st')
    | Raised s st' => Raised s (with_environment previous st')
    | Exhausted => Exhausted
    end.

Definition undefined_variable {A} (name : string) : M A :=
  raise (KSRuntimeError ("Undefined variable '" +:+ name +:+ "'")).

(** [self.environment.define(name, value)]. *)
Definition define_current (name : string) (value : Value) : M unit :=
  fun st => Returned tt (with_heap (define (heap st) (environment st) name value) st).

(** [for statement in statements: self.execute(statement)]. *)
Fixpoint execute_all (execute : Statement -> M unit) (statements : list Statement)
  : M unit :=
  match statements with
  | [] => ret tt
  | statement :: others =>
      let* _ := execute statement in
      execute_all execute others
  end.

Definition execute_block (execute : Statement -> M unit)
    (statements : list Statement) (env : nat) : M unit :=
  fun st =>
    let previous := environment st in
    restoring previous
      (fun st => execute_all execute statements (with_environment env st)) st.

Definition value_of_literal (l : Literal) : Value :=
  match l with
  | LBool b => VBool b
  | LInt n => VInt n
  | LFloat x => VFloat x
  | LStr s => VStr s
  end.

Definition visit_literal (value : Literal) : M Value :=
  ret (value_of_literal value).

Definition visit_identifier (name : string) : M Value :=
  fun st =>
    match get (heap st) (environment st) name with
    | Some v => Returned v st
    | None => undefined_variable name st
    end.

(** The chain of tests on [node.operator], once both operands have their
    values. *)
Definition binary_operation (operator : string) (l r : Value) : M Value :=
  if String.eqb operator "+" then
    match l, r with
    | VStr _, _ | _, VStr _ => ret (VStr (py_str l +:+ py_str r))
    | _, _ => host (py_add l r)
    end
  else if String.eqb operator "-" then host (py_sub l r)
  else if String.eqb operator "*" then host (py_mul l r)
  else if String.eqb operator "/" then
    if py_eq r (VInt 0) then raise (KSRuntimeError "Division by zero")
    else host (py_truediv l r)
  else if String.eqb operator "%" then host (py_mod l r)
  else if String.eqb operator "==" then ret (VBool (py_eq l r))
  else if String.eqb operator "!=" then ret (VBool (negb (py_eq l r)))
  else if String.eqb operator "<" then
    host (py_order (fun c => bool_decide (c = Lt)) l r)
  else if String.eqb operator ">" then
    host (py_order (fun c => bool_decide (c = Gt)) l r)
  else if String.eqb operator "<=" then
    host (py_order (fun c => bool_decide (c <> Gt)) l r)
  else if String.eqb operator ">=" then
    host (py_order (fun c => bool_decide (c <> Lt)) l r)
  else if String.eqb operator "&&" then
    ret (VBool (is_truthy l && is_truthy r))
  else if String.eqb operator "||" then
    ret (VBool (is_truthy l || is_truthy r))
  else raise (KSRuntimeError ("Unknown binary operator: " +:+ operator)).

Definition visit_binary (evaluate : Expression -> M Value)
    (left : Expression) (operator : string) (right : Expression) : M Value :=
  let* l := evaluate left in
  let* r := evaluate right in
  binary_operation operator l r.

Definition visit_unary (evaluate : Expression -> M Value)
    (operator : string) (operand : Expression) : M Value :=
  let* v := evaluate operand in
  if String.eqb operator "-" then host (py_neg v)
  else if String.eqb operator "!" then ret (VBool (negb (is_truthy v)))
  else raise (KSRuntimeError ("Unknown unary operator: " +:+ operator)).

(** The loop of [KSFunction.call] that binds the parameters in the
    environment [env]; [i] is the index of [enumerate]. *)
Fixpoint bind_parameters (h : Heap) (env : nat) (i : nat)
    (parameters : list string) (arguments : list Value) : Heap :=
  match parameters with
  | [] => h
  | param :: others =>
      let h' :=
        if decide (i < List.length arguments)
        then define h env param (default VNone (arguments !! i))
        else define h env param VNone in
      bind_parameters h' env (S i) others arguments
  end.


(** [KSFunction.call(interpreter, arguments)] on the function object with
    the given parameters, body and closure. *)
Definition KSFunction_call (execute : Statement -> M unit)
    (parameters : list string) (body : list Statement) (closure : nat)
    (arguments : list Value) : M Value :=
  fun st =>
    let '(env, h) := allocate (Some closure) (heap st) in
    let h := bind_parameters h env 0 parameters arguments in
    match execute_block execute body env (with_heap h st) with
    | Returned _ st' => Returned VNone st'
    | Raised (ReturnValue value) st' => Returned value st'
    | Raised s st' => Raised s st'
    | Exhausted => Exhausted
    end.

(** [for arg in node.arguments: arguments.append(self.evaluate(arg))]. *)
Fixpoint evaluate_arguments (evaluate : Expression -> M Value)
    (args : list Expression) (arguments : list Value) : M (list Value) :=
  match args with
  | [] => ret arguments
  | arg :: others =>
      let* v := evaluate arg in
      evaluate_arguments evaluate others (arguments ++ [v])
  end.

(** The end of [visit_call]: the test of the callee, the test of the
    number of arguments, and the call. *)
Definition call_value (execute : Statement -> M unit) (callee : Value)
    (arguments : list Value) : M Value :=
  match callee with
  | VFunction _ _ parameters body closure =>
      if decide (List.length arguments <> List.length parameters) then
        raise (KSRuntimeError
                 ("Expected " +:+ pretty (List.length parameters)
                  +:+ " arguments but got " +:+ pretty (List.length arguments)))
      else KSFunction_call execute parameters body closure arguments
  | _ => raise (KSRuntimeError "Can only call functions")
  end.

Definition visit_call (evaluate : Expression -> M Value)
    (execute : Statement -> M unit) (function : Expression)
    (arguments : list Expression) : M Value :=
  let* callee := evaluate function in
  let* arguments := evaluate_arguments evaluate arguments [] in
  call_value execute callee arguments.

Definition visit_assignment (evaluate : Expression -> M Value)
    (target : string) (value : Expression) : M Value :=
  let* v := evaluate value in
  fun st =>
    match assign (heap st) (environment st) target v with
    | Some h => Returned v (with_heap h st)
    | None => undefined_variable target st
    end.

Definition visit_variable_declaration (evaluate : Expression -> M Value)
    (name : string) (initializer : option Expression) : M unit :=
  let* value :=
    (match initializer with
     | Some e => evaluate e
     | None => ret VNone
     end) in
  define_current name value.

(** [KSFunction(node, self.environment)], a new object, is bound to the
    name of the declaration. *)
Definition visit_function_declaration (name : string)
    (parameters : list string) (body : list Statement) : M unit :=
  fun st =>
    let function :=
      VFunction (next_object st) name parameters body (environment st) in
    define_current name function
      (mkInterpreter (heap st) (globals st) (environment st)
                     (S (next_object st)) (stdout st) (stderr st)).

Definition visit_expression_statement (evaluate : Expression -> M Value)
    (expression : Expression) : M unit :=
  let* _ := evaluate expression in ret tt.

Definition visit_block_statement (execute : Statement -> M unit)
    (statements : list Statement) : M unit :=
  fun st =>
    let '(env, h) := allocate (Some (environment st)) (heap st) in
    execute_block execute statements env (with_heap h st).

Definition visit_if_statement (evaluate : Expression -> M Value)
    (execute : Statement -> M unit) (condition : Expression)
    (then_branch : Statement) (else_branch : option Statement) : M unit :=
  let* condition_value := evaluate condition in
  if is_truthy condition_value then execute then_branch
  else
    match else_branch with
    | Some s => execute s
    | None => ret tt
    end.

(** The [while True] loop of [visit_for_statement]; [fuel] bounds its
    rounds. *)
Fixpoint for_loop (fuel : nat) (evaluate : Expression -> M Value)
    (execute : Statement -> M unit) (condition : option Expression)
    (increment : option Expression) (body : Statement) : M unit :=
  match fuel with
  | O => exhausted
  | S fuel' =>
      let* go_on :=
        (match condition with
         | Some c => let* condition_value := evaluate c in
                     ret (is_truthy condition_value)
         | None => ret true
         end) in
      if go_on then
        let* _ := execute body in
        let* _ := (match increment with
                   | Some e => let* _ := evaluate e in ret tt
                   | None => ret tt
                   end) in
        for_loop fuel' evaluate execute condition increment body
      else ret tt
  end.

Definition visit_for_statement (fuel : nat) (evaluate : Expression -> M Value)
    (execute : Statement -> M unit) (initializer : option Statement)
    (condition : option Expression) (increment : option Expression)
    (body : Statement) : M unit :=
  fun st =>
    let '(env, h) := allocate (Some (environment st)) (heap st) in
    let previous := environment st in
    restoring previous
      (fun st =>
         (let* _ := (match initializer with
                     | Some s => execute s
                     | None => ret tt
                     end) in
          for_loop fuel evaluate execute condition increment body)
           (with_environment env st))
      (with_heap h st).

Fixpoint visit_while_statement (fuel : nat) (evaluate : Expression -> M Value)
    (execute : Statement -> M unit) (condition : Expression) (body : Statement)
  : M unit :=
  match fuel with
  | O => exhausted
  | S fuel' =>
      let* condition_value := evaluate condition in
      if is_truthy condition_value then
        let* _ := execute body in
        visit_while_statement fuel' evaluate execute condition body
      else ret tt
  end.

Definition visit_return_statement {A} (evaluate : Expression -> M Value)
    (value : option Expression) : M A :=
  let* v :=
    (match value with
     | Some e => evaluate e
     | None => ret VNone
     end) in
  raise (ReturnValue v).

(** [print(text)]: a line more on the standard output. *)
Definition print (text : string) : M unit :=
  fun st =>
    Returned tt (mkInterpreter (heap st) (globals st) (environment st)
                               (next_object st) (stdout st ++ [text]) (stderr st)).

Definition visit_gorun_statement (evaluate : Expression -> M Value)
    (expression : Expression) : M unit :=
  let* value := evaluate expression in
  print (stringify value).

(** [accept_visitor] on an expression and on a statement. The callers of
    [execute] drop what it returns, so it returns nothing here. [fuel]
    bounds the nesting of the visits and the rounds of the loops. *)
Fixpoint evaluate (fuel : nat) (expr : Expression) : M Value :=
  match fuel with
  | O => exhausted
  | S fuel' =>
      match expr with
      | LiteralExpression value _ => visit_literal value
      | IdentifierExpression name => visit_identifier name
      | BinaryExpression l operator r =>
          visit_binary (evaluate fuel') l operator r
      | UnaryExpression operator operand =>
          visit_unary (evaluate fuel') operator operand
      | CallExpression function arguments =>
          visit_call (evaluate fuel') (execute fuel') function arguments
      | AssignmentExpression target value =>
          visit_assignment (evaluate fuel') target value
      end
  end
with execute (fuel : nat) (stmt : Statement) : M unit :=
  match fuel with
  | O => exhausted
  | S fuel' =>
      match stmt with
      | VariableDeclaration name initializer =>
          visit_variable_declaration (evaluate fuel') name initializer
      | FunctionDeclaration name parameters body =>
          visit_function_declaration name parameters body
      | ExpressionStatement expression =>
          visit_expression_statement (evaluate fuel') expression
      | BlockStatement statements =>
          visit_block_statement (execute fuel') statements
      | IfStatement condition then_branch else_branch =>
          visit_if_statement (evaluate fuel') (execute fuel')
                             condition then_branch else_branch
      | ForStatement initializer condition increment body =>
          visit_for_statement fuel' (evaluate fuel') (execute fuel')
                              initializer condition increment body
      | WhileStatement condition body =>
          visit_while_statement fuel' (evaluate fuel') (execute fuel')
                                condition body
      | ReturnStatement value => visit_return_statement (evaluate fuel') value
      | GorunStatement expression =>
          visit_gorun_statement (evaluate fuel') expression
      end
  end.

Definition visit_program (execute : Statement -> M unit) (program : Program)
  : M unit :=
  execute_all execute (statements_of program).

(** [interpret]: a [KSRuntimeError] is reported on the error stream and
    makes the result [False]; the clause catches nothing else. *)
Definition interpret (execute : Statement -> M unit) (program : Program)
  : M bool :=
  fun st =>
    match visit_program execute program st with
    | Returned _ st' => Returned true st'
    | Raised (KSRuntimeError msg) st' =>
        Returned false
          (mkInterpreter (heap st') (globals st') (environment st')
                         (next_object st') (stdout st')
                         (stderr st' ++ ["Runtime Error: " +:+ msg]))
    | Raised s st' => Raised s st'
    | Exhausted => Exhausted
    end.

(** [Interpreter().interpret(program)]. *)
Definition run (fuel : nat) (program : Program) : outcome bool :=
  interpret (execute fuel) program new_interpreter.

End Evaluator.

Arguments Returned {_ A} a st.
Arguments Raised {_ A} s st.
Arguments Exhausted {_ A}.

End Interp.

(** ** The pipeline: source text to output *)
Module Pipeline.
Import Ast.

Section Pipeline.
Context `{Interp.HostObjects}.

Inductive result :=
| LexFailed (e : py_exception)
| ParseFailed (e : Parser.exn)
| ParseExhausted
| Ran (o : Interp.outcome bool).

(** [Interpreter().interpret(Parser(Lexer(text).tokenize()).parse())]. *)
Definition run_source (fuel : nat) (text : string) : result :=
  match Parser.parse_source text with
  | inl e => LexFailed e
  | inr (Parser.Returned program _) => Ran (Interp.run fuel program)
  | inr (Parser.Raised e _) => ParseFailed e
  | inr Parser.Exhausted => ParseExhausted
  end.

(** The lines on the standard output when the run came to an end. *)
Definition output (r : result) : option (list string) :=
  match r with
  | Ran (Interp.Returned _ st) => Some (Interp.stdout st)
  | Ran (Interp.Raised _ st) => Some (Interp.stdout st)
  | _ => None
  end.

(** The lines on the error stream, and what [interpret] returned. *)
Definition errors (r : result) : option (list string) :=
  match r with
  | Ran (Interp.Returned _ st) => Some (Interp.stderr st)
  | Ran (Interp.Raised _ st) => Some (Interp.stderr st)
  | _ => None
  end.

Definition verdict (r : result) : option bool :=
  match r with
  | Ran (Interp.Returned ok _) => Some ok
  | _ => None
  end.

End Pipeline.
End Pipeline.

(** ** A host to run programs on

    The host of the examples: its floating point numbers are the binary64
    numbers of the kernel. The conversions from integers and from decimal
    literals and the division of integers round the exact value to the
    nearest number, ties to even; comparisons against integers are exact. *)
Module Binary64.

Definition spec_of_int (n : Z) : spec_float :=
  match n with
  | Z0 => S754_zero false
  | Zpos m => S754_finite false m 0
  | Zneg m => S754_finite true m 0
  end.

(** The number nearest to [n / d]; [d] is not zero. *)
Definition nearest_ratio (n d : Z) : spec_float :=
  SFdiv prec emax (spec_of_int n) (spec_of_int d).

Definition finite_or_overflow (f : spec_float) : option PrimFloat.float :=
  match f with
  | S754_infinity _ => None
  | _ => Some (SF2Prim f)
  end.

Definition of_int (n : Z) : option PrimFloat.float :=
  finite_or_overflow (binary_normalize prec emax n 0 false).

Definition truediv (m n : Z) : option PrimFloat.float :=
  finite_or_overflow (nearest_ratio m n).

Definition of_decimal (n : Z) (k : nat) : PrimFloat.float :=
  SF2Prim (nearest_ratio n (10 ^ Z.of_nat k)).

Definition compare (x y : PrimFloat.float) : option comparison :=
  match PrimFloat.compare x y with
  | FEq => Some Eq
  | FLt => Some Lt
  | FGt => Some Gt
  | FNotComparable => None
  end.

(** The sign of [m * 2^e - n]. *)
Definition compare_scaled (m e n : Z) : comparison :=
  match e with
  | Zneg k => (m ?= n * 2 ^ Zpos k)%Z
  | _ => (m * 2 ^ e ?= n)%Z
  end.

Definition compare_int (x : PrimFloat.float) (n : Z) : option comparison :=
  match Prim2SF x with
  | S754_nan => None
  | S754_infinity s => Some (if s then Lt else Gt)
  | S754_zero _ => Some (0 ?= n)%Z
  | S754_finite s m e => Some (compare_scaled (cond_Zopp s (Zpos m)) e n)
  end.

(** [fmod] of C: [x - n * y] for the integer [n] that is [x / y] cut
    towards zero. The result is exact. *)
Definition fmod (x y : spec_float) : spec_float :=
  match x, y with
  | S754_nan, _ | _, S754_nan => S754_nan
  | S754_infinity _, _ => S754_nan
  | _, S754_zero _ => S754_nan
  | S754_zero s, _ => S754_zero s
  | S754_finite _ _ _, S754_infinity _ => x
  | S754_finite sx mx ex, S754_finite _ my ey =>
      let e0 := Z.min ex ey in
      let r := ((Zpos mx * 2 ^ (ex - e0)) `mod` (Zpos my * 2 ^ (ey - e0)))%Z in
      binary_normalize prec emax (cond_Zopp sx r) e0 sx
  end.

(** [x % y] of the host, [y] not zero: the remainder of [fmod], moved by
    [y] when its sign is not the sign of [y]. *)
Definition mod_ (x y : PrimFloat.float) : PrimFloat.float :=
  let m := SF2Prim (fmod (Prim2SF x) (Prim2SF y)) in
  if PrimFloat.is_zero m then (if PrimFloat.get_sign y then neg_zero else zero)
  else if xorb (PrimFloat.ltb y zero) (PrimFloat.ltb m zero)
       then PrimFloat.add m y
       else m.

(** *** [repr]: the shortest decimal that reads back as the number *)

(** [num / den < 10^t]. *)
Definition below_power (num den t : Z) : bool :=
  match t with
  | Zneg k => (num * 10 ^ Zpos k <? den)%Z
  | _ => (num <? den * 10 ^ t)%Z
  end.

(** The least [t] from [t0] on with [num / den < 10^t]. *)
Fixpoint decimal_point (fuel : nat) (num den t0 : Z) : Z :=
  match fuel with
  | O => t0
  | S fuel' =>
      if below_power num den t0 then t0
      else decimal_point fuel' num den (t0 + 1)
  end.

(** The number nearest to [d * 10^k]. *)
Definition read_decimal (d k : Z) : PrimFloat.float :=
  match k with
  | Zneg j => SF2Prim (nearest_ratio d (10 ^ Zpos j))
  | _ => SF2Prim (nearest_ratio (d * 10 ^ k) 1)
  end.

(** The [p]-digit decimals next to [num / den], one below and one above,
    that read back as [x]; of two, the nearer. The result is the digits
    and the exponent of ten that scales them. *)
Definition candidate (x : PrimFloat.float) (num den t : Z) (p : Z)
  : option (Z * Z) :=
  let k := (t - p)%Z in
  let '(num', den') :=
    match k with
    | Zneg j => ((num * 10 ^ Zpos j)%Z, den)
    | _ => (num, (den * 10 ^ k)%Z)
    end in
  let lo := (num' `div` den')%Z in
  let rem := (num' `mod` den')%Z in
  let hi := (lo + 1)%Z in
  let ok d := PrimFloat.eqb (read_decimal d k) x in
  if (rem =? 0)%Z then Some (lo, k)
  else
    match ok lo, ok hi with
    | true, true =>
        match (2 * rem ?= den')%Z with
        | Lt => Some (lo, k)
        | Gt => Some (hi, k)
        | Eq => Some (if Z.even lo then lo else hi, k)
        end
    | true, false => Some (lo, k)
    | false, true => Some (hi, k)
    | false, false => None
    end.

Fixpoint shortest (fuel : nat) (x : PrimFloat.float) (num den t : Z) (p : Z)
  : Z * Z :=
  match fuel with
  | O => (0, 0)%Z
  | S fuel' =>
      match candidate x num den t p with
      | Some r => r
      | None => shortest fuel' x num den t (p + 1)
      end
  end.

(** The digits without their trailing zeros. *)
Fixpoint trim_zeros (fuel : nat) (d k : Z) : Z * Z :=
  match fuel with
  | O => (d, k)
  | S fuel' =>
      if (d `mod` 10 =? 0)%Z then trim_zeros fuel' (d `div` 10) (k + 1)
      else (d, k)
  end.

Definition zeros (n : Z) : string := Interp.repeat_string "0" (Z.to_nat n).

Definition two_digits (n : Z) : string :=
  if (n <? 10)%Z then "0" +:+ pretty n else pretty n.

(** The digits [ds] with the decimal point after the first [decpt] of
    them: fixed notation between 1e-4 and 1e16, else with an exponent. *)
Definition layout (ds : string) (decpt : Z) : string :=
  let n := Z.of_nat (String.length ds) in
  if (decpt <=? -4)%Z || (16 <? decpt)%Z then
    let mantissa :=
      match ds with
      | String c EmptyString => Char.str c
      | String c more => Char.str c +:+ "." +:+ more
      | EmptyString => EmptyString
      end in
    let e := (decpt - 1)%Z in
    mantissa +:+ "e" +:+ (if (e <? 0)%Z then "-" else "+") +:+ two_digits (Z.abs e)
  else if (decpt <=? 0)%Z then "0." +:+ zeros (- decpt) +:+ ds
  else if (n <=? decpt)%Z then ds +:+ zeros (decpt - n) +:+ ".0"
  else substring 0 (Z.to_nat decpt) ds +:+ "."
       +:+ substring (Z.to_nat decpt) (Z.to_nat (n - decpt)) ds.

Definition repr (x : PrimFloat.float) : string :=
  match Prim2SF x with
  | S754_nan => "nan"
  | S754_infinity s => if s then "-inf" else "inf"
  | S754_zero s => if s then "-0.0" else "0.0"
  | S754_finite s m e =>
      let '(num, den) :=
        match e with
        | Zneg k => (Zpos m, (2 ^ Zpos k)%Z)
        | _ => ((Zpos m * 2 ^ e)%Z, 1%Z)
        end in
      let t := decimal_point 700 num den (-330) in
      let '(d, k) := shortest 17 (PrimFloat.abs x) num den t 1 in
      let '(d, k) := trim_zeros 17 d k in
      let ds := pretty d in
      (if s then "-" else "") +:+ layout ds (k + Z.of_nat (String.length ds))
  end.

#[global] Instance host_float : HostFloat := {|
  float := PrimFloat.float;
  float_of_decimal := of_decimal;
  float_of_int := of_int;
  int_truediv := truediv;
  float_add := PrimFloat.add;
  float_sub := PrimFloat.sub;
  float_mul := PrimFloat.mul;
  float_truediv := PrimFloat.div;
  float_mod := mod_;
  float_neg := PrimFloat.opp;
  float_compare := compare;
  float_compare_int := compare_int;
  float_repr := repr
|}.

(** This host formats nothing: a format without the percent sign leaves
    the value unused, which is a [TypeError], and the same is answered on
    the other formats, where the host would format the value. An object is
    shown at an address that grows with its number. The host has the
    memory for a repeated string of less than 2^31 characters. *)
#[global] Instance host_objects : Interp.HostObjects := {|
  Interp.str_mod := fun _ _ => inl TypeError;
  Interp.object_address := fun oid => "0x7f" +:+ pretty (1000000000 + 64 * Z.of_nat oid)%Z;
  Interp.string_fits := fun n => (n <? 2 ^ 31)%Z
|}.

End Binary64.

(** ** Inputs of the examples

    The programs, expressions and states that the properties below are
    instantiated at. *)
Module Inputs.
Import Ast Interp.

Section Inputs.
Context `{HostFloat}.

(** The state of [let x = 1; { ... }] inside the block: the globals bind
    [x], the block has its own empty environment. *)
Definition in_block_under_x : Interpreter :=
  mkInterpreter
    [mkEnvironment ∅ (Some 0); mkEnvironment {["x" := VInt 1]} None]
    0 1 0 [] [].

(** The closure counter of the specification. *)
Definition closure_counter : string :=
  "func make() { let n = 0; func inc() { n = n + 1; return n; } return inc; } "
  +:+ "let f = make(); gorun(f()); gorun(f()); gorun(f());".

(** The operands of the counterexample to short-circuit evaluation: a
    comparison that is false, an assignment to [x], and the state after
    [let x = 0;]. *)
Definition one_equals_two : Expression :=
  BinaryExpression (LiteralExpression (LInt 1) "number") "=="
                   (LiteralExpression (LInt 2) "number").

Definition assign_one_to_x : Expression :=
  AssignmentExpression "x" (LiteralExpression (LInt 1) "number").

Definition after_let_x_0 : Interpreter :=
  mkInterpreter [mkEnvironment {["x" := VInt 0]} None] 0 0 0 [] [].

Definition after_x_is_1 : Interpreter :=
  mkInterpreter [mkEnvironment {["x" := VInt 1]} None] 0 0 0 [] [].

(** The state after [func f() { let x = 1; }], and the call [f()]. *)
Definition after_func_f : Interpreter :=
  mkInterpreter
    [mkEnvironment
       {["f" := VFunction 0 "f" []
                  [VariableDeclaration "x" (Some (LiteralExpression (LInt 1) "number"))]
                  0]} None]
    0 0 1 [] [].

Definition call_f : Expression := CallExpression (IdentifierExpression "f") [].

(** A string and an integer. *)
Definition ab : Expression := LiteralExpression (LStr "ab") "string".
Definition three : Expression := LiteralExpression (LInt 3) "number".

(** A double quote, to write a string literal of the language. *)
Definition dq : string := Char.str Char.quote.

(** [gorun("x=" + (1 == 1));] *)
Definition concat_boolean : string :=
  "gorun(" +:+ dq +:+ "x=" +:+ dq +:+ " + (1 == 1));".

(** [let z; gorun("a" + z);] *)
Definition concat_null : string :=
  "let z; gorun(" +:+ dq +:+ "a" +:+ dq +:+ " + z);".

(** [gorun("a" + 3.0); gorun(3.0);] *)
Definition concat_float : string :=
  "gorun(" +:+ dq +:+ "a" +:+ dq +:+ " + 3.0); gorun(3.0);".

(** The scenarios of the specification that the pipeline accepts. *)
Definition mixed_arithmetic : string :=
  "gorun(1 + 2); gorun(" +:+ dq +:+ "x=" +:+ dq
  +:+ " + 3); gorun(7 / 2); gorun(7 % 2);".

Definition for_loop_sum : string :=
  "let s = 0; for (let i = 0; i < 5; i = i + 1) { s = s + i; } gorun(s);".

Definition division_by_zero : string := "gorun(1/0);".

Definition shadowing : string :=
  "let x = 1; { let x = 2; gorun(x); } gorun(x);".

Definition assignment_in_block : string :=
  "let x = 1; { x = 2; } gorun(x);".

(** A block left by a runtime error, and blocks left by a return signal. *)
Definition error_in_block : string :=
  "let x = 1; { let y = 2; { z = 3; } }".

Definition return_through_blocks : string :=
  "func f() { let a = 1; { let b = 2; { return a + b; } } } gorun(f()); gorun(f());".

(** A statement that is the superscript two, U+00B2, and a string literal
    cut after a backslash. *)
Definition superscript_two_statement : string :=
  Char.str (ascii_of_nat 178) +:+ ";".

Definition unfinished_escape : string :=
  dq +:+ "abc" +:+ Char.str Char.backslash.

End Inputs.
End Inputs.

(** ** What a token of the lexer looks like

    The relation between the kind of a token and its lexeme, used to state
    what [tokenize] gives. *)
Module TokenShape.
Import Lexer.

Fixpoint all_chars (p : ascii -> bool) (s : string) : bool :=
  match s with
  | EmptyString => true
  | String c s' => p c && all_chars p s'
  end.

Definition starts_with (p : ascii -> bool) (s : string) : bool :=
  match s with
  | String c _ => p c
  | EmptyString => false
  end.

Definition number_char (c : ascii) : bool := Char.isdigit c || Ascii.eqb c ".".
Definition name_start (c : ascii) : bool := Char.isalpha c || Ascii.eqb c "_".
Definition name_char (c : ascii) : bool := Char.isalnum c || Ascii.eqb c "_".

(** The lexeme fits the kind: a number starts with a digit and holds digits
    and dots; an identifier is a name that is no keyword; a keyword, an
    operator and a delimiter are spelled as their kind says; the kinds
    [TRUE], [FALSE], [WHITESPACE] and [EOF] fit no lexeme. *)
Definition fits (t : Token) : bool :=
  match type t with
  | NUMBER => starts_with Char.isdigit (value t) && all_chars number_char (value t)
  | STRING => true
  | BOOLEAN => String.eqb (value t) "true" || String.eqb (value t) "false"
  | IDENTIFIER =>
      starts_with name_start (value t) && all_chars name_char (value t)
      && bool_decide (keywords (value t) = None)
  | LET | FUNC | IF | ELSE | FOR | WHILE | RETURN | GORUN =>
      bool_decide (keywords (value t) = Some (type t))
  | PLUS | MINUS | MULTIPLY | DIVIDE | MODULO | ASSIGN
  | EQUAL | NOT_EQUAL | LESS_THAN | GREATER_THAN | LESS_EQUAL | GREATER_EQUAL
  | AND | OR | NOT =>
      bool_decide (operators (value t) = Some (type t))
  | SEMICOLON | COMMA | LEFT_PAREN | RIGHT_PAREN | LEFT_BRACE | RIGHT_BRACE =>
      match value t with
      | String c EmptyString => bool_decide (delimiters c = Some (type t))
      | _ => false
      end
  | NEWLINE => String.eqb (value t) (Char.str Char.newline)
  | TRUE | FALSE | WHITESPACE | EOF => false
  end.

(** Lines and columns count from 1. *)
Definition placed (t : Token) : bool :=
  Nat.leb 1 (line t) && Nat.leb 1 (column t).

Definition well_formed (t : Token) : bool := fits t && placed t.

(** A token list ends with its end-of-input token. *)
Definition ends_with_EOF (ts : list Token) : Prop :=
  exists t, last ts = Some t /\ type t = EOF.

(** A character that stands for itself in a string literal. *)
Definition plain (c : ascii) : bool :=
  negb (Ascii.eqb c Char.quote) && negb (Ascii.eqb c Char.backslash).

(** A text for the inside of a string literal that is read back as [s]:
    a backslash before every quote and every backslash. *)
Fixpoint escaped (s : string) : string :=
  match s with
  | EmptyString => EmptyString
  | String c s' =>
      if Ascii.eqb c Char.quote || Ascii.eqb c Char.backslash
      then String Char.backslash (String c (escaped s'))
      else String c (escaped s')
  end.

(** The text after an opening quote that no quote closes: a quote stands
    in it only behind a backslash. *)
Fixpoint unclosed (s : string) : bool :=
  match s with
  | EmptyString => true
  | String c s' =>
      if Ascii.eqb c Char.quote then false
      else if Ascii.eqb c Char.backslash then
        match s' with
        | EmptyString => true
        | String _ s'' => unclosed s''
        end
      else unclosed s'
  end.

(** The characters that the text of a literal stands for: a backslash and
    the character behind it stand for one character, a line feed, a tab or
    a carriage return for n, t and r, and else the character itself. There
    is none when the text ends with a backslash that has no character
    behind it. *)
Fixpoint unescaped (s : string) : option string :=
  match s with
  | EmptyString => Some EmptyString
  | String c s' =>
      if Ascii.eqb c Char.backslash then
        match s' with
        | EmptyString => None
        | String d s'' => String (escape_chars d) <$> unescaped s''
        end
      else String c <$> unescaped s'
  end.

(** The positions of the lexer count from 1. *)
Definition positioned (lx : Lexer) : Prop := 1 <= cur_line lx /\ 1 <= cur_column lx.

(** What [tokenize] can answer: well-formed tokens and then the
    end-of-input token, or one of two exceptions. *)
Definition lexed (r : result) : Prop :=
  match r with
  | Tokens ts =>
      exists body eof,
        ts = body ++ [eof] /\ type eof = EOF /\ value eof = "" /\ placed eof = true
        /\ Forall (fun t => well_formed t = true) body
  | Raise e => (exists msg, e = SyntaxError msg) \/ e = TypeError
  | Exhausted => False
  end.

(** Positions in reading order: an earlier line, or the same line and an
    earlier column. *)
Definition before (l1 k1 l2 k2 : nat) : bool :=
  Nat.ltb l1 l2 || (Nat.eqb l1 l2 && Nat.ltb k1 k2).

Definition token_before (t1 t2 : Token) : bool :=
  before (line t1) (column t1) (line t2) (column t2).

(** Every token stands before the next one. *)
Fixpoint ascending (ts : list Token) : bool :=
  match ts with
  | t1 :: ((t2 :: _) as others) => token_before t1 t2 && ascending others
  | _ => true
  end.

(** The position of the lexer [lx'] is the one of [lx] or a later one. *)
Definition onward (lx lx' : Lexer) : Prop :=
  cur_line lx < cur_line lx'
  \/ (cur_line lx = cur_line lx' /\ cur_column lx <= cur_column lx').

Definition forward (lx lx' : Lexer) : Prop :=
  cur_line lx < cur_line lx'
  \/ (cur_line lx = cur_line lx' /\ cur_column lx < cur_column lx').

(** The last token, if any, stands before the position of the lexer. *)
Definition behind (tokens : list Token) (lx : Lexer) : Prop :=
  forall t, last tokens = Some t ->
    line t < cur_line lx \/ (line t = cur_line lx /\ column t < cur_column lx).

(** The line and the column after the characters of [s], read from the
    line and column [pos]: a newline starts a line, every other character
    takes a column. *)
Definition step (pos : nat * nat) (c : ascii) : nat * nat :=
  if Ascii.eqb c Char.newline then (S pos.1, 1) else (pos.1, S pos.2).

Fixpoint position_after (s : string) (pos : nat * nat) : nat * nat :=
  match s with
  | EmptyString => pos
  | String c s' => position_after s' (step pos c)
  end.









End TokenShape.

(** ** The positions of the parser *)
Module ParserShape.
Import Lexer Parser TokenShape.

(** [current] points at a token, and the last token is the end-of-input
    token. *)
Definition in_range (p : Parser) : Prop :=
  ends_with_EOF (tokens p) /\ current p < List.length (tokens p).

(** The tokens from [current] on. *)
Definition left_over (p : Parser) : nat := List.length (tokens p) - current p.

(** The exceptions of a parse: [ParseError], and the [ValueError] of the
    host's [int] and [float]. *)
Definition allowed (e : exn) : Prop :=
  (exists msg, e = ParseError msg) \/ e = HostError ValueError.

(** An outcome of a method called at [p]: the token list is the same, the
    position is in range and did not move back; with [strict], a method
    that returns has consumed a token. *)
Definition moves {A} (strict : bool) (p : Parser) (r : outcome A) : Prop :=
  match r with
  | Returned _ p' =>
      tokens p' = tokens p
      /\ (if strict then current p < current p' else current p <= current p')
      /\ current p' < List.length (tokens p')
  | Raised e p' =>
      tokens p' = tokens p /\ current p <= current p'
      /\ current p' < List.length (tokens p') /\ allowed e
  | Exhausted => False
  end.

(** [m] moves forward, and has budget enough, wherever at most [n] tokens
    are left. *)
Definition within {A} (n : nat) (strict : bool) (m : M A) : Prop :=
  forall p, in_range p -> left_over p <= n -> moves strict p (m p).

(** [m] looks at the tokens and leaves the parser alone. *)
Definition reads {A} (m : M A) : Prop :=
  forall p, in_range p -> exists a, m p = Returned a p.

(** Where [synchronize] stops: at the end, after a semicolon, or before a
    token that starts a statement. *)
Definition synchronized (p : Parser) : Prop :=
  is_at_end p = Returned true p
  \/ (exists t, previous p = Returned t p /\ type t = SEMICOLON)
  \/ (exists t, peek p = Returned t p
              /\ type t ∈ [FUNC; LET; FOR; IF; WHILE; GORUN; RETURN]).

End ParserShape.

(** ** The states of the interpreter *)
Module InterpreterShape.
Import Ast Interp.

Section Shape.
Context `{HostObjects}.

(** The heap [h'] has the environments of [h], with the parents they had,
    and maybe more. *)
Definition extends (h h' : Heap) : Prop :=
  List.length h <= List.length h'
  /\ forall e, e < List.length h -> parent_of h' e = parent_of h e.

(** The state [st'] comes after [st]: the same globals, a heap that
    extends the heap, no function object taken back, lines added to the
    standard output and none to the error stream. The current environment
    is left out. *)
Definition follows (st st' : Interpreter) : Prop :=
  globals st' = globals st
  /\ extends (heap st) (heap st')
  /\ next_object st <= next_object st'
  /\ (exists lines, stdout st' = stdout st ++ lines)
  /\ stderr st' = stderr st.

(** An outcome of a method called at [st]: where it ends, returned or
    raised, the state comes after [st] and the current environment is the
    one of [st]. *)
Definition kept {A} (st : Interpreter) (r : outcome A) : Prop :=
  match r with
  | Returned _ st' | Raised _ st' =>
      environment st' = environment st /\ follows st st'
  | Exhausted => True
  end.

Definition keeps {A} (m : M A) : Prop := forall st, kept st (m st).

(** A right operand of [/] that is equal to zero: the integer zero,
    [false], or a float that compares equal to zero. *)
Definition zero_divisor (r : Value) : Prop :=
  match r with
  | VInt n => n = 0%Z
  | VBool b => b = false
  | VFloat x => float_compare_int x 0 = Some Eq
  | _ => False
  end.

(** The text ends with a dot and a zero. *)
Definition ends_with_dot_zero (text : string) : Prop :=
  exists s, text = s +:+ ".0".

(** The signal of a [return] statement. *)
Definition is_return (s : signal) : bool :=
  match s with
  | ReturnValue _ => true
  | _ => false
  end.

(** [m] does not raise the signal of a [return] statement. *)
Definition returns_inside {A} (m : M A) : Prop :=
  forall st s st', m st = Raised s st' -> is_return s = false.

End Shape.

End InterpreterShape.

(** ** The names of the environments *)
Module ScopeShape.
Import Ast Interp InterpreterShape.

Section Shape.
Context `{HostObjects}.

(** The environments below [n] define in [h'] the names they define in
    [h]. *)
Definition names_kept (n : nat) (h h' : Heap) : Prop :=
  forall e x, e < n -> is_Some (binding h' e x) <-> is_Some (binding h e x).

(** The current environment is an environment of the heap. *)
Definition valid (st : Interpreter) : Prop :=
  environment st < List.length (heap st).

(** The environments that exist when a method is called, and those that
    are older than the current one. *)
Definition existing (st : Interpreter) : nat := List.length (heap st).
Definition older (st : Interpreter) : nat := environment st.

(** Called in a valid state, [m] adds no name to the environments below
    [n] and takes none away. *)
Definition confined {A} (n : Interpreter -> nat) (m : M A) : Prop :=
  forall st, valid st ->
    match m st with
    | Returned _ st' | Raised _ st' => names_kept (n st) (heap st) (heap st')
    | Exhausted => True
    end.

(** The two levels: all the environments that exist, or those older than
    the current one. *)
Definition level (n : Interpreter -> nat) : Prop := n = existing \/ n = older.

End Shape.

End ScopeShape.

(** ** The operators of a program *)
Module OperatorShape.
Import Lexer Ast TokenShape.

(** The operators that [visit_binary] and [visit_unary] know. *)
Definition binary_operators : list string :=
  ["+"; "-"; "*"; "/"; "%"; "=="; "!="; "<"; ">"; "<="; ">="; "&&"; "||"].

Definition unary_operators : list string := ["-"; "!"].

(** The tokens of a lexer: every token but the end-of-input token fits its
    kind. *)
Definition lexical (ts : list Token) : Prop :=
  Forall (fun t => fits t = true \/ type t = EOF) ts.

Section Nodes.
Context `{HostFloat}.

(** Every operator in the expression is one the interpreter knows. *)
Fixpoint known_expression (e : Expression) : bool :=
  match e with
  | LiteralExpression _ _ | IdentifierExpression _ => true
  | BinaryExpression l operator r =>
      bool_decide (operator ∈ binary_operators)
      && known_expression l && known_expression r
  | UnaryExpression operator operand =>
      bool_decide (operator ∈ unary_operators) && known_expression operand
  | CallExpression function arguments =>
      known_expression function && forallb known_expression arguments
  | AssignmentExpression _ value => known_expression value
  end.

Definition known_option (o : option Expression) : bool :=
  match o with
  | Some e => known_expression e
  | None => true
  end.

Fixpoint known_statement (s : Statement) : bool :=
  match s with
  | VariableDeclaration _ initializer => known_option initializer
  | FunctionDeclaration _ _ body => forallb known_statement body
  | ExpressionStatement expression => known_expression expression
  | BlockStatement statements => forallb known_statement statements
  | IfStatement condition then_branch else_branch =>
      known_expression condition && known_statement then_branch
      && match else_branch with
         | Some s' => known_statement s'
         | None => true
         end
  | ForStatement initializer condition increment body =>
      match initializer with
      | Some s' => known_statement s'
      | None => true
      end
      && known_option condition && known_option increment && known_statement body
  | WhileStatement condition body =>
      known_expression condition && known_statement body
  | ReturnStatement value => known_option value
  | GorunStatement expression => known_expression expression
  end.

Definition known_program (p : Program) : bool :=
  forallb known_statement (statements_of p).

(** On the tokens of a lexer, what [m] returns satisfies [Q], and [m]
    leaves the tokens as they are. *)
Definition yields {A} (Q : A -> Prop) (m : Parser.M A) : Prop :=
  forall p, lexical (Parser.tokens p) ->
    match m p with
    | Parser.Returned a p' => Q a /\ Parser.tokens p' = Parser.tokens p
    | _ => True
    end.

End Nodes.

Section Values.
Context `{Interp.HostObjects}.

(** A function value has a body of known operators. *)
Definition known_value (v : Interp.Value) : bool :=
  match v with
  | Interp.VFunction _ _ _ body _ => forallb known_statement body
  | _ => true
  end.

Definition known_heap (h : Interp.Heap) : Prop :=
  forall e x v, Interp.binding h e x = Some v -> known_value v = true.

(** The runtime errors of the last branch of [visit_binary] and of
    [visit_unary]. *)
Definition unknown_operator (s : Interp.signal) : Prop :=
  exists operator,
    s = Interp.KSRuntimeError ("Unknown binary operator: " +:+ operator)
    \/ s = Interp.KSRuntimeError ("Unknown unary operator: " +:+ operator).

Definition fine_signal (s : Interp.signal) : Prop :=
  ~ unknown_operator s
  /\ forall v, s = Interp.ReturnValue v -> known_value v = true.

(** On a heap of known values, [m] returns a result that satisfies [Q],
    raises no error of an unknown operator, and leaves a heap of known
    values. *)
Definition sound {A} (Q : A -> Prop) (m : Interp.M A) : Prop :=
  forall st, known_heap (Interp.heap st) ->
    match m st with
    | Interp.Returned a st' => Q a /\ known_heap (Interp.heap st')
    | Interp.Raised s st' => fine_signal s /\ known_heap (Interp.heap st')
    | Interp.Exhausted => True
    end.

End Values.

End OperatorShape.

(** * Properties *)

(** ** The lexer: it comes to an end, and small inputs *)
Module LexerFacts.
Import Lexer.

Lemma advance_remaining lx : remaining (advance lx) = pred (remaining lx).
Proof.
  unfold advance, remaining. destruct (rest lx) as [|c r]; simpl; [done|].
  destruct (Ascii.eqb c Char.newline); done.
Qed.

Lemma skip_whitespace_go_remaining r l k :
  remaining (skip_whitespace_go r l k) <= String.length r.
Proof.
  revert k. induction r as [|c r IH]; intros k; simpl; [done|].
  case_match; [|done].
  specialize (IH (S k)). lia.
Qed.

Lemma skip_to_eol_remaining r l k :
  remaining (skip_to_eol r l k) <= String.length r.
Proof.
  revert k. induction r as [|c r IH]; intros k; simpl; [done|].
  destruct (Ascii.eqb c Char.newline); [done|].
  specialize (IH (S k)). lia.
Qed.

Lemma read_number_go_remaining r l k number_str :
  remaining (read_number_go r l k number_str).2 <= String.length r.
Proof.
  revert k number_str. induction r as [|c r IH]; intros k number_str; simpl; [done|].
  destruct (Char.isdigit c || Ascii.eqb c "."); [|done].
  specialize (IH (S k) (number_str +:+ Char.str c)). lia.
Qed.

Lemma read_identifier_go_remaining r l k identifier :
  remaining (read_identifier_go r l k identifier).2 <= String.length r.
Proof.
  revert k identifier. induction r as [|c r IH]; intros k identifier; simpl; [done|].
  destruct (Char.isalnum c || Ascii.eqb c "_"); [|done].
  specialize (IH (S k) (identifier +:+ Char.str c)). lia.
Qed.

Lemma read_string_go_remaining r l k string_value s lx' :
  read_string_go r l k string_value = inr (s, lx') ->
  remaining lx' <= String.length r.
Proof.
  remember (String.length r) as n eqn:Hn.
  assert (String.length r <= n) as Hle by lia. clear Hn.
  revert r l k string_value Hle.
  induction n as [|n IH]; intros r l k string_value Hle.
  - destruct r; simpl in *; [|lia]. intros [= <- <-]. done.
  - destruct r as [|c r]; simpl in *; [intros [= <- <-]; unfold remaining; simpl; lia|].
    destruct (Ascii.eqb c Char.quote).
    { intros [= <- <-]. rewrite advance_remaining. unfold remaining. simpl. lia. }
    destruct (Ascii.eqb c Char.backslash).
    + destruct r as [|d r]; [done|]. intros Hgo.
      apply IH in Hgo; simpl in *; lia.
    + intros Hgo. apply IH in Hgo; simpl in *; lia.
Qed.

(** A round of the loop for every character and one more is enough:
    [tokenize] never runs out of rounds. *)
Lemma tokenize_loop_total fuel lx tokens :
  remaining lx < fuel -> tokenize_loop fuel lx tokens <> Exhausted.
Proof.
  revert lx tokens. induction fuel as [|fuel IH]; intros lx tokens Hlt; [lia|].
  simpl. destruct (rest lx) as [|c0 r0] eqn:Hrest; [done|].
  pose proof (skip_whitespace_go_remaining (rest lx) (cur_line lx) (cur_column lx))
    as Hws.
  fold (skip_whitespace lx) in Hws. fold (remaining lx) in Hws.
  set (lx1 := skip_whitespace lx) in *.
  unfold current_char. destruct (rest lx1) as [|char r1] eqn:Hr1; [done|].
  assert (remaining lx1 = S (String.length r1)) as Hrem1
    by (unfold remaining; rewrite Hr1; done).
  assert (forall lx2, remaining lx2 <= String.length r1 -> remaining lx2 < fuel)
    as Hnext by (intros lx2 Hle; lia).
  assert (remaining (advance lx1) <= String.length r1) as Hadv
    by (rewrite advance_remaining; lia).
  destruct (Ascii.eqb char "/" && bool_decide (peek_char lx1 = Some "/"%char))
    eqn:Hcomment.
  { apply IH, Hnext. apply andb_prop in Hcomment as [Hc Hp].
    apply Ascii.eqb_eq in Hc as ->. apply bool_decide_eq_true_1 in Hp.
    unfold skip_comment, current_char. rewrite Hp, Hr1. simpl.
    apply skip_to_eol_remaining. }
  destruct (Ascii.eqb char Char.newline); [by apply IH, Hnext|].
  destruct (Char.isdigit char) eqn:Hdigit.
  { unfold read_number.
    destruct (read_number_go _ _ _ _) as [number_str lx'] eqn:Hgo.
    apply IH, Hnext.
    rewrite Hr1 in Hgo. simpl in Hgo. rewrite Hdigit in Hgo. simpl in Hgo.
    pose proof (read_number_go_remaining r1 (cur_line lx1) (S (cur_column lx1))
                  ("" +:+ Char.str char)) as Hle.
    rewrite Hgo in Hle. exact Hle. }
  destruct (Ascii.eqb char Char.quote).
  { unfold read_string.
    destruct (read_string_go _ _ _ _) as [e|[string_value lx']] eqn:Hgo; [done|].
    apply IH, Hnext. apply read_string_go_remaining in Hgo.
    fold (remaining (advance lx1)) in Hgo. lia. }
  destruct (Char.isalpha char || Ascii.eqb char "_") eqn:Hletter.
  { unfold read_identifier.
    destruct (read_identifier_go _ _ _ _) as [identifier lx'] eqn:Hgo.
    apply IH, Hnext.
    rewrite Hr1 in Hgo. simpl in Hgo.
    assert (Char.isalnum char || Ascii.eqb char "_" = true) as Hcond.
    { unfold Char.isalnum. apply orb_prop in Hletter as [->| ->]; [done|].
      apply orb_true_r. }
    rewrite Hcond in Hgo.
    pose proof (read_identifier_go_remaining r1 (cur_line lx1) (S (cur_column lx1))
                  ("" +:+ Char.str char)) as Hle.
    rewrite Hgo in Hle. exact Hle. }
  destruct (delimiters char); [by apply IH, Hnext|].
  case_match; [|done].
  unfold read_operator.
  destruct (operators (Char.str char +:+ from_option Char.str "" (peek_char lx1))).
  { apply IH, Hnext. rewrite advance_remaining. lia. }
  destruct (operators (Char.str char)); [|done].
  by apply IH, Hnext.
Qed.

Lemma tokenize_total text : tokenize text <> Exhausted.
Proof. apply tokenize_loop_total. unfold remaining. simpl. lia. Qed.

Example tokenize_let :
  tokenize "let x = 10;" =
  Tokens [mkToken LET "let" 1 1; mkToken IDENTIFIER "x" 1 5;
          mkToken ASSIGN "=" 1 7; mkToken NUMBER "10" 1 9;
          mkToken SEMICOLON ";" 1 11; mkToken EOF "" 1 12].
Proof. vm_compute. reflexivity. Qed.

Example tokenize_comment :
  tokenize ("// note" +:+ Char.str Char.newline +:+ "a<=b") =
  Tokens [mkToken NEWLINE (Char.str Char.newline) 1 8;
          mkToken IDENTIFIER "a" 2 1; mkToken LESS_EQUAL "<=" 2 2;
          mkToken IDENTIFIER "b" 2 4; mkToken EOF "" 2 5].
Proof. vm_compute. reflexivity. Qed.

Example tokenize_lone_ampersand :
  tokenize "a & b" = Raise (SyntaxError "Unknown operator: & at line 1, column 3").
Proof. vm_compute. reflexivity. Qed.

End LexerFacts.

(** ** Environments: who defines a name, and what assignment changes *)
Module EnvironmentFacts.
Import Interp.

Section Facts.
Context `{HostFloat}.

Lemma heap_lookup_lt h e env :
  heap_lookup h e = Some env -> e < List.length h.
Proof.
  induction h as [|env' older IH]; simpl; [discriminate|].
  destruct (decide (e = List.length older)); [lia|].
  intros Hl. apply IH in Hl. lia.
Qed.

Lemma heap_lookup_ge h e : List.length h <= e -> heap_lookup h e = None.
Proof.
  intros Hle. destruct (heap_lookup h e) eqn:Hl; [|reflexivity].
  apply heap_lookup_lt in Hl. lia.
Qed.

Lemma binding_cons_older env older e name :
  e <> List.length older ->
  binding (env :: older) e name = binding older e name.
Proof. intros Hne. unfold binding. simpl. rewrite decide_False by done. done. Qed.

Lemma binding_cons_top env older name :
  binding (env :: older) (List.length older) name = variables env !! name.
Proof. unfold binding. simpl. rewrite decide_True by done. done. Qed.

Lemma parent_of_cons_older env older e :
  e <> List.length older -> parent_of (env :: older) e = parent_of older e.
Proof. intros Hne. unfold parent_of. simpl. rewrite decide_False by done. done. Qed.

Lemma defining_scope_lt h e name d :
  defining_scope h e name = Some d -> d < List.length h.
Proof.
  revert e. induction h as [|env older IH]; intros e; simpl; [discriminate|].
  destruct (decide (e = List.length older)) as [->|Hne].
  - destruct (variables env !! name); [intros [= <-]; lia|].
    destruct (parent env) as [p|]; [|discriminate].
    intros Hd. apply IH in Hd. lia.
  - intros Hd. apply IH in Hd. lia.
Qed.

(** The scope found defines the name, and it is the first on the chain to
    do so: the environments passed on the way do not. *)
Lemma defining_scope_defines h e name d :
  defining_scope h e name = Some d -> is_Some (binding h d name).
Proof.
  revert e. induction h as [|env older IH]; intros e; simpl; [discriminate|].
  destruct (decide (e = List.length older)) as [->|Hne].
  - destruct (variables env !! name) as [v|] eqn:Hv.
    + intros [= <-]. rewrite binding_cons_top, Hv. eauto.
    + destruct (parent env) as [p|]; [|discriminate].
      intros Hd. pose proof (defining_scope_lt _ _ _ _ Hd).
      rewrite binding_cons_older by lia. eauto.
  - intros Hd. pose proof (defining_scope_lt _ _ _ _ Hd).
    rewrite binding_cons_older by lia. eauto.
Qed.

Lemma defining_scope_innermost h e name d :
  defining_scope h e name = Some d -> d <> e -> binding h e name = None.
Proof.
  revert e. induction h as [|env older IH]; intros e; simpl; [discriminate|].
  destruct (decide (e = List.length older)) as [->|Hne].
  - destruct (variables env !! name) as [v|] eqn:Hv.
    + intros [= <-]. done.
    + intros _ _. rewrite binding_cons_top. done.
  - intros Hd Hde. rewrite binding_cons_older by done. eauto.
Qed.

(** [get] returns the binding in the defining scope. *)
Lemma get_defining_scope h e name :
  get h e name = d ← defining_scope h e name; binding h d name.
Proof.
  revert e. induction h as [|env older IH]; intros e; simpl; [done|].
  destruct (decide (e = List.length older)) as [->|Hne].
  - destruct (variables env !! name) as [v|] eqn:Hv; simpl.
    + rewrite binding_cons_top. done.
    + destruct (parent env) as [p|]; [|done].
      rewrite IH. destruct (defining_scope older p name) as [d|] eqn:Hd; [|done].
      simpl. pose proof (defining_scope_lt _ _ _ _ Hd).
      rewrite binding_cons_older by lia. done.
  - rewrite IH. destruct (defining_scope older e name) as [d|] eqn:Hd; [|done].
    simpl. pose proof (defining_scope_lt _ _ _ _ Hd).
    rewrite binding_cons_older by lia. done.
Qed.

(** What [assign] does, by the scope that defines the name: it fails when
    there is none; otherwise the heap it returns has the same environments
    with the same parents, and the same bindings but for the one of the
    name in its defining scope. *)
Lemma assign_spec h e name value :
  match defining_scope h e name with
  | Some d =>
      exists h',
        assign h e name value = Some h' /\ rebinds h h' d name value
  | None => assign h e name value = None
  end.
Proof.
  unfold rebinds.
  revert e. induction h as [|env older IH]; intros e; simpl; [done|].
  destruct (decide (e = List.length older)) as [->|Hne].
  - destruct (variables env !! name) as [v|] eqn:Hv.
    + eexists. split; [done|]. split; [done|]. split.
      * intros e'. unfold parent_of. simpl.
        destruct (decide (e' = List.length older)); done.
      * intros e' x. unfold binding. simpl.
        destruct (decide (e' = List.length older)) as [->|Hne'].
        -- simpl. destruct (decide (x = name)) as [->|Hx].
           ++ rewrite decide_True by done. apply lookup_insert_eq.
           ++ rewrite decide_False by tauto. by apply lookup_insert_ne.
        -- rewrite decide_False by tauto. done.
    + destruct (parent env) as [p|]; [|done].
      specialize (IH p).
      destruct (defining_scope older p name) as [d|] eqn:Hd.
      * destruct IH as (older' & -> & Hlen & Hpar & Hbind).
        pose proof (defining_scope_lt _ _ _ _ Hd) as Hlt.
        eexists. split; [done|]. split; [simpl; lia|]. split.
        -- intros e'. unfold parent_of in *. simpl. rewrite Hlen.
           destruct (decide (e' = List.length older)); [done|apply Hpar].
        -- intros e' x. unfold binding in *. simpl. rewrite Hlen.
           destruct (decide (e' = List.length older)) as [->|Hne'].
           ++ rewrite decide_False by lia. done.
           ++ apply Hbind.
      * rewrite IH. done.
  - specialize (IH e).
    destruct (defining_scope older e name) as [d|] eqn:Hd.
    + destruct IH as (older' & -> & Hlen & Hpar & Hbind).
      pose proof (defining_scope_lt _ _ _ _ Hd) as Hlt.
      eexists. split; [done|]. split; [simpl; lia|]. split.
      * intros e'. unfold parent_of in *. simpl. rewrite Hlen.
        destruct (decide (e' = List.length older)); [done|apply Hpar].
      * intros e' x. unfold binding in *. simpl. rewrite Hlen.
        destruct (decide (e' = List.length older)) as [->|Hne'].
        -- rewrite decide_False by lia. done.
        -- apply Hbind.
    + rewrite IH. done.
Qed.

Lemma scope_chain_lt h e : Forall (fun d => d < List.length h) (scope_chain h e).
Proof.
  revert e. induction h as [|env older IH]; intros e; simpl; [constructor|].
  destruct (decide (e = List.length older)) as [->|Hne].
  - constructor; [lia|].
    destruct (parent env) as [p|]; [|constructor].
    eapply Forall_impl; [apply IH|]. simpl. lia.
  - eapply Forall_impl; [apply IH|]. simpl. lia.
Qed.

Lemma filter_defines_older env older name l :
  Forall (fun d => d < List.length older) l ->
  filter (fun d => is_Some (binding (env :: older) d name)) l
  = filter (fun d => is_Some (binding older d name)) l.
Proof.
  induction 1 as [|d l Hd Hl IH]; [done|].
  rewrite !filter_cons, IH, binding_cons_older by lia. done.
Qed.

(** The defining scope is the first environment of the parent chain that
    binds the name. *)
Lemma defining_scope_first h e name :
  defining_scope h e name
  = head (filter (fun d => is_Some (binding h d name)) (scope_chain h e)).
Proof.
  revert e. induction h as [|env older IH]; intros e; simpl; [done|].
  destruct (decide (e = List.length older)) as [->|Hne].
  - rewrite filter_cons, binding_cons_top.
    destruct (variables env !! name) as [v|] eqn:Hv.
    + rewrite decide_True by eauto. done.
    + rewrite decide_False by (by intros [? ?]).
      destruct (parent env) as [p|]; [|done].
      rewrite filter_defines_older by apply scope_chain_lt. apply IH.
  - rewrite filter_defines_older by apply scope_chain_lt. apply IH.
Qed.

Lemma assign_length h e name value h' :
  assign h e name value = Some h' -> List.length h' = List.length h.
Proof.
  revert e h'. induction h as [|env older IH]; intros e h'; simpl; [done|].
  destruct (decide (e = List.length older)) as [->|Hne].
  - destruct (variables env !! name).
    + intros [= <-]. done.
    + destruct (parent env) as [p|]; [|done].
      destruct (assign older p name value) as [older'|] eqn:Ha; [|done].
      intros [= <-]. simpl. by rewrite (IH _ _ Ha).
  - destruct (assign older e name value) as [older'|] eqn:Ha; [|done].
    intros [= <-]. simpl. by rewrite (IH _ _ Ha).
Qed.

(** After an assignment the name reads as the value assigned. *)
Lemma get_after_assign h e name value h' :
  assign h e name value = Some h' -> get h' e name = Some value.
Proof.
  revert e h'. induction h as [|env older IH]; intros e h'; simpl; [done|].
  destruct (decide (e = List.length older)) as [->|Hne].
  - destruct (variables env !! name) as [v|] eqn:Hv.
    + intros [= <-]. simpl. rewrite decide_True by done.
      by rewrite lookup_insert_eq.
    + destruct (parent env) as [p|] eqn:Hp; [|done].
      destruct (assign older p name value) as [older'|] eqn:Ha; [|done].
      intros [= <-]. simpl. rewrite (assign_length _ _ _ _ _ Ha).
      rewrite decide_True by done. rewrite Hv, Hp. eauto.
  - destruct (assign older e name value) as [older'|] eqn:Ha; [|done].
    intros [= <-]. simpl. rewrite (assign_length _ _ _ _ _ Ha).
    rewrite decide_False by done. eauto.
Qed.

(** *** [define] and the loop that binds the parameters *)

Lemma define_length h e name value :
  List.length (define h e name value) = List.length h.
Proof.
  induction h as [|env older IH]; simpl; [done|].
  destruct (decide (e = List.length older)); simpl; [done|by rewrite IH].
Qed.

Lemma define_parent_of h e name value e' :
  parent_of (define h e name value) e' = parent_of h e'.
Proof.
  unfold parent_of. induction h as [|env older IH]; simpl; [done|].
  destruct (decide (e = List.length older)) as [->|Hne]; simpl.
  - destruct (decide (e' = List.length older)); done.
  - rewrite define_length. destruct (decide (e' = List.length older)); [done|apply IH].
Qed.

Lemma define_binding h e name value e' x :
  e < List.length h ->
  binding (define h e name value) e' x
  = if decide (e' = e /\ x = name) then Some value else binding h e' x.
Proof.
  unfold binding. induction h as [|env older IH]; simpl; [lia|]. intros Hlt.
  destruct (decide (e = List.length older)) as [->|Hne]; simpl.
  - destruct (decide (e' = List.length older)) as [->|Hne']; simpl.
    + destruct (decide (x = name)) as [->|Hx].
      * rewrite decide_True by done. apply lookup_insert_eq.
      * rewrite decide_False by tauto. by apply lookup_insert_ne.
    + rewrite decide_False by tauto. done.
  - rewrite define_length.
    destruct (decide (e' = List.length older)) as [->|Hne']; simpl.
    + rewrite decide_False by (intros [? ?]; lia). done.
    + apply IH. lia.
Qed.

Lemma heap_lookup_define_other h e name value e' :
  e' <> e -> heap_lookup (define h e name value) e' = heap_lookup h e'.
Proof.
  intros Hne. induction h as [|env older IH]; simpl; [reflexivity|].
  destruct (decide (e = List.length older)) as [->|Hne']; simpl.
  - rewrite !decide_False by done. done.
  - rewrite define_length. destruct (decide (e' = List.length older)); done.
Qed.


Lemma bind_parameters_length h env i parameters arguments :
  List.length (bind_parameters h env i parameters arguments) = List.length h.
Proof.
  revert h i. induction parameters as [|param others IH]; intros h i; simpl; [done|].
  rewrite IH. destruct (decide (i < List.length arguments)); apply define_length.
Qed.

Lemma bind_parameters_parent_of h env i parameters arguments e :
  parent_of (bind_parameters h env i parameters arguments) e = parent_of h e.
Proof.
  revert h i. induction parameters as [|param others IH]; intros h i; simpl; [done|].
  rewrite IH. destruct (decide (i < List.length arguments)); apply define_parent_of.
Qed.

Lemma bind_parameters_other h env i parameters arguments e :
  e <> env ->
  heap_lookup (bind_parameters h env i parameters arguments) e = heap_lookup h e.
Proof.
  intros Hne. revert h i.
  induction parameters as [|param others IH]; intros h i; simpl; [done|].
  rewrite IH. destruct (decide (i < List.length arguments));
    by apply heap_lookup_define_other.
Qed.




End Facts.
End EnvironmentFacts.

(** ** The parser at a token *)
Module ParserFacts.
Import Lexer Ast.

Section Facts.
Context `{HostFloat}.

(** [check] and [match] at a token that is not the end of the input. *)
Lemma check_at (p : Parser.Parser) (t : Token) (token_type : TokenType) :
  Parser.tokens p !! Parser.current p = Some t ->
  type t <> EOF ->
  Parser.check token_type p = Parser.Returned (bool_decide (type t = token_type)) p.
Proof.
  intros Ht Hne.
  cbv beta iota delta [Parser.check Parser.bind Parser.is_at_end Parser.peek
                         Parser.token_at Parser.ret].
  rewrite Ht. rewrite bool_decide_eq_false_2 by done. rewrite Ht. reflexivity.
Qed.

Lemma match_miss (p : Parser.Parser) (t : Token) (token_types : list TokenType) :
  Parser.tokens p !! Parser.current p = Some t ->
  type t <> EOF ->
  type t ∉ token_types ->
  Parser.match_ token_types p = Parser.Returned false p.
Proof.
  intros Ht Hne. induction token_types as [|ty others IH]; intros Hnot; [done|].
  apply not_elem_of_cons in Hnot as [Hty Hnot]. simpl.
  unfold Parser.bind. rewrite (check_at p t) by done.
  rewrite bool_decide_eq_false_2 by done. by apply IH.
Qed.

(** [primary] passes over a [BOOLEAN] token: it tests for the kinds [TRUE]
    and [FALSE], which the lexer never emits, and ends at its last line. *)
Lemma primary_rejects_boolean (expression : Parser.M Expression)
    (p : Parser.Parser) (t : Token) :
  Parser.tokens p !! Parser.current p = Some t ->
  type t = BOOLEAN ->
  Parser.primary expression p
  = Parser.Raised
      (Parser.ParseError ("Unexpected token BOOLEAN at line " +:+ pretty (line t)))
      p.
Proof.
  intros Ht Hty.
  assert (forall ty, ty <> BOOLEAN -> Parser.match_ [ty] p = Parser.Returned false p)
    as Hmiss.
  { intros ty Hne. apply (match_miss p t); [done|by rewrite Hty|].
    rewrite Hty. intros Hin. apply list_elem_of_singleton in Hin. done. }
  unfold Parser.primary, Parser.bind.
  rewrite !Hmiss by discriminate.
  unfold Parser.peek, Parser.token_at. rewrite Ht, Hty. reflexivity.
Qed.

(** [read_identifier] never gives the kinds [TRUE] and [FALSE]. *)
Lemma read_identifier_not_TRUE_FALSE (lx : Lexer) :
  type (read_identifier lx).1 <> TRUE /\ type (read_identifier lx).1 <> FALSE.
Proof.
  unfold read_identifier.
  destruct (read_identifier_go _ _ _ _) as [identifier lx']. simpl.
  destruct (default IDENTIFIER (keywords identifier)); simpl; split; discriminate.
Qed.

(** Two more inputs that end in an exception of the host: a digit that
    is not a decimal digit, and a backslash at the end of the text. *)
Example superscript_two_is_a_ValueError :
  exists p,
    Parser.parse_source Inputs.superscript_two_statement
    = inr (Parser.Raised (Parser.HostError ValueError) p).
Proof. eexists. vm_compute. reflexivity. Qed.

Example unfinished_escape_is_a_TypeError :
  tokenize Inputs.unfinished_escape = Raise TypeError.
Proof. vm_compute. reflexivity. Qed.

End Facts.
End ParserFacts.

(** ** The scenarios of the specification, run *)
Module Scenarios.
Import Interp Inputs.

Section OnAnyHost.
Context `{HostObjects}.

Example for_loop_sum_prints_10 :
  Pipeline.output (Pipeline.run_source 40 for_loop_sum) = Some ["10"].
Proof. vm_compute. reflexivity. Qed.

Example division_by_zero_is_reported :
  Pipeline.verdict (Pipeline.run_source 20 division_by_zero) = Some false
  /\ Pipeline.errors (Pipeline.run_source 20 division_by_zero)
     = Some ["Runtime Error: Division by zero"].
Proof. split; vm_compute; reflexivity. Qed.

Example shadowing_prints_2_then_1 :
  Pipeline.output (Pipeline.run_source 20 shadowing) = Some ["2"; "1"].
Proof. vm_compute. reflexivity. Qed.

Example assignment_in_block_reaches_outer_scope :
  Pipeline.output (Pipeline.run_source 20 assignment_in_block) = Some ["2"].
Proof. vm_compute. reflexivity. Qed.

(** The error raised two blocks deep is reported, and the current
    environment is the globals again. *)
Example error_in_block_restores_globals :
  Pipeline.errors (Pipeline.run_source 20 error_in_block)
  = Some ["Runtime Error: Undefined variable 'z'"]
  /\ match Pipeline.run_source 20 error_in_block with
     | Pipeline.Ran (Returned false st) =>
         environment st = globals st /\ List.length (heap st) = 3
     | _ => False
     end.
Proof. split; vm_compute; [reflexivity|split; reflexivity]. Qed.

(** The return signal leaves two blocks and the call; back at top level
    the current environment is the globals. *)
Example return_through_blocks_restores_globals :
  Pipeline.output (Pipeline.run_source 20 return_through_blocks) = Some ["3"; "3"]
  /\ match Pipeline.run_source 20 return_through_blocks with
     | Pipeline.Ran (Returned true st) => environment st = globals st
     | _ => False
     end.
Proof. split; vm_compute; reflexivity. Qed.

End OnAnyHost.

(** With the binary64 numbers: 7 / 2 is 3.5. *)
Example mixed_arithmetic_prints :
  Pipeline.output (Pipeline.run_source 20 mixed_arithmetic)
  = Some ["3"; "x=3"; "3.5"; "1"].
Proof. vm_compute. reflexivity. Qed.

End Scenarios.

(** ** The claims of the specification *)
Module Claims.
Import Lexer Ast Interp EnvironmentFacts ParserFacts Inputs.

(** *** On any host *)
Section OnAnyHost.
Context `{HostObjects}.

(** C7: an assignment [x = v] sets the binding of [x] in the innermost
    environment of the parent chain that defines [x], the first of the
    chain to bind it, and adds no binding anywhere: the heap afterwards has
    the same environments, parents and bindings but for that one, and [x]
    reads as [v]. When no environment of the chain defines [x], it raises
    the KSRuntimeError [Undefined variable 'x'] and the heap is the one the
    evaluation of [v] left. *)
Theorem C7_assignment_rebinds_defining_scope
    (evaluate : Expression -> M Value) (target : string) (value : Expression)
    (st st1 : Interpreter) (v : Value) :
  evaluate value st = Returned v st1 ->
  match head (filter (fun d => is_Some (binding (heap st1) d target))
                     (scope_chain (heap st1) (environment st1))) with
  | Some d =>
      exists h',
        visit_assignment evaluate target value st = Returned v (with_heap h' st1)
        /\ rebinds (heap st1) h' d target v
        /\ get h' (environment st1) target = Some v
  | None =>
      visit_assignment evaluate target value st
      = Raised (KSRuntimeError ("Undefined variable '" +:+ target +:+ "'")) st1
  end.
Proof.
  intros Hv. unfold visit_assignment, bind. rewrite Hv.
  rewrite <- defining_scope_first.
  pose proof (assign_spec (heap st1) (environment st1) target v) as Hspec.
  destruct (defining_scope (heap st1) (environment st1) target) as [d|] eqn:Hd.
  - destruct Hspec as (h' & Ha & Hre).
    exists h'. rewrite Ha. split; [done|]. split; [done|].
    by apply get_after_assign with (h := heap st1).
  - rewrite Hspec. done.
Qed.

(** C9: when the execution of a block comes to an end, by returning, by a
    runtime error, by a return signal or by an error of the host, the
    current environment of the interpreter is the one that was current
    before the block. The statements of the block run in a new environment,
    a child of that one, which is not the current environment afterwards. *)
Theorem C9_block_restores_environment
    (execute : Statement -> M unit) (statements : list Statement)
    (st : Interpreter) :
  match visit_block_statement execute statements st with
  | Returned _ st' => environment st' = environment st
  | Raised _ st' => environment st' = environment st
  | Exhausted => True
  end
  /\ (forall fuel,
       match Interp.execute fuel (BlockStatement statements) st with
       | Returned _ st' => environment st' = environment st
       | Raised _ st' => environment st' = environment st
       | Exhausted => True
       end)
  /\ exists st_in,
       heap_lookup (heap st) (environment st_in) = None
       /\ heap_lookup (heap st_in) (environment st_in)
          = Some (mkEnvironment ∅ (Some (environment st)))
       /\ visit_block_statement execute statements st
          = restoring (environment st) (execute_all execute statements) st_in.
Proof.
  assert (forall execute,
            match visit_block_statement execute statements st with
            | Returned _ st' => environment st' = environment st
            | Raised _ st' => environment st' = environment st
            | Exhausted => True
            end) as Hrestored.
  { intros execute'. unfold visit_block_statement, execute_block, restoring.
    simpl. destruct (execute_all execute' statements _); simpl; done. }
  split; [apply Hrestored|]. split.
  - intros [|fuel]; simpl; [done|apply Hrestored].
  - exists (with_environment (List.length (heap st))
              (with_heap (mkEnvironment ∅ (Some (environment st)) :: heap st) st)).
    simpl. split; [by apply heap_lookup_ge|]. split.
    + rewrite decide_True by done. done.
    + reflexivity.
Qed.


(** C8: a function declaration binds its name, in the current environment,
    to a function value whose captured environment is the current
    environment; a call runs the body in a new environment whose parent is
    the captured one, and leaves the other environments as they are before
    the body runs. The function holds a reference to its environment, so
    what earlier calls assigned there is read by later calls: the closure
    counter prints 1, 2 and 3. *)
Theorem C8_closure_is_declaration_environment :
  (forall name parameters body st,
     environment st < List.length (heap st) ->
     exists st',
       visit_function_declaration name parameters body st = Returned tt st'
       /\ environment st' = environment st
       /\ binding (heap st') (environment st) name
          = Some (VFunction (next_object st) name parameters body (environment st)))
  /\ (forall execute parameters body closure arguments st,
       exists st_in,
         heap_lookup (heap st) (environment st_in) = None
         /\ parent_of (heap st_in) (environment st_in) = Some closure
         /\ (forall e, e <> environment st_in ->
                       heap_lookup (heap st_in) e = heap_lookup (heap st) e)
         /\ KSFunction_call execute parameters body closure arguments st
            = match restoring (environment st) (execute_all execute body) st_in with
              | Returned _ st' => Returned VNone st'
              | Raised (ReturnValue value) st' => Returned value st'
              | Raised s st' => Raised s st'
              | Exhausted => Exhausted
              end)
  /\ Pipeline.output (Pipeline.run_source 20 closure_counter)
     = Some ["1"; "2"; "3"].
Proof.
  split; [|split].
  - intros name parameters body st Hlt. eexists. split; [reflexivity|].
    split; [reflexivity|]. simpl.
    rewrite define_binding by done. rewrite decide_True by done. done.
  - intros execute parameters body closure arguments st.
    exists (with_environment (List.length (heap st))
              (with_heap (bind_parameters
                            (mkEnvironment ∅ (Some closure) :: heap st)
                            (List.length (heap st)) 0 parameters arguments) st)).
    simpl. split; [by apply heap_lookup_ge|]. split; [|split].
    + rewrite bind_parameters_parent_of. unfold parent_of. simpl.
      rewrite decide_True by done. done.
    + intros e Hne. rewrite bind_parameters_other by done. simpl.
      rewrite decide_False by done. done.
    + reflexivity.
  - vm_compute. reflexivity.
Qed.

(** The two operands by themselves, on any host. *)
Lemma one_equals_two_is_false :
  evaluate 2 one_equals_two after_let_x_0 = Returned (VBool false) after_let_x_0.
Proof. vm_compute. reflexivity. Qed.

Lemma assign_one_to_x_assigns :
  evaluate 2 assign_one_to_x after_let_x_0 = Returned (VInt 1) after_x_is_1.
Proof. vm_compute. reflexivity. Qed.

(** On any host, [(1 == 2) && (x = 1)] leaves [x] at 1. *)
Lemma conjunction_runs_right_operand :
  match evaluate 3 (BinaryExpression one_equals_two "&&" assign_one_to_x)
                 after_let_x_0 with
  | Returned v st => Some (v, get (heap st) 0 "x")
  | _ => None
  end = Some (VBool false, Some (VInt 1)).
Proof. vm_compute. reflexivity. Qed.


(** C2, amended: [l && r] and [l || r] evaluate both operands, the left
    one first, whatever the value of the left one. When both return, the
    result is the boolean of the truthiness of the two values, false under
    [&&] for a falsy left and true under [||] for a truthy left, in the
    state the right operand left; what the right operand raises is raised
    by the expression. *)
Theorem C2_logical_operators_evaluate_both
    (evaluate : Expression -> M Value) (l r : Expression)
    (st st1 st2 : Interpreter) (lv : Value) :
  evaluate l st = Returned lv st1 ->
  (forall rv,
     evaluate r st1 = Returned rv st2 ->
     visit_binary evaluate l "&&" r st
     = Returned (VBool (is_truthy lv && is_truthy rv)) st2
     /\ visit_binary evaluate l "||" r st
        = Returned (VBool (is_truthy lv || is_truthy rv)) st2)
  /\ (forall s,
       evaluate r st1 = Raised s st2 ->
       visit_binary evaluate l "&&" r st = Raised s st2
       /\ visit_binary evaluate l "||" r st = Raised s st2).
Proof.
  intros Hl. split.
  - intros rv Hr. unfold visit_binary, bind. rewrite Hl, Hr. split; reflexivity.
  - intros s Hr. unfold visit_binary, bind. rewrite Hl, Hr. split; reflexivity.
Qed.

(** The copies of a string when there is none, one, or nothing to copy. *)
Lemma repeat_string_none s n : (n < 1)%Z -> repeat_string s (Z.to_nat n) = "".
Proof. intros Hn. by replace (Z.to_nat n) with 0 by lia. Qed.

Lemma repeat_string_one s : repeat_string s 1 = s.
Proof.
  cbn [repeat_string]. induction s as [|c s IH]; [done|].
  change (String c s +:+ "") with (String c (s +:+ "")). by rewrite IH.
Qed.

Lemma repeat_string_empty n : repeat_string "" n = "".
Proof. induction n as [|n IH]; [done|]. cbn [repeat_string]. by rewrite IH. Qed.

(** The repetition of the host by cases: the two overflows, the results,
    and the lack of memory. *)
Lemma str_repeat_cases s n :
  let len := Z.of_nat (String.length s) in
  str_repeat s n
  = if decide (n < - 2 ^ 63 \/ 2 ^ 63 <= n \/ (2 <= n /\ 2 ^ 63 <= len * n))%Z
    then inl OverflowError
    else if decide (n <= 1 \/ len = 0 \/ string_fits (len * n) = true)%Z
         then inr (repeat_string s (Z.to_nat n))
         else inl MemoryError.
Proof.
  intros len. unfold str_repeat, index_max. fold len.
  assert (0 <= len)%Z as Hlen by (unfold len; lia).
  remember (2 ^ 63)%Z as B eqn:HB.
  assert (2 < B)%Z as HB2 by (subst B; reflexivity).
  clear HB.
  assert (forall m, 0 < m -> (B - 1) / m < len <-> B <= len * m)%Z as Hdiv.
  { intros m Hm. split.
    - intros Hlt. destruct (Z_lt_le_dec (len * m) B) as [Hsmall|]; [|done].
      exfalso. assert (len <= (B - 1) / m)%Z; [|lia].
      apply Z.div_le_lower_bound; lia.
    - intros Hge. apply Z.div_lt_upper_bound; lia. }
  match goal with |- context [Z.ltb n ?x] => destruct (Z.ltb_spec n x) end;
    cbn [orb].
  { by rewrite decide_True by lia. }
  match goal with |- context [Z.ltb ?x n] => destruct (Z.ltb_spec x n) end.
  { by rewrite decide_True by lia. }
  destruct (Z.ltb_spec n 1).
  { rewrite decide_False by lia. rewrite decide_True by lia.
    by rewrite repeat_string_none. }
  destruct (Z.eqb_spec n 1) as [->|Hn1].
  { rewrite decide_False by lia. rewrite decide_True by lia.
    change (Z.to_nat 1) with 1. by rewrite repeat_string_one. }
  match goal with |- context [Z.ltb ?x len] => destruct (Z.ltb_spec x len) as [Hlong|Hshort] end.
  { apply Hdiv in Hlong; [|lia]. by rewrite decide_True by lia. }
  assert (len * n < B)%Z as Hfits.
  { destruct (Z_lt_le_dec (len * n) B) as [|Hge]; [done|].
    apply Hdiv in Hge; lia. }
  rewrite decide_False by lia.
  destruct (Z.eqb_spec (len * n) 0) as [Hzero|Hsome].
  { assert (len = 0)%Z as Hempty by nia.
    rewrite decide_True by (right; by left).
    destruct s; [|unfold len in Hempty; simpl in Hempty; lia].
    by rewrite repeat_string_empty. }
  destruct (string_fits (len * n)) eqn:Hroom.
  - by rewrite decide_True by (right; by right).
  - rewrite decide_False; [done|]. intros [?|[?|?]]; [lia|nia|done].
Qed.

(** C6, amended: for [-], [*] and [%] the evaluator applies the operator
    of the host to the two values and raises no KSRuntimeError of its own.
    Booleans count as the integers 1 and 0. Under [-], an operand that is
    null, a string or a function makes the host raise TypeError. Under [*],
    a string with an integer or a boolean, in either order, is the
    repetition of the host: an OverflowError when the count, or the length
    of a result of two copies or more, does not fit the index type of the
    host; else the copies of the string, none for a count below 1, when
    the host has the memory for them, and a MemoryError when it has not.
    Any other pair that is not a pair of numbers is a TypeError of the
    host. Under [%], a string on the left is formatted by the host; any
    other pair that is not a pair of numbers is a TypeError of the host. *)
Theorem C6_arithmetic_is_left_to_the_host
    (evaluate : Expression -> M Value) (l r : Expression)
    (st st1 st2 : Interpreter) (lv rv : Value) :
  evaluate l st = Returned lv st1 ->
  evaluate r st1 = Returned rv st2 ->
  (forall operator msg st',
     operator = "-" \/ operator = "*" \/ operator = "%" ->
     visit_binary evaluate l operator r st <> Raised (KSRuntimeError msg) st')
  /\ (as_number lv = None \/ as_number rv = None ->
      visit_binary evaluate l "-" r st = Raised (HostError TypeError) st2)
  /\ (forall s n,
       (lv = VStr s /\ as_index rv = Some n)
       \/ (as_index lv = Some n /\ rv = VStr s) ->
       let len := Z.of_nat (String.length s) in
       (n < - 2 ^ 63 \/ 2 ^ 63 <= n \/ (2 <= n /\ 2 ^ 63 <= len * n) ->
        visit_binary evaluate l "*" r st = Raised (HostError OverflowError) st2)%Z
       /\ (- 2 ^ 63 <= n < 2 ^ 63 ->
           n <= 1 \/ len = 0
           \/ (len * n < 2 ^ 63 /\ string_fits (len * n) = true) ->
           visit_binary evaluate l "*" r st
           = Returned (VStr (repeat_string s (Z.to_nat n))) st2)%Z
       /\ (2 <= n < 2 ^ 63 -> 1 <= len -> len * n < 2 ^ 63 ->
           string_fits (len * n) = false ->
           visit_binary evaluate l "*" r st = Raised (HostError MemoryError) st2)%Z)
  /\ (as_number lv = None \/ as_number rv = None ->
      (forall s, lv = VStr s -> as_index rv = None) ->
      (forall s, rv = VStr s -> as_index lv = None) ->
      visit_binary evaluate l "*" r st = Raised (HostError TypeError) st2)
  /\ (forall s,
       lv = VStr s ->
       visit_binary evaluate l "%" r st
       = match str_mod s rv with
         | inl e => Raised (HostError e) st2
         | inr t => Returned (VStr t) st2
         end)
  /\ ((forall s, lv <> VStr s) ->
      as_number lv = None \/ as_number rv = None ->
      visit_binary evaluate l "%" r st = Raised (HostError TypeError) st2).
Proof.
  intros Hl Hr.
  assert (forall operator,
            visit_binary evaluate l operator r st
            = binary_operation operator lv rv st2) as Hop.
  { intros operator. unfold visit_binary, bind. rewrite Hl, Hr. done. }
  split; [|split; [|split; [|split; [|split]]]].
  - intros operator msg st' [-> | [-> | ->]]; rewrite Hop; unfold binary_operation; simpl; unfold host, raise, ret.
    + destruct (py_sub lv rv); discriminate.
    + destruct (py_mul lv rv); discriminate.
    + destruct (py_mod lv rv); discriminate.
  - intros Hnot. rewrite Hop. unfold binary_operation, host. simpl. unfold py_sub.
    destruct Hnot as [-> | Hrv]; [done|].
    rewrite Hrv. destruct (as_number lv); done.
  - intros t n Hshape len.
    assert (visit_binary evaluate l "*" r st = host (str_mul t n) st2) as ->.
    { rewrite Hop. unfold binary_operation. simpl. unfold py_mul.
      destruct Hshape as [[-> Hn] | [Hn ->]].
      - simpl. by rewrite Hn.
      - destruct lv; try discriminate Hn; simpl in *; by injection Hn as <-. }
    unfold str_mul. rewrite str_repeat_cases. fold len.
    split; [|split].
    + intros Hover. by rewrite decide_True.
    + intros Hn Hroom. rewrite decide_False by lia.
      rewrite decide_True; [done|]. destruct Hroom as [?|[?|[_ ?]]]; tauto.
    + intros Hn Hs Hfits Hroom. rewrite decide_False by lia.
      rewrite decide_False; [done|].
      intros [?|[?|Htrue]]; [lia|lia|]. by rewrite Hroom in Htrue.
  - intros Hnot Hls Hrs. rewrite Hop. unfold binary_operation, host. simpl. unfold py_mul.
    destruct lv, rv; simpl in *;
      try done; try (by destruct Hnot);
      try (by specialize (Hls _ eq_refl)); try (by specialize (Hrs _ eq_refl)).
  - intros s ->. rewrite Hop. unfold binary_operation, host. simpl.
    destruct (str_mod s rv); done.
  - intros Hls Hnot. rewrite Hop. unfold binary_operation, host. simpl. unfold py_mod.
    destruct lv; try (by destruct (Hls _ eq_refl)); simpl in *;
      destruct Hnot as [Hn|Hn]; try discriminate Hn; try rewrite Hn; done.
Qed.

(** C1, on the code: the lexer gives [true] and [false] the kind
    [BOOLEAN], and the parser, which looks for the kinds [TRUE] and
    [FALSE], rejects the token where a primary expression is expected:
    [gorun(true);] and [let b = false;] end in a ParseError. *)
Theorem C1_boolean_literal_is_rejected :
  tokenize "gorun(true);"
  = Tokens [mkToken GORUN "gorun" 1 1; mkToken LEFT_PAREN "(" 1 6;
            mkToken BOOLEAN "true" 1 7; mkToken RIGHT_PAREN ")" 1 11;
            mkToken SEMICOLON ";" 1 12; mkToken EOF "" 1 13]
  /\ (exists p,
        Parser.parse_source "gorun(true);"
        = inr (Parser.Raised
                 (Parser.ParseError "Unexpected token BOOLEAN at line 1") p))
  /\ (exists p,
        Parser.parse_source "let b = false;"
        = inr (Parser.Raised
                 (Parser.ParseError "Unexpected token BOOLEAN at line 1") p)).
Proof.
  split; [vm_compute; reflexivity|].
  split; eexists; vm_compute; reflexivity.
Qed.

(** C3, on the code: [+] with a string operand joins the [str] of the host
    of both values, not their [stringify]: a boolean contributes [True] or
    [False], null contributes [None] and a floating point number its
    [repr] with the dot and zero kept, where [stringify], which [gorun]
    prints with, gives [true], [null] and the stripped form. *)
Theorem C3_concatenation_uses_host_str (st : Interpreter) :
  binary_operation "+" (VStr "x=") (VBool true) st = Returned (VStr "x=True") st
  /\ binary_operation "+" (VStr "a") VNone st = Returned (VStr "aNone") st
  /\ (forall x, binary_operation "+" (VStr "a") (VFloat x) st
                = Returned (VStr ("a" +:+ float_repr x)) st)
  /\ stringify (VBool true) = "true"
  /\ stringify VNone = "null"
  /\ (forall x, stringify (VFloat x) = strip_dot_zero (float_repr x))
  /\ Pipeline.output (Pipeline.run_source 20 concat_boolean) = Some ["x=True"]
  /\ Pipeline.output (Pipeline.run_source 20 concat_null) = Some ["aNone"].
Proof.
  repeat split; try reflexivity; vm_compute; reflexivity.
Qed.

(** [interpret] catches the KSRuntimeError only: a return signal that
    reaches it goes on to its caller. *)
Lemma interpret_passes_return_signal (execute : Statement -> M unit)
    (program : Program) (st st' : Interpreter) (v : Value) :
  visit_program execute program st = Raised (ReturnValue v) st' ->
  interpret execute program st = Raised (ReturnValue v) st'.
Proof. intros Hv. unfold interpret. rewrite Hv. reflexivity. Qed.

(** C4, on the code: a [return;] at top level is not reported as a runtime
    error. The return signal leaves [interpret], which returns neither
    true nor false and writes nothing on the error stream. *)
Theorem C4_top_level_return_escapes (fuel : nat) :
  Pipeline.run_source (S fuel) "return;"
  = Pipeline.Ran (Raised (ReturnValue VNone) new_interpreter)
  /\ stderr new_interpreter = [].
Proof.
  split; [|reflexivity].
  unfold Pipeline.run_source.
  assert (Parser.parse_source "return;"
          = inr (Parser.Returned (mkProgram [ReturnStatement None])
                   (Parser.mkParser
                      [mkToken RETURN "return" 1 1; mkToken SEMICOLON ";" 1 7;
                       mkToken EOF "" 1 8] 2))) as ->
    by (vm_compute; reflexivity).
  unfold run. apply f_equal.
  apply interpret_passes_return_signal. reflexivity.
Qed.

(** C5, on the code: [read_number] takes every dot that follows, so the
    lexeme of [1.2.3;] is [1.2.3], which the conversion of the host
    refuses: the parser ends in a ValueError, which is neither a ParseError
    nor an error of the lexer. *)
Theorem C5_number_with_two_dots_is_a_ValueError :
  tokenize "1.2.3;"
  = Tokens [mkToken NUMBER "1.2.3" 1 1; mkToken SEMICOLON ";" 1 6;
            mkToken EOF "" 1 7]
  /\ Parser.py_float "1.2.3" = None
  /\ (exists p,
        Parser.parse_source "1.2.3;"
        = inr (Parser.Raised (Parser.HostError ValueError) p)).
Proof.
  split; [vm_compute; reflexivity|].
  split; [reflexivity|].
  eexists. vm_compute. reflexivity.
Qed.

End OnAnyHost.

(** *** On the binary64 host: the claims at concrete inputs *)

(** The host has the memory for six characters. *)
Lemma string_times_integer_repeats (st : Interpreter) :
  visit_binary (evaluate 1) ab "*" three st = Returned (VStr "ababab") st.
Proof. reflexivity. Qed.

Lemma C7_witness :
  evaluate 1 (LiteralExpression (LInt 2) "number") in_block_under_x
  = Returned (VInt 2) in_block_under_x
  /\ match head (filter (fun d => is_Some (binding (heap in_block_under_x) d "x"))
                        (scope_chain (heap in_block_under_x)
                                     (environment in_block_under_x))) with
     | Some d =>
         exists h',
           visit_assignment (evaluate 1) "x"
             (LiteralExpression (LInt 2) "number") in_block_under_x
           = Returned (VInt 2) (with_heap h' in_block_under_x)
           /\ rebinds (heap in_block_under_x) h' d "x" (VInt 2)
           /\ get h' (environment in_block_under_x) "x" = Some (VInt 2)
     | None =>
         visit_assignment (evaluate 1) "x"
           (LiteralExpression (LInt 2) "number") in_block_under_x
         = Raised (KSRuntimeError ("Undefined variable '" +:+ "x" +:+ "'"))
                  in_block_under_x
     end.
Proof.
  split; [reflexivity|].
  apply (C7_assignment_rebinds_defining_scope
           (evaluate 1) "x" (LiteralExpression (LInt 2) "number")
           in_block_under_x in_block_under_x (VInt 2)).
  reflexivity.
Defined.


Lemma C8_witness :
  environment new_interpreter < List.length (heap new_interpreter)
  /\ exists st',
       visit_function_declaration "f" ["a"] [] new_interpreter = Returned tt st'
       /\ environment st' = environment new_interpreter
       /\ binding (heap st') (environment new_interpreter) "f"
          = Some (VFunction (next_object new_interpreter) "f" ["a"] []
                            (environment new_interpreter)).
Proof.
  assert (environment new_interpreter < List.length (heap new_interpreter))
    as Hlt by (simpl; lia).
  split; [exact Hlt|].
  exact (proj1 C8_closure_is_declaration_environment
               "f" ["a"] [] new_interpreter Hlt).
Defined.

(** C2, as stated, fails: with a left operand that is false, the right
    operand of [&&] is evaluated all the same. In [(1 == 2) && (x = 1)],
    run after [let x = 0;], the assignment takes place: the state after the
    expression is not the state the left operand left, where [x] is 0. *)
Lemma C2_counterexample :
  ~ (forall (fuel : nat) (l r : Expression) (st st1 : Interpreter) (v : Value),
       evaluate fuel l st = Returned v st1 ->
       is_truthy v = false ->
       evaluate (S fuel) (BinaryExpression l "&&" r) st
       = Returned (VBool false) st1).
Proof.
  intros Hclaim.
  specialize (Hclaim 2 one_equals_two assign_one_to_x
                     after_let_x_0 after_let_x_0 (VBool false)
                     one_equals_two_is_false eq_refl).
  pose proof conjunction_runs_right_operand as Hrun.
  rewrite Hclaim in Hrun. discriminate Hrun.
Qed.

Lemma C2_witness :
  evaluate 2 one_equals_two after_let_x_0 = Returned (VBool false) after_let_x_0
  /\ evaluate 2 assign_one_to_x after_let_x_0 = Returned (VInt 1) after_x_is_1
  /\ visit_binary (evaluate 2) one_equals_two "&&" assign_one_to_x after_let_x_0
     = Returned (VBool (is_truthy (VBool false) && is_truthy (VInt 1)))
                after_x_is_1.
Proof.
  split; [exact one_equals_two_is_false|].
  split; [exact assign_one_to_x_assigns|].
  exact (proj1 (proj1 (C2_logical_operators_evaluate_both
                         (evaluate 2) one_equals_two assign_one_to_x
                         after_let_x_0 after_let_x_0 _ (VBool false)
                         one_equals_two_is_false)
                      (VInt 1) assign_one_to_x_assigns)).
Defined.

(** C6, as stated, fails: a string times an integer is not an error; the
    expression with the operands [ab] and 3 returns the string repeated
    three times. *)
Lemma C6_counterexample :
  ~ (forall (operator : string) (l r : Expression) (st st1 st2 : Interpreter)
            (lv rv : Value),
       operator = "-" \/ operator = "*" \/ operator = "%" ->
       evaluate 1 l st = Returned lv st1 ->
       evaluate 1 r st1 = Returned rv st2 ->
       is_number lv && is_number rv = false ->
       exists s st', visit_binary (evaluate 1) l operator r st = Raised s st').
Proof.
  intros Hclaim.
  destruct (Hclaim "*" ab three new_interpreter new_interpreter new_interpreter
                   (VStr "ab") (VInt 3)) as (s & st' & Hraised);
    [tauto|reflexivity|reflexivity|reflexivity|].
  rewrite string_times_integer_repeats in Hraised. discriminate Hraised.
Qed.

Lemma C6_witness :
  evaluate 1 ab new_interpreter = Returned (VStr "ab") new_interpreter
  /\ evaluate 1 three new_interpreter = Returned (VInt 3) new_interpreter
  /\ visit_binary (evaluate 1) ab "*" three new_interpreter
     = Returned (VStr (repeat_string "ab" (Z.to_nat 3))) new_interpreter
  /\ visit_binary (evaluate 1) ab "-" three new_interpreter
     = Raised (HostError TypeError) new_interpreter.
Proof.
  destruct (C6_arithmetic_is_left_to_the_host
              (evaluate 1) ab three new_interpreter new_interpreter
              new_interpreter (VStr "ab") (VInt 3) eq_refl eq_refl)
    as (_ & Hsub & Hmul & _).
  split; [reflexivity|]. split; [reflexivity|]. split.
  - destruct (Hmul "ab" 3%Z) as (_ & Hcopies & _); [left; split; reflexivity|].
    apply Hcopies; [split; [discriminate|reflexivity]|].
    right. right. split; reflexivity.
  - apply Hsub. left. reflexivity.
Defined.

(** On the binary64 host, [gorun("a" + 3.0); gorun(3.0);] prints [a3.0]
    and then [3]. *)
Lemma concatenation_keeps_dot_zero :
  Pipeline.output (Pipeline.run_source 20 concat_float) = Some ["a3.0"; "3"].
Proof. vm_compute. reflexivity. Qed.

End Claims.

(** * Further properties

    What the code guarantees besides: the shape, the order and the places
    of the tokens, the progress of the parser and the operators of its
    programs, the laws of the environments, and what the visits of the
    interpreter keep. *)

(** ** The tokens of the lexer *)
Module LexerShape.
Import Lexer TokenShape LexerFacts.

Lemma append_nil (b : string) : "" +:+ b = b.
Proof. reflexivity. Qed.

Lemma append_cons x (a b : string) : String x a +:+ b = String x (a +:+ b).
Proof. reflexivity. Qed.

Lemma append_nil_r (a : string) : a +:+ "" = a.
Proof. induction a as [|x a IH]; [done|]. by rewrite append_cons, IH. Qed.

Lemma append_assoc (a b c : string) : (a +:+ b) +:+ c = a +:+ (b +:+ c).
Proof.
  induction a as [|x a IH]; [done|]. by rewrite !append_cons, IH.
Qed.

Lemma all_chars_append p a b :
  all_chars p (a +:+ b) = all_chars p a && all_chars p b.
Proof.
  induction a as [|x a IH]; [done|].
  rewrite append_cons. simpl. rewrite IH. by rewrite andb_assoc.
Qed.

Lemma advance_positioned lx : positioned lx -> positioned (advance lx).
Proof.
  intros [Hl Hk]. unfold advance, positioned.
  destruct (rest lx) as [|c r]; simpl; [lia|].
  destruct (Ascii.eqb c Char.newline); simpl; lia.
Qed.

Lemma skip_whitespace_go_positioned r l k :
  1 <= l -> 1 <= k -> positioned (skip_whitespace_go r l k).
Proof.
  revert k. induction r as [|c r IH]; intros k Hl Hk; simpl; [done|].
  case_match; [|done]. apply IH; lia.
Qed.

Lemma skip_to_eol_positioned r l k :
  1 <= l -> 1 <= k -> positioned (skip_to_eol r l k).
Proof.
  revert k. induction r as [|c r IH]; intros k Hl Hk; simpl; [done|].
  case_match; [done|]. apply IH; lia.
Qed.

Lemma read_number_go_positioned r l k number_str :
  1 <= l -> 1 <= k -> positioned (read_number_go r l k number_str).2.
Proof.
  revert k number_str. induction r as [|c r IH]; intros k number_str Hl Hk; simpl.
  - done.
  - case_match; [|done]. apply IH; lia.
Qed.

Lemma read_identifier_go_positioned r l k identifier :
  1 <= l -> 1 <= k -> positioned (read_identifier_go r l k identifier).2.
Proof.
  revert k identifier. induction r as [|c r IH]; intros k identifier Hl Hk; simpl.
  - done.
  - case_match; [|done]. apply IH; lia.
Qed.

(** The lexeme of a number: what was read before, and digits and dots. *)
Lemma read_number_go_lexeme r l k number_str :
  exists more,
    (read_number_go r l k number_str).1 = number_str +:+ more
    /\ all_chars number_char more = true.
Proof.
  revert k number_str. induction r as [|c r IH]; intros k number_str; simpl.
  - exists "". by rewrite append_nil_r.
  - destruct (Char.isdigit c || Ascii.eqb c ".") eqn:Hc.
    + destruct (IH (S k) (number_str +:+ Char.str c)) as (more & Heq & Hall).
      exists (String c more). rewrite Heq, append_assoc.
      split; [done|]. simpl. unfold number_char at 1. by rewrite Hc.
    + exists "". by rewrite append_nil_r.
Qed.

(** The lexeme of a name: what was read before, and letters, digits and
    underscores. *)
Lemma read_identifier_go_lexeme r l k identifier :
  exists more,
    (read_identifier_go r l k identifier).1 = identifier +:+ more
    /\ all_chars name_char more = true.
Proof.
  revert k identifier. induction r as [|c r IH]; intros k identifier; simpl.
  - exists "". by rewrite append_nil_r.
  - destruct (Char.isalnum c || Ascii.eqb c "_") eqn:Hc.
    + destruct (IH (S k) (identifier +:+ Char.str c)) as (more & Heq & Hall).
      exists (String c more). rewrite Heq, append_assoc.
      split; [done|]. simpl. unfold name_char at 1. by rewrite Hc.
    + exists "". by rewrite append_nil_r.
Qed.

Lemma read_string_go_positioned r l k string_value s lx' :
  1 <= l -> 1 <= k ->
  read_string_go r l k string_value = inr (s, lx') -> positioned lx'.
Proof.
  remember (String.length r) as n eqn:Hn.
  assert (String.length r <= n) as Hle by lia. clear Hn.
  revert r l k string_value Hle.
  induction n as [|n IH]; intros r l k string_value Hle Hl Hk.
  - destruct r; simpl in *; [|lia]. intros [= <- <-]. done.
  - destruct r as [|c r]; simpl in *; [intros [= <- <-]; done|].
    assert (positioned (advance (mkLexer (String c r) l k))) as Hadv
      by (by apply advance_positioned).
    destruct (Ascii.eqb c Char.quote); [intros [= <- <-]; done|].
    destruct (Ascii.eqb c Char.backslash).
    + destruct r as [|d r]; [done|].
      apply advance_positioned in Hadv. destruct Hadv as [Hl2 Hk2].
      intros Hgo. apply IH in Hgo; simpl in *; [done|lia|done|done].
    + destruct Hadv as [Hl2 Hk2].
      intros Hgo. apply IH in Hgo; simpl in *; [done|lia|done|done].
Qed.

Lemma read_string_go_error r l k string_value e :
  read_string_go r l k string_value = inl e -> e = TypeError.
Proof.
  remember (String.length r) as n eqn:Hn.
  assert (String.length r <= n) as Hle by lia. clear Hn.
  revert r l k string_value Hle.
  induction n as [|n IH]; intros r l k string_value Hle.
  - destruct r; simpl in *; [done|lia].
  - destruct r as [|c r]; simpl in *; [done|].
    destruct (Ascii.eqb c Char.quote); [done|].
    destruct (Ascii.eqb c Char.backslash).
    + destruct r as [|d r]; [by intros [= <-]|].
      intros Hgo. apply IH in Hgo; simpl in *; [done|lia].
    + intros Hgo. apply IH in Hgo; simpl in *; [done|lia].
Qed.

Lemma keywords_cases s ty :
  keywords s = Some ty ->
  (ty = TRUE /\ s = "true") \/ (ty = FALSE /\ s = "false")
  \/ ty ∈ [LET; FUNC; IF; ELSE; FOR; WHILE; RETURN; GORUN].
Proof.
  unfold keywords.
  repeat match goal with
  | |- context [String.eqb s ?k] =>
      destruct (String.eqb_spec s k) as [-> | ?];
      [intros [= <-];
       first [by left | by right; left
             | right; right;
               repeat first [apply list_elem_of_here | apply list_elem_of_further]]|]
  end.
  done.
Qed.

Lemma operators_fit s ty l k :
  operators s = Some ty -> fits (mkToken ty s l k) = true.
Proof.
  intros Hop. assert (Hty := Hop). unfold operators in Hty.
  repeat case_match; try discriminate; injection Hty as <-;
    unfold fits; simpl; by apply bool_decide_eq_true_2.
Qed.

Lemma delimiters_fit c ty l k :
  delimiters c = Some ty -> fits (mkToken ty (Char.str c) l k) = true.
Proof.
  intros Hd. assert (Hty := Hd). unfold delimiters in Hty.
  repeat case_match; try discriminate; injection Hty as <-;
    unfold fits; simpl; by apply bool_decide_eq_true_2.
Qed.

Lemma placed_at lx ty s :
  positioned lx -> placed (mkToken ty s (cur_line lx) (cur_column lx)) = true.
Proof.
  intros [Hl Hk]. unfold placed. cbn [line column].
  apply andb_true_intro. split; by apply Nat.leb_le.
Qed.

(** The token of [read_identifier] at a letter or an underscore. *)
Lemma read_identifier_fits lx char r1 :
  rest lx = String char r1 -> name_start char = true ->
  fits (read_identifier lx).1 = true.
Proof.
  intros Hrest Hstart. unfold read_identifier. rewrite Hrest. simpl.
  assert (name_char char = true) as Hchar.
  { unfold name_start, name_char, Char.isalnum in *.
    apply orb_prop in Hstart as [-> | ->]; [done|apply orb_true_r]. }
  unfold name_char in Hchar. rewrite Hchar.
  destruct (read_identifier_go_lexeme r1 (cur_line lx) (S (cur_column lx))
              ("" +:+ Char.str char)) as (more & Heq & Hall).
  destruct (read_identifier_go _ _ _ _) as [identifier lx'] eqn:Hgo.
  simpl in Heq. subst identifier.
  change (("" +:+ Char.str char) +:+ more) with (String char more) in *. simpl.
  destruct (keywords (String char more)) as [ty|] eqn:Hkw; simpl.
  - destruct (keywords_cases _ _ Hkw) as [[-> Hs] | [[-> Hs] | Hin]].
    + rewrite Hs. reflexivity.
    + rewrite Hs. reflexivity.
    + assert (bool_decide (ty = TRUE) || bool_decide (ty = FALSE) = false) as ->.
      { repeat (apply elem_of_cons in Hin as [-> | Hin]; [done|]).
        by apply elem_of_nil in Hin. }
      unfold fits. simpl.
      repeat (apply elem_of_cons in Hin as [-> | Hin];
              [by apply bool_decide_eq_true_2|]).
      by apply elem_of_nil in Hin.
  - unfold fits. simpl. rewrite Hstart. simpl. unfold name_char at 1.
    rewrite Hchar, Hall, Hkw. done.
Qed.

Lemma read_number_fits lx char r1 :
  rest lx = String char r1 -> Char.isdigit char = true ->
  fits (read_number lx).1 = true.
Proof.
  intros Hrest Hdigit. unfold read_number. rewrite Hrest. simpl.
  rewrite Hdigit. simpl.
  destruct (read_number_go_lexeme r1 (cur_line lx) (S (cur_column lx))
              ("" +:+ Char.str char)) as (more & Heq & Hall).
  destruct (read_number_go _ _ _ _) as [number_str lx'] eqn:Hgo.
  simpl in Heq. subst number_str.
  change (("" +:+ Char.str char) +:+ more) with (String char more) in *.
  unfold fits. simpl.
  rewrite Hdigit. simpl. unfold number_char at 1. rewrite Hdigit, Hall. done.
Qed.

Lemma well_formed_at lx ty s :
  positioned lx -> fits (mkToken ty s (cur_line lx) (cur_column lx)) = true ->
  well_formed (mkToken ty s (cur_line lx) (cur_column lx)) = true.
Proof.
  intros Hpos Hfits. unfold well_formed. by rewrite Hfits, placed_at.
Qed.

Lemma tokenize_loop_lexed fuel lx tokens :
  remaining lx < fuel -> positioned lx ->
  Forall (fun t => well_formed t = true) tokens ->
  lexed (tokenize_loop fuel lx tokens).
Proof.
  revert lx tokens.
  induction fuel as [|fuel IH]; intros lx tokens Hlt Hpos Hok; [lia|].
  assert (forall lx', positioned lx' -> lexed (Tokens (tokens ++ [eof_token lx'])))
    as Hend.
  { intros lx' Hpos'. exists tokens, (eof_token lx').
    repeat split; [|done]. by apply placed_at. }
  simpl. destruct (rest lx) as [|c0 r0] eqn:Hrest; [by apply Hend|].
  pose proof (skip_whitespace_go_remaining (rest lx) (cur_line lx) (cur_column lx))
    as Hws.
  pose proof (skip_whitespace_go_positioned (rest lx) _ _ (proj1 Hpos) (proj2 Hpos))
    as Hpos1.
  fold (skip_whitespace lx) in Hws, Hpos1. fold (remaining lx) in Hws.
  set (lx1 := skip_whitespace lx) in *.
  unfold current_char. destruct (rest lx1) as [|char r1] eqn:Hr1; [by apply Hend|].
  assert (remaining lx1 = S (String.length r1)) as Hrem1
    by (unfold remaining; rewrite Hr1; done).
  assert (forall lx2, remaining lx2 <= String.length r1 -> remaining lx2 < fuel)
    as Hnext by (intros lx2 Hle; lia).
  assert (remaining (advance lx1) <= String.length r1) as Hadv
    by (rewrite advance_remaining; lia).
  assert (forall t, well_formed t = true ->
            Forall (fun t => well_formed t = true) (tokens ++ [t])) as Hsnoc.
  { intros t Ht. apply Forall_app. split; [done|]. by apply Forall_singleton. }
  destruct (Ascii.eqb char "/" && bool_decide (peek_char lx1 = Some "/"%char))
    eqn:Hcomment.
  { apply andb_prop in Hcomment as [Hc Hp].
    apply Ascii.eqb_eq in Hc as ->. apply bool_decide_eq_true_1 in Hp.
    unfold skip_comment, current_char. rewrite Hp, Hr1. simpl.
    destruct Hpos1 as [Hl1 Hk1].
    apply IH; [apply Hnext, skip_to_eol_remaining
              |apply skip_to_eol_positioned; lia|done]. }
  destruct (Ascii.eqb char Char.newline) eqn:Hnl.
  { apply IH; [by apply Hnext|by apply advance_positioned|].
    apply Hsnoc, well_formed_at; [done|].
    apply Ascii.eqb_eq in Hnl as ->. reflexivity. }
  destruct (Char.isdigit char) eqn:Hdigit.
  { pose proof (read_number_fits lx1 char r1 Hr1 Hdigit) as Hfits.
    unfold read_number in *.
    destruct (read_number_go _ _ _ _) as [number_str lx'] eqn:Hgo.
    rewrite Hr1 in Hgo. simpl in Hgo. rewrite Hdigit in Hgo. simpl in Hgo.
    pose proof (read_number_go_remaining r1 (cur_line lx1) (S (cur_column lx1))
                  ("" +:+ Char.str char)) as Hle.
    pose proof (read_number_go_positioned r1 (cur_line lx1) (S (cur_column lx1))
                  ("" +:+ Char.str char)) as Hp'.
    rewrite Hgo in Hle, Hp'. destruct Hpos1 as [Hl1 Hk1].
    apply IH; [by apply Hnext|apply Hp'; lia|].
    by apply Hsnoc, well_formed_at. }
  destruct (Ascii.eqb char Char.quote).
  { unfold read_string.
    destruct (read_string_go _ _ _ _) as [e|[string_value lx']] eqn:Hgo.
    { right. by apply read_string_go_error in Hgo. }
    pose proof (advance_positioned _ Hpos1) as [Hl2 Hk2].
    apply IH.
    - apply Hnext. apply read_string_go_remaining in Hgo.
      fold (remaining (advance lx1)) in Hgo. lia.
    - by apply read_string_go_positioned in Hgo.
    - by apply Hsnoc, well_formed_at. }
  destruct (Char.isalpha char || Ascii.eqb char "_") eqn:Hletter.
  { pose proof (read_identifier_fits lx1 char r1 Hr1 Hletter) as Hfits.
    unfold read_identifier in *.
    destruct (read_identifier_go _ _ _ _) as [identifier lx'] eqn:Hgo.
    rewrite Hr1 in Hgo. simpl in Hgo.
    assert (Char.isalnum char || Ascii.eqb char "_" = true) as Hcond.
    { unfold Char.isalnum. apply orb_prop in Hletter as [->| ->]; [done|].
      apply orb_true_r. }
    rewrite Hcond in Hgo.
    pose proof (read_identifier_go_remaining r1 (cur_line lx1) (S (cur_column lx1))
                  ("" +:+ Char.str char)) as Hle.
    pose proof (read_identifier_go_positioned r1 (cur_line lx1) (S (cur_column lx1))
                  ("" +:+ Char.str char)) as Hp'.
    rewrite Hgo in Hle, Hp'. destruct Hpos1 as [Hl1 Hk1].
    apply IH; [by apply Hnext|apply Hp'; lia|].
    by apply Hsnoc, well_formed_at. }
  destruct (delimiters char) as [ty|] eqn:Hdelim.
  { apply IH; [by apply Hnext|by apply advance_positioned|].
    apply Hsnoc, well_formed_at; [done|]. by apply delimiters_fit. }
  case_match; [|left; eauto].
  unfold read_operator.
  destruct (operators (Char.str char +:+ from_option Char.str "" (peek_char lx1)))
    as [ty|] eqn:Htwo.
  { apply IH.
    - apply Hnext. rewrite advance_remaining. lia.
    - by do 2 apply advance_positioned.
    - apply Hsnoc, well_formed_at; [done|]. by apply operators_fit. }
  destruct (operators (Char.str char)) as [ty|] eqn:Hone; [|left; eauto].
  apply IH; [by apply Hnext|by apply advance_positioned|].
  apply Hsnoc, well_formed_at; [done|]. by apply operators_fit.
Qed.

(** [tokenize] on any text: a token list, a [SyntaxError] or a [TypeError]. *)
Theorem tokenize_lexed text : lexed (tokenize text).
Proof.
  apply tokenize_loop_lexed; [unfold remaining; simpl; lia|done|constructor].
Qed.

End LexerShape.

(** ** String literals *)
Module StringLiterals.
Import Lexer TokenShape LexerShape.

Lemma read_string_go_plain s r l k string_value :
  all_chars plain s = true ->
  exists l' k',
    read_string_go (s +:+ r) l k string_value
    = read_string_go r l' k' (string_value +:+ s).
Proof.
  revert l k string_value.
  induction s as [|c s IH]; intros l k string_value Hplain.
  - exists l, k. by rewrite append_nil, append_nil_r.
  - simpl in Hplain. apply andb_prop in Hplain as [Hc Hs].
    unfold plain in Hc. apply andb_prop in Hc as [Hq Hb].
    apply negb_true_iff in Hq, Hb.
    rewrite append_cons. simpl. rewrite Hq, Hb.
    destruct (IH (cur_line (advance (mkLexer (String c (s +:+ r)) l k)))
                 (cur_column (advance (mkLexer (String c (s +:+ r)) l k)))
                 (string_value +:+ Char.str c) Hs) as (l' & k' & ->).
    exists l', k'. by rewrite append_assoc.
Qed.

(** The round of [tokenize] at an opening quote. *)
Lemma tokenize_loop_at_quote fuel r l k tokens :
  tokenize_loop (S fuel) (mkLexer (String Char.quote r) l k) tokens =
  match read_string_go r l (S k) "" with
  | inl e => Raise e
  | inr (v, lx') => tokenize_loop fuel lx' (tokens ++ [mkToken STRING v l k])
  end.
Proof.
  cbn [tokenize_loop rest]. unfold skip_whitespace. cbn [rest skip_whitespace_go].
  change (Char.char_in Char.quote _) with false. cbv iota.
  cbn [current_char rest cur_line cur_column].
  change (Ascii.eqb Char.quote "/") with false.
  change (Ascii.eqb Char.quote Char.newline) with false.
  change (Char.isdigit Char.quote) with false.
  change (Ascii.eqb Char.quote Char.quote) with true.
  cbn [andb]. unfold read_string.
  change (advance (mkLexer (String Char.quote r) l k)) with (mkLexer r l (S k)).
  cbn [rest cur_line cur_column].
  by destruct (read_string_go r l (S k) "") as [e|[v lx']].
Qed.

(** A literal without quotes and backslashes in it is lexed to a [STRING]
    token whose value is the text between the quotes. *)
Theorem string_literal_lexes_to_its_content s :
  all_chars plain s = true ->
  exists l k,
    tokenize (Char.str Char.quote +:+ s +:+ Char.str Char.quote)
    = Tokens [mkToken STRING s 1 1; mkToken EOF "" l k].
Proof.
  intros Hplain. unfold tokenize.
  destruct (read_string_go_plain s (Char.str Char.quote) 1 2 "" Hplain)
    as (l' & k' & Hgo).
  rewrite append_nil in Hgo.
  exists l', (S k').
  change (Char.str Char.quote +:+ s +:+ Char.str Char.quote)
    with (String Char.quote (s +:+ Char.str Char.quote)).
  unfold init. rewrite tokenize_loop_at_quote, Hgo.
  change (read_string_go (Char.str Char.quote) l' k' s)
    with (@inr py_exception _ (s, mkLexer "" l' (S k'))).
  cbn [String.length]. reflexivity.
Qed.

Lemma string_literal_lexes_to_its_content_witness :
  all_chars plain "a b" = true
  /\ exists l k,
       tokenize (Char.str Char.quote +:+ "a b" +:+ Char.str Char.quote)
       = Tokens [mkToken STRING "a b" 1 1; mkToken EOF "" l k].
Proof.
  split; [reflexivity|].
  apply (string_literal_lexes_to_its_content "a b"). reflexivity.
Defined.

(** After a backslash, the character that is none of n, t and r stands
    for itself, as the backslash and the quote do. *)
Lemma escape_chars_of_any d :
  (if Char.char_in d escapable then escape_chars d else d) = escape_chars d.
Proof. by destruct d as [[] [] [] [] [] [] [] []]. Qed.

Lemma unescaped_plain s : all_chars plain s = true -> unescaped s = Some s.
Proof.
  induction s as [|c s IH]; [done|]. simpl. intros Hplain.
  apply andb_prop in Hplain as [Hc Hs]. unfold plain in Hc.
  apply andb_prop in Hc as [_ Hb]. apply negb_true_iff in Hb.
  rewrite Hb, IH by done. done.
Qed.

(** [read_string] on a text that no quote closes: it reads to the end. *)
Lemma read_string_go_unclosed s :
  (forall l k string_value,
     unclosed s = true ->
     match unescaped s with
     | Some v =>
         exists l' k',
           read_string_go s l k string_value
           = inr (string_value +:+ v, mkLexer "" l' k')
     | None => read_string_go s l k string_value = inl TypeError
     end)
  /\ (forall c l k string_value,
        unclosed (String c s) = true ->
        match unescaped (String c s) with
        | Some v =>
            exists l' k',
              read_string_go (String c s) l k string_value
              = inr (string_value +:+ v, mkLexer "" l' k')
        | None => read_string_go (String c s) l k string_value = inl TypeError
        end).
Proof.
  induction s as [|d s [IHs IHds]].
  - split.
    + intros l k string_value _. exists l, k. by rewrite append_nil_r.
    + intros c l k string_value. cbn [unclosed unescaped read_string_go].
      destruct (Ascii.eqb c Char.quote); [done|].
      destruct (Ascii.eqb c Char.backslash); [done|]. intros _.
      eexists _, _. reflexivity.
  - split; [apply IHds|].
    intros c l k string_value. remember (String d s) as ds eqn:Hds.
    cbn [unclosed unescaped read_string_go].
    destruct (Ascii.eqb c Char.quote); [done|].
    destruct (Ascii.eqb c Char.backslash).
    + subst ds. cbv beta iota. intros Hopen. rewrite escape_chars_of_any.
      match goal with
      | |- context [read_string_go s ?l1 ?k1 ?v1] =>
          specialize (IHs l1 k1 v1 Hopen)
      end.
      destruct (unescaped s) as [v|]; [|exact IHs].
      destruct IHs as (l' & k' & ->). exists l', k'.
      cbn [fmap option_fmap option_map]. by rewrite append_assoc.
    + intros Hopen.
      match goal with
      | |- context [read_string_go ds ?l1 ?k1 ?v1] =>
          specialize (IHds d l1 k1 v1); rewrite <- Hds in IHds;
          specialize (IHds Hopen)
      end.
      destruct (unescaped ds) as [v|]; [|exact IHds].
      destruct IHds as (l' & k' & ->). exists l', k'.
      cbn [fmap option_fmap option_map]. by rewrite append_assoc.
Qed.

(** A string literal that the text ends in is no syntax error:
    [read_string] reads to the end of the text, and the token holds what
    the text after the opening quote stands for, which is that text when
    there is no backslash in it. Only a text that ends with a backslash
    that has no character behind it is refused, with the [TypeError] of
    the membership test on [None]. *)
Theorem unterminated_string_is_read_to_the_end s :
  unclosed s = true ->
  match unescaped s with
  | Some v =>
      exists l k,
        tokenize (Char.str Char.quote +:+ s)
        = Tokens [mkToken STRING v 1 1; mkToken EOF "" l k]
  | None => tokenize (Char.str Char.quote +:+ s) = Lexer.Raise TypeError
  end
  /\ (all_chars plain s = true -> unescaped s = Some s).
Proof.
  intros Hopen. split; [|apply unescaped_plain].
  pose proof (proj1 (read_string_go_unclosed s) 1 2 "" Hopen) as Hgo.
  unfold tokenize.
  change (Char.str Char.quote +:+ s) with (String Char.quote s).
  unfold init. rewrite tokenize_loop_at_quote.
  destruct (unescaped s) as [v|].
  - destruct Hgo as (l' & k' & ->). rewrite append_nil.
    exists l', k'. cbn [String.length]. reflexivity.
  - by rewrite Hgo.
Qed.

Lemma unterminated_string_is_read_to_the_end_witness :
  unclosed "a\nb" = true
  /\ exists l k,
       tokenize (Char.str Char.quote +:+ "a\nb")
       = Tokens [mkToken STRING (String "a" (String Char.newline "b")) 1 1;
                 mkToken EOF "" l k].
Proof.
  split; [reflexivity|].
  exact (proj1 (unterminated_string_is_read_to_the_end "a\nb" eq_refl)).
Defined.

End StringLiterals.

(** ** The parser: positions, exceptions and the budget *)
Module ParserMoves.
Import Lexer Ast Parser TokenShape ParserShape.

Lemma in_range_token p :
  in_range p -> exists t, tokens p !! current p = Some t.
Proof.
  intros [_ Hlt]. apply lookup_lt_is_Some_2 in Hlt as [t Ht]. eauto.
Qed.

(** A token that is not the end-of-input token has a token after it. *)
Lemma in_range_next p t :
  in_range p -> tokens p !! current p = Some t -> type t <> EOF ->
  S (current p) < List.length (tokens p).
Proof.
  intros [(e & Hlast & He) Hlt] Ht Hne.
  rewrite last_lookup in Hlast.
  destruct (decide (current p = pred (List.length (tokens p)))) as [Heq|Hneq].
  - rewrite <- Heq, Ht in Hlast. by simplify_eq.
  - lia.
Qed.

Lemma in_range_moved p p' :
  in_range p -> tokens p' = tokens p -> current p' < List.length (tokens p') ->
  in_range p'.
Proof. intros [Hl _] Htok Hlt. split; [by rewrite Htok|done]. Qed.

Lemma moves_weaken {A} strict p (r : outcome A) :
  moves true p r -> moves strict p r.
Proof.
  destruct strict; [done|]. destruct r as [a p'| |]; simpl; [|done..].
  intros (? & ? & ?). repeat split; [done|lia|done].
Qed.

Lemma within_weaken {A} n strict (m : M A) :
  within n true m -> within n strict m.
Proof. intros Hm p Hp Hn. by apply moves_weaken, Hm. Qed.

Lemma within_mono {A} n n' strict (m : M A) :
  n' <= n -> within n strict m -> within n' strict m.
Proof. intros Hle Hm p Hp Hn. apply Hm; [done|lia]. Qed.

Lemma within_zero {A} strict (m : M A) : within 0 strict m.
Proof. intros p [_ Hlt] Hn. unfold left_over in Hn. lia. Qed.

Lemma within_ret {A} n (a : A) : within n false (ret a).
Proof. intros p [_ Hlt] _. simpl. repeat split; [lia|done]. Qed.

Lemma within_raise {A} n strict e : allowed e -> within n strict (@raise A e).
Proof. intros He p [_ Hlt] _. simpl. repeat split; [lia|done..]. Qed.

Lemma within_bind {A B} n s (m : M A) (k : A -> M B) :
  within n false m -> (forall a, within n s (k a)) -> within n s (bind m k).
Proof.
  intros Hm Hk p Hp Hn. unfold bind. specialize (Hm p Hp Hn).
  destruct (m p) as [a p'|e p'|]; simpl in Hm; [|done..].
  destruct Hm as (Htok & Hcur & Hlt).
  assert (in_range p') as Hp' by (by eapply in_range_moved).
  assert (left_over p' <= n) as Hn'
    by (unfold left_over in *; rewrite Htok; lia).
  specialize (Hk a p' Hp' Hn').
  destruct (k a p') as [b p''|e p''|]; simpl in *; [| |done].
  - destruct Hk as (Htok' & Hcur' & Hlt').
    repeat split; [congruence| |done]. destruct s; lia.
  - destruct Hk as (Htok' & Hcur' & Hlt' & He).
    repeat split; [congruence|lia|done..].
Qed.

(** After a method that has consumed a token, one token less is left. *)
Lemma within_bind_strict {A B} n s (m : M A) (k : A -> M B) :
  within n true m -> (forall a, within (pred n) false (k a)) ->
  within n s (bind m k).
Proof.
  intros Hm Hk p Hp Hn. unfold bind. specialize (Hm p Hp Hn).
  destruct (m p) as [a p'|e p'|]; simpl in Hm; [|done..].
  destruct Hm as (Htok & Hcur & Hlt).
  assert (in_range p') as Hp' by (by eapply in_range_moved).
  assert (left_over p' <= pred n) as Hn'
    by (unfold left_over in *; rewrite Htok; lia).
  specialize (Hk a p' Hp' Hn').
  destruct (k a p') as [b p''|e p''|]; simpl in *; [| |done].
  - destruct Hk as (Htok' & Hcur' & Hlt').
    repeat split; [congruence| |done]. destruct s; lia.
  - destruct Hk as (Htok' & Hcur' & Hlt' & He).
    repeat split; [congruence|lia|done..].
Qed.

Lemma within_reads {A B} n s (m : M A) (k : A -> M B) :
  reads m -> (forall a, within n s (k a)) -> within n s (bind m k).
Proof.
  intros Hm Hk p Hp Hn. unfold bind. destruct (Hm p Hp) as [a ->].
  by apply Hk.
Qed.

Lemma reads_within {A} n (m : M A) : reads m -> within n false m.
Proof.
  intros Hm p Hp Hn. destruct (Hm p Hp) as [a ->]. simpl.
  destruct Hp as [_ Hlt]. repeat split; [lia|done].
Qed.

Lemma reads_bind {A B} (m : M A) (k : A -> M B) :
  reads m -> (forall a, reads (k a)) -> reads (bind m k).
Proof.
  intros Hm Hk p Hp. unfold bind. destruct (Hm p Hp) as [a ->]. by apply Hk.
Qed.

Lemma reads_ret {A} (a : A) : reads (ret a).
Proof. intros p _. by exists a. Qed.

Lemma reads_peek : reads peek.
Proof.
  intros p Hp. unfold peek, token_at.
  destruct (in_range_token p Hp) as [t ->]. eauto.
Qed.

Lemma reads_is_at_end : reads is_at_end.
Proof. apply reads_bind; [apply reads_peek|intros t; apply reads_ret]. Qed.

Lemma reads_previous : reads previous.
Proof.
  intros p [Hl Hlt]. unfold previous, token_at.
  destruct (current p) as [|i] eqn:Hc.
  - destruct (lookup_lt_is_Some_2 (tokens p) (List.length (tokens p) - 1))
      as [t ->]; [lia|eauto].
  - destruct (lookup_lt_is_Some_2 (tokens p) i) as [t ->]; [lia|eauto].
Qed.

Lemma reads_check token_type : reads (check token_type).
Proof.
  apply reads_bind; [apply reads_is_at_end|]. intros [|]; [apply reads_ret|].
  apply reads_bind; [apply reads_peek|intros t; apply reads_ret].
Qed.

(** [check] says yes only at a token that is not the last. *)
Lemma check_cases p token_type :
  in_range p ->
  check token_type p = Returned false p
  \/ (check token_type p = Returned true p
      /\ exists t, tokens p !! current p = Some t /\ type t = token_type
                   /\ type t <> EOF).
Proof.
  intros Hp. unfold check, is_at_end, bind, peek, token_at, ret.
  destruct (in_range_token p Hp) as [t Ht]. rewrite Ht.
  destruct (bool_decide (type t = EOF)) eqn:Heof; [by left|].
  rewrite Ht. apply bool_decide_eq_false_1 in Heof.
  destruct (bool_decide (type t = token_type)) eqn:Hty; [|by left].
  apply bool_decide_eq_true_1 in Hty. right. eauto.
Qed.

(** [advance] at a token that is not the end-of-input token. *)
Lemma advance_moves p t :
  tokens p !! current p = Some t -> type t <> EOF ->
  advance p = Returned t (mkParser (tokens p) (S (current p))).
Proof.
  intros Ht Hne. unfold advance, is_at_end, bind, peek, token_at, ret.
  rewrite Ht. rewrite bool_decide_eq_false_2 by done.
  unfold previous, token_at. simpl. by rewrite Ht.
Qed.

Lemma match_cases token_types p :
  in_range p ->
  match_ token_types p = Returned false p
  \/ (match_ token_types p = Returned true (mkParser (tokens p) (S (current p)))
      /\ S (current p) < List.length (tokens p)).
Proof.
  intros Hp. induction token_types as [|token_type others IH]; [by left|].
  destruct (check_cases p token_type Hp) as [Hc | [Hc (t & Ht & Hty & Hne)]].
  - assert (match_ (token_type :: others) p = match_ others p) as ->; [|done].
    simpl. unfold bind. by rewrite Hc.
  - right. split; [|by eapply in_range_next].
    simpl. unfold bind, ret. by rewrite Hc, (advance_moves p t Ht Hne).
Qed.

Lemma consume_cases token_type message p :
  in_range p ->
  (exists msg, consume token_type message p = Raised (ParseError msg) p)
  \/ (exists t,
        consume token_type message p
        = Returned t (mkParser (tokens p) (S (current p)))
        /\ S (current p) < List.length (tokens p)).
Proof.
  intros Hp. unfold consume.
  destruct (check_cases p token_type Hp) as [Hc | [Hc (t & Ht & Hty & Hne)]].
  - left. unfold bind, peek, token_at, raise. rewrite Hc.
    destruct (in_range_token p Hp) as [t ->]. eauto.
  - right. exists t. unfold bind. rewrite Hc, (advance_moves p t Ht Hne).
    split; [done|]. by eapply in_range_next.
Qed.

(** A branch on [match]: the branch of a match runs with a token less. *)
Lemma within_match {B} n s token_types (k : bool -> M B) :
  within (pred n) false (k true) -> within n s (k false) ->
  within n s (bind (match_ token_types) k).
Proof.
  intros Ht Hf p Hp Hn. unfold bind.
  destruct (match_cases token_types p Hp) as [-> | [-> Hnext]]; [by apply Hf|].
  set (p' := mkParser (tokens p) (S (current p))).
  assert (in_range p') as Hp' by (by eapply in_range_moved).
  assert (left_over p' <= pred n) as Hn' by (unfold left_over in *; simpl; lia).
  specialize (Ht p' Hp' Hn').
  destruct (k true p') as [b p''|e p''|]; simpl in *; [| |done].
  - destruct Ht as (Htok' & Hcur' & Hlt').
    repeat split; [congruence| |done]. destruct s; lia.
  - destruct Ht as (Htok' & Hcur' & Hlt' & He).
    repeat split; [congruence|lia|done..].
Qed.

Lemma within_consume n token_type message : within n true (consume token_type message).
Proof.
  intros p Hp Hn.
  destruct (consume_cases token_type message p Hp) as [[msg ->] | (t & -> & Hnext)];
    simpl.
  - destruct Hp as [_ Hlt]. repeat split; [lia|done|]. left. eauto.
  - repeat split; [lia|done].
Qed.

Ltac within_read :=
  apply within_reads;
  [first [apply reads_peek | apply reads_previous | apply reads_check
         | apply reads_is_at_end]
  |intros ?; cbv beta iota].

Ltac within_raises := apply within_raise; first [by left; eauto | by right].

Ltac within_consumes :=
  first [apply within_consume | apply within_weaken, within_consume
        | apply within_bind_strict; [apply within_consume|intros ?; cbv beta iota]].

Ltac within_matches := apply within_match; cbv beta iota.

Ltac within_binds H :=
  first [apply within_bind; [exact H|intros ?; cbv beta iota]
        | apply within_bind; [apply within_weaken, H|intros ?; cbv beta iota]].

Lemma within_advance n : within n false advance.
Proof.
  intros p Hp Hn. destruct (in_range_token p Hp) as [t Ht].
  destruct (decide (type t = EOF)) as [Heof|Hne].
  - destruct (reads_previous p Hp) as [prev Hprev].
    unfold advance, is_at_end, bind, peek, token_at, ret. rewrite Ht.
    rewrite bool_decide_eq_true_2 by done. rewrite Hprev. simpl.
    destruct Hp as [_ Hlt]. repeat split; [lia|done].
  - rewrite (advance_moves p t Ht Hne). simpl.
    repeat split; [lia|]. by eapply in_range_next.
Qed.

(** The loop of [synchronize] ends: a round for every token left is
    enough. *)
Lemma synchronize_loop_within fuel n :
  n <= fuel -> within n false (synchronize_loop fuel).
Proof.
  revert n. induction fuel as [|fuel IH]; intros n Hfuel.
  { replace n with 0 by lia. apply within_zero. }
  intros p Hp Hn. destruct (in_range_token p Hp) as [t Ht].
  destruct (reads_previous p Hp) as [prev Hprev].
  pose proof Hp as [_ Hlt].
  simpl. unfold bind, is_at_end, bind, peek, token_at, ret. rewrite Ht.
  destruct (bool_decide (type t = EOF)) eqn:Heof.
  { simpl. repeat split; [lia|done]. }
  apply bool_decide_eq_false_1 in Heof. rewrite Hprev.
  destruct (bool_decide (type prev = SEMICOLON)).
  { simpl. repeat split; [lia|done]. }
  rewrite Ht. case_match.
  { simpl. repeat split; [lia|done]. }
  rewrite (advance_moves p t Ht Heof).
  set (p' := mkParser (tokens p) (S (current p))).
  assert (S (current p) < List.length (tokens p)) as Hnext
    by (by eapply in_range_next).
  assert (in_range p') as Hp' by (by eapply in_range_moved).
  assert (left_over p' <= pred n) as Hn' by (unfold left_over in *; simpl; lia).
  assert (pred n <= fuel) as Hfuel' by lia.
  specialize (IH (pred n) Hfuel' p' Hp' Hn').
  destruct (synchronize_loop fuel p') as [b p''|e p''|]; simpl in *; [| |done].
  - destruct IH as (Htok' & Hcur' & Hlt'). repeat split; [done|lia|done].
  - destruct IH as (Htok' & Hcur' & Hlt' & He). repeat split; [done|lia|done..].
Qed.

Lemma within_synchronize n : within n false synchronize.
Proof.
  unfold synchronize. apply within_bind; [apply within_advance|]. intros _.
  intros p Hp Hn. apply (synchronize_loop_within _ (left_over p)); [|done..].
  unfold left_over. lia.
Qed.

Lemma within_resynchronizing {A} n s (body : M A) :
  within n s body -> within n s (resynchronizing body).
Proof.
  intros Hbody p Hp Hn. unfold resynchronizing. specialize (Hbody p Hp Hn).
  destruct (body p) as [a p'|e p'|]; [done| |done].
  destruct e as [msg|e]; [|done].
  simpl in Hbody. destruct Hbody as (Htok & Hcur & Hlt & He).
  assert (in_range p') as Hp' by (by eapply in_range_moved).
  pose proof (within_synchronize (left_over p') p' Hp' (Nat.le_refl _)) as Hs.
  destruct (synchronize p') as [b p''|e p''|]; simpl in *; [| |done].
  - destruct Hs as (Htok' & Hcur' & Hlt').
    repeat split; [congruence|lia|done..].
  - destruct Hs as (Htok' & Hcur' & Hlt' & He').
    repeat split; [congruence|lia|done..].
Qed.

Section Grammar.
Context `{HostFloat}.

Lemma primary_within n expression :
  within (pred n) false expression -> within n true (primary expression).
Proof.
  intros Hexpr. unfold primary.
  within_matches; [apply within_ret|].
  within_matches; [apply within_ret|].
  within_matches.
  { within_read. repeat case_match; first [apply within_ret | within_raises]. }
  within_matches; [within_read; apply within_ret|].
  within_matches; [within_read; apply within_ret|].
  within_matches.
  { within_binds Hexpr. apply within_bind; [within_consumes|]. intros _.
    apply within_ret. }
  within_read. within_raises.
Qed.

Lemma finish_call_loop_within fuel n expression arguments :
  n <= fuel -> within n false expression ->
  within n false (finish_call_loop fuel expression arguments).
Proof.
  revert n arguments. induction fuel as [|fuel IH]; intros n arguments Hfuel Hexpr.
  { replace n with 0 by lia. apply within_zero. }
  cbn [finish_call_loop]. within_matches; [|apply within_ret].
  apply within_bind; [by eapply within_mono; [|exact Hexpr]; lia|]. intros arg.
  apply IH; [lia|]. eapply within_mono; [|exact Hexpr]. lia.
Qed.

Lemma finish_call_within fuel n expression callee :
  n <= fuel -> within n false expression ->
  within n true (finish_call fuel expression callee).
Proof.
  intros Hfuel Hexpr. unfold finish_call. within_read.
  apply within_bind.
  { case_match; [apply within_ret|]. within_binds Hexpr.
    by apply finish_call_loop_within. }
  intros arguments. within_consumes. apply within_ret.
Qed.

Lemma call_loop_within fuel n expression expr :
  n <= fuel -> within (pred n) false expression ->
  within n false (call_loop fuel expression expr).
Proof.
  revert n expr. induction fuel as [|fuel IH]; intros n expr Hfuel Hexpr.
  { replace n with 0 by lia. apply within_zero. }
  cbn [call_loop]. within_matches; [|apply within_ret].
  apply within_bind.
  { apply within_weaken, finish_call_within; [lia|done]. }
  intros expr'. apply IH; [lia|]. eapply within_mono; [|exact Hexpr]. lia.
Qed.

Lemma call_within fuel n expression :
  n <= fuel -> within (pred n) false expression ->
  within n true (call fuel expression).
Proof.
  intros Hfuel Hexpr. unfold call.
  apply within_bind_strict; [by apply primary_within|]. intros expr.
  apply call_loop_within; [lia|]. eapply within_mono; [|exact Hexpr]. lia.
Qed.

Lemma unary_within fuel n expression :
  n < fuel -> within (pred n) false expression ->
  within n true (unary fuel expression).
Proof.
  revert n. induction fuel as [|fuel IH]; intros n Hfuel Hexpr; [lia|].
  destruct n as [|n]; [apply within_zero|].
  cbn [unary]. within_matches; [|apply call_within; [lia|done]].
  within_read. apply within_bind; [|intros rhs; apply within_ret].
  apply within_weaken, IH; [lia|]. eapply within_mono; [|exact Hexpr]. simpl. lia.
Qed.

Lemma binary_loop_within fuel n token_types operand expr :
  n <= fuel -> within (pred n) false operand ->
  within n false (binary_loop fuel token_types operand expr).
Proof.
  revert n expr. induction fuel as [|fuel IH]; intros n expr Hfuel Hop.
  { replace n with 0 by lia. apply within_zero. }
  cbn [binary_loop]. within_matches; [|apply within_ret].
  within_read. within_binds Hop.
  apply IH; [lia|]. eapply within_mono; [|exact Hop]. lia.
Qed.

(** A level of binary operators: its operand, and the loop. *)
Lemma binary_level_within fuel n token_types operand :
  n <= fuel -> (forall n', n' <= n -> within n' true operand) ->
  within n true
    (bind operand (fun expr => binary_loop fuel token_types operand expr)).
Proof.
  intros Hfuel Hop.
  apply within_bind_strict; [by apply Hop|]. intros expr.
  apply binary_loop_within; [lia|]. apply within_weaken, Hop. lia.
Qed.

Lemma factor_within fuel n expression :
  n < fuel -> within (pred n) false expression ->
  within n true (factor fuel expression).
Proof.
  intros Hfuel Hexpr. apply binary_level_within; [lia|]. intros n' Hn'.
  apply unary_within; [lia|]. eapply within_mono; [|exact Hexpr]. lia.
Qed.

Lemma term_within fuel n expression :
  n < fuel -> within (pred n) false expression ->
  within n true (term fuel expression).
Proof.
  intros Hfuel Hexpr. apply binary_level_within; [lia|]. intros n' Hn'.
  apply factor_within; [lia|]. eapply within_mono; [|exact Hexpr]. lia.
Qed.

Lemma comparison_within fuel n expression :
  n < fuel -> within (pred n) false expression ->
  within n true (comparison fuel expression).
Proof.
  intros Hfuel Hexpr. apply binary_level_within; [lia|]. intros n' Hn'.
  apply term_within; [lia|]. eapply within_mono; [|exact Hexpr]. lia.
Qed.

Lemma equality_within fuel n expression :
  n < fuel -> within (pred n) false expression ->
  within n true (equality fuel expression).
Proof.
  intros Hfuel Hexpr. apply binary_level_within; [lia|]. intros n' Hn'.
  apply comparison_within; [lia|]. eapply within_mono; [|exact Hexpr]. lia.
Qed.

Lemma logical_and_within fuel n expression :
  n < fuel -> within (pred n) false expression ->
  within n true (logical_and fuel expression).
Proof.
  intros Hfuel Hexpr. apply binary_level_within; [lia|]. intros n' Hn'.
  apply equality_within; [lia|]. eapply within_mono; [|exact Hexpr]. lia.
Qed.

Lemma logical_or_within fuel n expression :
  n < fuel -> within (pred n) false expression ->
  within n true (logical_or fuel expression).
Proof.
  intros Hfuel Hexpr. apply binary_level_within; [lia|]. intros n' Hn'.
  apply logical_and_within; [lia|]. eapply within_mono; [|exact Hexpr]. lia.
Qed.

Lemma assignment_within fuel n :
  n + 2 <= fuel -> within n true (assignment fuel).
Proof.
  revert n. induction fuel as [|fuel IH]; intros n Hfuel; [lia|].
  destruct n as [|n]; [apply within_zero|].
  cbn [assignment]. apply within_bind_strict.
  { apply logical_or_within; [lia|]. apply within_weaken, IH. simpl. lia. }
  intros expr. within_matches; [|apply within_ret].
  apply within_bind.
  { apply within_weaken. eapply within_mono; [|apply (IH n)]; simpl; lia. }
  intros value. case_match; first [apply within_ret | within_raises].
Qed.

Lemma expression_within fuel n :
  n + 2 <= fuel -> within n true (expression fuel).
Proof. apply assignment_within. Qed.

Lemma parameters_loop_within fuel n parameters :
  n <= fuel -> within n false (parameters_loop fuel parameters).
Proof.
  revert n parameters. induction fuel as [|fuel IH]; intros n parameters Hfuel.
  { replace n with 0 by lia. apply within_zero. }
  cbn [parameters_loop]. within_matches; [|apply within_ret].
  within_consumes. apply IH. lia.
Qed.

Lemma function_declaration_within fuel n block_statement :
  n <= fuel -> within (pred n) false block_statement ->
  within n true (function_declaration fuel block_statement).
Proof.
  intros Hfuel Hblock. unfold function_declaration.
  within_consumes. within_consumes. within_read.
  apply within_bind.
  { case_match; [apply within_ret|]. within_consumes.
    apply parameters_loop_within. lia. }
  intros parameters. within_consumes. within_consumes.
  apply within_bind.
  { eapply within_mono; [|exact Hblock]. lia. }
  intros body. apply within_ret.
Qed.

Lemma variable_declaration_within n expression :
  within (pred n) false expression ->
  within n true (variable_declaration expression).
Proof.
  intros Hexpr. unfold variable_declaration.
  within_consumes. within_matches.
  - apply within_bind.
    { apply within_bind; [|intros e; apply within_ret].
      eapply within_mono; [|exact Hexpr]. lia. }
    intros initializer. within_consumes. apply within_ret.
  - apply within_bind; [apply within_ret|].
    intros initializer. within_consumes. apply within_ret.
Qed.

Lemma gorun_statement_within n expression :
  within (pred n) false expression -> within n true (gorun_statement expression).
Proof.
  intros Hexpr. unfold gorun_statement.
  within_consumes. within_binds Hexpr.
  within_consumes. within_consumes. apply within_ret.
Qed.

Lemma return_statement_within n expression :
  within n false expression -> within n true (return_statement expression).
Proof.
  intros Hexpr. unfold return_statement. within_read.
  apply within_bind.
  { case_match; [apply within_ret|]. within_binds Hexpr. apply within_ret. }
  intros value. within_consumes. apply within_ret.
Qed.

Lemma if_statement_within n expression statement :
  within (pred n) false expression -> within (pred n) false statement ->
  within n true (if_statement expression statement).
Proof.
  intros Hexpr Hstmt. unfold if_statement.
  within_consumes. within_binds Hexpr. within_consumes.
  apply within_bind; [by eapply within_mono; [|exact Hstmt]; lia|].
  intros then_branch.
  assert (within (pred (pred n)) false statement) as Hstmt'
    by (eapply within_mono; [|exact Hstmt]; lia).
  within_matches.
  - apply within_bind.
    { apply within_bind; [|intros e; apply within_ret].
      eapply within_mono; [|exact Hstmt']. lia. }
    intros else_branch. apply within_ret.
  - apply within_bind; [apply within_ret|]. intros else_branch. apply within_ret.
Qed.

Lemma expression_statement_within n expression :
  within n false expression -> within n true (expression_statement expression).
Proof.
  intros Hexpr. unfold expression_statement.
  within_binds Hexpr. within_consumes. apply within_ret.
Qed.

Lemma while_statement_within n expression statement :
  within (pred n) false expression -> within (pred n) false statement ->
  within n true (while_statement expression statement).
Proof.
  intros Hexpr Hstmt. unfold while_statement.
  within_consumes. within_binds Hexpr. within_consumes.
  apply within_bind; [by eapply within_mono; [|exact Hstmt]; lia|].
  intros body. apply within_ret.
Qed.

Lemma for_statement_within n expression statement :
  within (pred n) false expression -> within (pred n) false statement ->
  within n true (for_statement expression statement).
Proof.
  intros Hexpr Hstmt. unfold for_statement.
  assert (forall n', n' <= pred n -> within n' false expression) as Hexpr'
    by (intros n' Hn'; by eapply within_mono; [|exact Hexpr]).
  assert (forall n', n' <= pred n -> within n' false statement) as Hstmt'
    by (intros n' Hn'; by eapply within_mono; [|exact Hstmt]).
  assert (forall n' (k : option Expression -> M Statement),
            n' <= pred n -> (forall o, within n' false (k o)) ->
            forall c : bool,
              within n' false
                (bind (if c then ret None
                       else bind expression (fun e => ret (Some e))) k))
    as Hclause.
  { intros n' k Hn' Hk c. apply within_bind; [|done].
    destruct c; [apply within_ret|].
    apply within_bind; [by apply Hexpr'|intros e; apply within_ret]. }
  within_consumes. within_matches.
  - apply within_bind; [apply within_ret|]. intros initializer.
    within_read. apply Hclause; [lia|]. intros condition.
    within_consumes. within_read. apply Hclause; [lia|]. intros increment.
    within_consumes. apply within_bind; [apply Hstmt'; lia|].
    intros body. apply within_ret.
  - apply within_bind.
    { within_matches.
      - apply within_bind; [|intros s; apply within_ret].
        apply within_weaken, variable_declaration_within. apply Hexpr'. lia.
      - apply within_bind; [|intros s; apply within_ret].
        apply within_weaken, expression_statement_within. apply Hexpr'. lia. }
    intros initializer.
    within_read. apply Hclause; [lia|]. intros condition.
    within_consumes. within_read. apply Hclause; [lia|]. intros increment.
    within_consumes. apply within_bind; [apply Hstmt'; lia|].
    intros body. apply within_ret.
Qed.

Lemma block_statement_loop_within fuel n declaration statements :
  n <= fuel -> (forall n', n' <= n -> within n' true declaration) ->
  within n false (block_statement_loop fuel declaration statements).
Proof.
  revert n statements. induction fuel as [|fuel IH]; intros n statements Hfuel Hdecl.
  { replace n with 0 by lia. apply within_zero. }
  cbn [block_statement_loop]. within_read. within_read.
  case_match; [|apply within_ret].
  apply within_bind_strict; [by apply Hdecl|]. intros stmt.
  apply IH; [lia|]. intros n' Hn'. apply Hdecl. lia.
Qed.

Lemma block_statement_within fuel n declaration :
  n <= fuel -> (forall n', n' <= n -> within n' true declaration) ->
  within n true (block_statement fuel declaration).
Proof.
  intros Hfuel Hdecl. unfold block_statement.
  apply within_bind; [by apply block_statement_loop_within|]. intros statements.
  within_consumes. apply within_ret.
Qed.

(** Two rounds of the budget for a token, and four for the way down to
    [primary], are enough for a declaration. *)
Lemma declaration_statement_within fuel :
  (forall n, 2 * n + 4 <= fuel -> within n true (declaration fuel))
  /\ (forall n, 2 * n + 3 <= fuel -> within n true (statement fuel)).
Proof.
  induction fuel as [|fuel [IHd IHs]]; [split; intros n Hfuel; lia|].
  split; intros n Hfuel; (destruct n as [|n]; [apply within_zero|]).
  - cbn [declaration]. apply within_resynchronizing.
    within_matches.
    { apply within_weaken, function_declaration_within; [simpl; lia|].
      apply within_weaken, block_statement_within; [simpl; lia|].
      intros n' Hn'. apply IHd. simpl in Hn'. lia. }
    within_matches.
    { apply within_weaken, variable_declaration_within.
      apply within_weaken, expression_within. simpl. lia. }
    apply IHs. lia.
  - cbn [statement].
    assert (forall n', n' <= S n -> within n' false (expression fuel)) as Hexpr.
    { intros n' Hn'. apply within_weaken, expression_within. lia. }
    assert (forall n', n' <= pred n -> within n' false (statement fuel)) as Hstmt.
    { intros n' Hn'. apply within_weaken, IHs. lia. }
    within_matches.
    { apply within_weaken, gorun_statement_within, Hexpr. simpl. lia. }
    within_matches.
    { apply within_weaken, return_statement_within, Hexpr. simpl. lia. }
    within_matches.
    { apply within_weaken, if_statement_within;
        [apply Hexpr|apply Hstmt]; simpl; lia. }
    within_matches.
    { apply within_weaken, for_statement_within;
        [apply Hexpr|apply Hstmt]; simpl; lia. }
    within_matches.
    { apply within_weaken, while_statement_within;
        [apply Hexpr|apply Hstmt]; simpl; lia. }
    within_matches.
    { apply within_bind; [|intros statements; apply within_ret].
      apply within_weaken, block_statement_within; [simpl; lia|].
      intros n' Hn'. apply IHd. simpl in Hn'. lia. }
    apply expression_statement_within, Hexpr. lia.
Qed.

Lemma parse_loop_within fuel n statements :
  2 * n + 5 <= fuel -> within n false (parse_loop fuel statements).
Proof.
  revert n statements. induction fuel as [|fuel IH]; intros n statements Hfuel; [lia|].
  destruct n as [|n]; [apply within_zero|].
  cbn [parse_loop]. within_read. case_match; [apply within_ret|].
  apply within_bind_strict.
  { apply declaration_statement_within. lia. }
  intros stmt. apply IH. simpl. lia.
Qed.

(** What [parse_loop] returns, it returns at the end-of-input token. *)
Lemma parse_loop_ends fuel statements p result p' :
  parse_loop fuel statements p = Returned result p' ->
  is_at_end p' = Returned true p'.
Proof.
  revert statements p. induction fuel as [|fuel IH]; intros statements p; [done|].
  cbn [parse_loop]. unfold bind at 1.
  destruct (is_at_end p) as [e p1|e p1|] eqn:Hend; [|done..].
  assert (p1 = p) as ->.
  { unfold is_at_end, bind, peek, token_at, ret in Hend.
    destruct (tokens p !! current p); by simplify_eq. }
  destruct e; [by intros [= _ <-]|].
  unfold bind. destruct (declaration fuel p) as [stmt p2|e p2|]; [|done..].
  apply IH.
Qed.

(** The parser starts in range on a token list that ends with the
    end-of-input token. *)
Lemma init_in_range toks :
  ends_with_EOF toks ->
  in_range (init toks) /\ left_over (init toks) <= List.length toks.
Proof.
  intros (e & Hlast & He). apply last_Some in Hlast as [body ->].
  unfold in_range, left_over, init. cbn [tokens current].
  rewrite filter_app.
  assert (filter (fun t => type t <> WHITESPACE /\ type t <> NEWLINE) [e] = [e])
    as ->.
  { rewrite filter_cons_True; [done|]. rewrite He. done. }
  repeat split.
  - exists e. by rewrite last_snoc.
  - rewrite length_app. simpl. lia.
  - rewrite !length_app. simpl.
    pose proof (length_filter (fun t => type t <> WHITESPACE /\ type t <> NEWLINE)
                  body). lia.
Qed.

(** The exceptions of a parse are no [IndexError]. *)
Lemma allowed_no_IndexError e : allowed e -> e <> HostError IndexError.
Proof. by intros [[msg ->]| ->]. Qed.

(** On a token list that ends with the end-of-input token, and whose
    number tokens hold digits and dots as those of the lexer do, the
    parser comes to an end and reads no token out of range: it raises no
    [IndexError]. It leaves the token list as it is; where it returns it
    stands at the end-of-input token, and where it raises the position is
    inside the token list. *)
Theorem parse_comes_to_an_end toks :
  ends_with_EOF toks ->
  Forall (fun t => type t = NUMBER -> all_chars number_char (value t) = true)
         toks ->
  match parse toks with
  | Returned program p' =>
      tokens p' = tokens (init toks) /\ is_at_end p' = Returned true p'
  | Raised e p' =>
      tokens p' = tokens (init toks) /\ current p' < List.length (tokens p')
      /\ e <> HostError IndexError
  | Exhausted => False
  end.
Proof.
  intros Htoks _. destruct (init_in_range toks Htoks) as [Hp Hn].
  unfold parse, parse_with, bind.
  pose proof (parse_loop_within (4 * List.length toks + 8)
                (List.length toks) [] ltac:(lia) (init toks) Hp Hn) as Hmoves.
  destruct (parse_loop _ _ _) as [statements p'|e p'|] eqn:Hloop;
    simpl in *; [| |done].
  - split; [by destruct Hmoves|]. by eapply parse_loop_ends.
  - destruct Hmoves as (? & ? & ? & ?). by auto using allowed_no_IndexError.
Qed.

(** Lexer and parser on any source text come to an end: the lexer raises
    a [SyntaxError] or a [TypeError], or it hands the parser a token list
    that ends with the end-of-input token, on which the parser returns a
    program at the end-of-input token, or raises with its position inside
    the token list, and never an [IndexError]. *)
Theorem parse_source_comes_to_an_end text :
  match parse_source text with
  | inl e => (exists msg, e = SyntaxError msg) \/ e = TypeError
  | inr (Returned program p') => is_at_end p' = Returned true p'
  | inr (Raised e p') =>
      current p' < List.length (tokens p') /\ e <> HostError IndexError
  | inr Exhausted => False
  end.
Proof.
  unfold parse_source, tokenize.
  pose proof (LexerShape.tokenize_loop_lexed (S (String.length text))
                (Lexer.init text) []) as Hlexed.
  destruct (tokenize_loop _ _ _) as [toks|e|].
  - destruct Hlexed as (body & eof & -> & Heof & _);
      [unfold remaining; simpl; lia|done|constructor|].
    assert (ends_with_EOF (body ++ [eof])) as Htoks
      by (exists eof; by rewrite last_snoc).
    destruct (init_in_range _ Htoks) as [Hp Hn].
    unfold parse, parse_with, bind.
    pose proof (parse_loop_within (4 * List.length (body ++ [eof]) + 8)
                  (List.length (body ++ [eof])) [] ltac:(lia) _ Hp Hn) as Hmoves.
    destruct (parse_loop _ _ _) as [statements p'|e p'|] eqn:Hloop;
      simpl in *; [| |done].
    + by eapply parse_loop_ends.
    + destruct Hmoves as (_ & _ & ? & ?). by auto using allowed_no_IndexError.
  - apply Hlexed; [unfold remaining; simpl; lia|done|constructor].
  - apply Hlexed; [unfold remaining; simpl; lia|done|constructor].
Qed.

End Grammar.

Lemma parse_comes_to_an_end_witness :
  ends_with_EOF
    [mkToken NUMBER "1" 1 1; mkToken SEMICOLON ";" 1 2; mkToken EOF "" 1 3]
  /\ Forall (fun t => type t = NUMBER -> all_chars number_char (value t) = true)
       [mkToken NUMBER "1" 1 1; mkToken SEMICOLON ";" 1 2; mkToken EOF "" 1 3]
  /\ match @parse Binary64.host_float
             [mkToken NUMBER "1" 1 1; mkToken SEMICOLON ";" 1 2;
              mkToken EOF "" 1 3] with
     | Returned program p' => is_at_end p' = Returned true p'
     | Raised e p' => e <> HostError IndexError
     | Exhausted => False
     end.
Proof.
  assert (ends_with_EOF
            [mkToken NUMBER "1" 1 1; mkToken SEMICOLON ";" 1 2;
             mkToken EOF "" 1 3]) as Htoks.
  { exists (mkToken EOF "" 1 3). split; reflexivity. }
  assert (Forall (fun t => type t = NUMBER
                           -> all_chars number_char (value t) = true)
            [mkToken NUMBER "1" 1 1; mkToken SEMICOLON ";" 1 2;
             mkToken EOF "" 1 3]) as Hnumbers.
  { repeat (apply Forall_cons; split;
              [intros Ht; first [reflexivity|discriminate Ht]|]).
    constructor. }
  split; [exact Htoks|]. split; [exact Hnumbers|].
  pose proof (@parse_comes_to_an_end Binary64.host_float _ Htoks Hnumbers)
    as Hparse.
  destruct (parse _) as [program p'|e p'|]; [|..|done].
  - by destruct Hparse.
  - by destruct Hparse as (_ & _ & ?).
Defined.

(** *** [synchronize] *)

Lemma token_at_same i p t p' : token_at i p = Returned t p' -> p' = p.
Proof. unfold token_at. destruct (tokens p !! i); by intros [= _ <-]. Qed.

Lemma token_at_raises i p e p' :
  token_at i p = Raised e p' -> e = HostError IndexError /\ p' = p.
Proof. unfold token_at. destruct (tokens p !! i); by intros [= <- <-]. Qed.

Lemma synchronize_loop_synchronized fuel p p' :
  synchronize_loop fuel p = Returned tt p' -> synchronized p'.
Proof.
  revert p. induction fuel as [|fuel IH]; intros p; [done|].
  cbn [synchronize_loop]. unfold bind at 1.
  destruct (is_at_end p) as [e p1|e p1|] eqn:Hend; [|done..].
  assert (p1 = p) as ->.
  { unfold is_at_end, bind, peek, ret in Hend.
    destruct (token_at (current p) p) as [t p1'|e' p1'|] eqn:Ht; [|done..].
    apply token_at_same in Ht. by simplify_eq. }
  destruct e; [intros [= <-]; by left|].
  unfold bind at 1. destruct (previous p) as [prev p2|e p2|] eqn:Hprev; [|done..].
  assert (p2 = p) as ->.
  { unfold previous in Hprev. destruct (current p); by apply token_at_same in Hprev. }
  destruct (bool_decide (type prev = SEMICOLON)) eqn:Hsemi.
  { intros [= <-]. right; left. apply bool_decide_eq_true_1 in Hsemi. eauto. }
  unfold bind at 1. destruct (peek p) as [t p3|e p3|] eqn:Hpeek; [|done..].
  assert (p3 = p) as -> by (by apply token_at_same in Hpeek).
  destruct (bool_decide (type t ∈ [FUNC; LET; FOR; IF; WHILE; GORUN; RETURN]))
    eqn:Hstart.
  { intros [= <-]. right; right. apply bool_decide_eq_true_1 in Hstart. eauto. }
  unfold bind. destruct (advance p) as [t' p4|e p4|]; [|done..].
  apply IH.
Qed.

(** The token methods raise nothing but the [IndexError] of the list. *)
Lemma is_at_end_raises p e p' :
  is_at_end p = Raised e p' -> e = HostError IndexError.
Proof.
  unfold is_at_end, bind, peek, ret.
  destruct (token_at (current p) p) as [t p1|e1 p1|] eqn:Ht; [done| |done].
  intros [= <- <-]. by apply token_at_raises in Ht as [-> _].
Qed.

Lemma previous_raises p e p' :
  previous p = Raised e p' -> e = HostError IndexError.
Proof.
  unfold previous. destruct (current p); intros Ht;
    by apply token_at_raises in Ht as [-> _].
Qed.

Lemma advance_raises p e p' :
  advance p = Raised e p' -> e = HostError IndexError.
Proof.
  unfold advance. unfold bind at 1.
  destruct (is_at_end p) as [b p1|e1 p1|] eqn:Hend; [| |done].
  - unfold bind. destruct b; simpl; apply previous_raises.
  - intros [= <- <-]. by apply is_at_end_raises in Hend.
Qed.

Lemma synchronize_loop_raises fuel p e p' :
  synchronize_loop fuel p = Raised e p' -> e = HostError IndexError.
Proof.
  revert p. induction fuel as [|fuel IH]; intros p; [done|].
  cbn [synchronize_loop]. unfold bind at 1.
  destruct (is_at_end p) as [b p1|e1 p1|] eqn:Hend; [| |done].
  2: { intros [= <- <-]. by apply is_at_end_raises in Hend. }
  destruct b; [done|].
  unfold bind at 1. destruct (previous p1) as [prev p2|e2 p2|] eqn:Hprev; [| |done].
  2: { intros [= <- <-]. by apply previous_raises in Hprev. }
  case_match; [done|].
  unfold bind at 1. destruct (peek p2) as [t p3|e3 p3|] eqn:Hpeek; [| |done].
  2: { intros [= <- <-]. by apply token_at_raises in Hpeek as [-> _]. }
  case_match; [done|].
  unfold bind. destruct (advance p3) as [t' p4|e4 p4|] eqn:Hadv; [| |done].
  - apply IH.
  - intros [= <- <-]. by apply advance_raises in Hadv.
Qed.

Lemma synchronize_raises p e p' :
  synchronize p = Raised e p' -> e = HostError IndexError.
Proof.
  unfold synchronize, bind. destruct (advance p) as [t p1|e1 p1|] eqn:Hadv; [| |done].
  - apply synchronize_loop_raises.
  - intros [= <- <-]. by apply advance_raises in Hadv.
Qed.

(** Where [synchronize] returns, the parser is at the end, after a
    semicolon or before a token that starts a statement. *)
Theorem synchronize_stops_at_a_boundary p p' :
  synchronize p = Returned tt p' -> synchronized p'.
Proof.
  unfold synchronize, bind. destruct (advance p) as [t p1|e p1|]; [|done..].
  apply synchronize_loop_synchronized.
Qed.

Lemma synchronize_stops_at_a_boundary_witness :
  synchronize (mkParser [mkToken PLUS "+" 1 1; mkToken SEMICOLON ";" 1 2;
                         mkToken IDENTIFIER "x" 1 3; mkToken EOF "" 1 4] 0)
  = Returned tt (mkParser [mkToken PLUS "+" 1 1; mkToken SEMICOLON ";" 1 2;
                           mkToken IDENTIFIER "x" 1 3; mkToken EOF "" 1 4] 2)
  /\ synchronized (mkParser [mkToken PLUS "+" 1 1; mkToken SEMICOLON ";" 1 2;
                             mkToken IDENTIFIER "x" 1 3; mkToken EOF "" 1 4] 2).
Proof.
  assert (synchronize (mkParser [mkToken PLUS "+" 1 1; mkToken SEMICOLON ";" 1 2;
                         mkToken IDENTIFIER "x" 1 3; mkToken EOF "" 1 4] 0)
  = Returned tt (mkParser [mkToken PLUS "+" 1 1; mkToken SEMICOLON ";" 1 2;
                           mkToken IDENTIFIER "x" 1 3; mkToken EOF "" 1 4] 2))
    as Hrun by (vm_compute; reflexivity).
  split; [exact Hrun|]. exact (synchronize_stops_at_a_boundary _ _ Hrun).
Defined.

(** A [ParseError] leaves [declaration] after [synchronize] has run: the
    parser stands at a boundary. *)
Theorem declaration_error_is_synchronized `{HostFloat} fuel p msg p' :
  declaration fuel p = Raised (ParseError msg) p' -> synchronized p'.
Proof.
  destruct fuel as [|fuel]; [done|].
  cbn [declaration]. unfold resynchronizing.
  destruct (bind _ _ p) as [stmt p1|e p1|]; [done| |done].
  destruct e as [msg1|e]; [|done].
  destruct (synchronize p1) as [[] p2|e p2|] eqn:Hsync; [| |done].
  - intros [= _ <-]. unfold synchronize, bind in Hsync.
    destruct (advance p1) as [t p3|e p3|]; [|done..].
    by apply synchronize_loop_synchronized in Hsync.
  - intros [= -> _]. by apply synchronize_raises in Hsync.
Qed.

Lemma declaration_without_a_name `{HostFloat} :
  declaration 8
    (mkParser [mkToken LET "let" 1 1; mkToken PLUS "+" 1 5;
               mkToken SEMICOLON ";" 1 6; mkToken EOF "" 1 7] 0)
  = Raised (ParseError "Expected variable name. Got PLUS at line 1")
      (mkParser [mkToken LET "let" 1 1; mkToken PLUS "+" 1 5;
                 mkToken SEMICOLON ";" 1 6; mkToken EOF "" 1 7] 3).
Proof. vm_compute. reflexivity. Qed.

Lemma declaration_error_is_synchronized_witness :
  @declaration Binary64.host_float 8
    (mkParser [mkToken LET "let" 1 1; mkToken PLUS "+" 1 5;
               mkToken SEMICOLON ";" 1 6; mkToken EOF "" 1 7] 0)
  = Raised (ParseError "Expected variable name. Got PLUS at line 1")
      (mkParser [mkToken LET "let" 1 1; mkToken PLUS "+" 1 5;
                 mkToken SEMICOLON ";" 1 6; mkToken EOF "" 1 7] 3)
  /\ synchronized
       (mkParser [mkToken LET "let" 1 1; mkToken PLUS "+" 1 5;
                  mkToken SEMICOLON ";" 1 6; mkToken EOF "" 1 7] 3).
Proof.
  split; [exact (@declaration_without_a_name Binary64.host_float)|].
  exact (@declaration_error_is_synchronized Binary64.host_float _ _ _ _
           (@declaration_without_a_name Binary64.host_float)).
Defined.

End ParserMoves.

(** ** The laws of the environments *)
Module EnvironmentLaws.
Import Interp EnvironmentFacts.

Section Laws.
Context `{HostFloat}.

(** Reading after [define]: the new value under the name, and what was
    read before under every other name. *)
Theorem get_after_define h e name value x :
  e < List.length h ->
  get (define h e name value) e x
  = if decide (x = name) then Some value else get h e x.
Proof.
  induction h as [|env older IH]; simpl; [lia|]. intros Hlt.
  destruct (decide (e = List.length older)) as [->|Hne]; simpl.
  - rewrite decide_True by done.
    destruct (decide (x = name)) as [->|Hx].
    + by rewrite lookup_insert_eq.
    + by rewrite lookup_insert_ne.
  - rewrite define_length, decide_False by done. apply IH. lia.
Qed.

(** The walk of [get] only looks at the parents and at which environments
    define the name. *)
Lemma defining_scope_ext h h' e x :
  List.length h' = List.length h ->
  (forall d, parent_of h' d = parent_of h d) ->
  (forall d, is_Some (binding h' d x) <-> is_Some (binding h d x)) ->
  defining_scope h' e x = defining_scope h e x.
Proof.
  revert h' e. induction h as [|env older IH]; intros [|env' older'] e Hlen Hpar Hdef;
    simpl in *; try done.
  assert (List.length older' = List.length older) as Hlen' by lia.
  assert (forall d, parent_of older' d = parent_of older d) as Hpar'.
  { intros d. destruct (decide (d = List.length older)) as [->|Hd].
    - unfold parent_of. rewrite !heap_lookup_ge by lia. done.
    - specialize (Hpar d).
      rewrite !parent_of_cons_older in Hpar by lia. done. }
  assert (forall d, is_Some (binding older' d x) <-> is_Some (binding older d x))
    as Hdef'.
  { intros d. destruct (decide (d = List.length older)) as [->|Hd].
    - unfold binding. rewrite !heap_lookup_ge by lia. done.
    - specialize (Hdef d).
      rewrite !binding_cons_older in Hdef by lia. done. }
  rewrite Hlen'.
  destruct (decide (e = List.length older)) as [->|Hne]; [|by apply IH].
  specialize (Hdef (List.length older)).
  rewrite <- Hlen' in Hdef at 1. rewrite !binding_cons_top in Hdef.
  specialize (Hpar (List.length older)). unfold parent_of in Hpar. simpl in Hpar.
  rewrite Hlen', !decide_True in Hpar by done. simpl in Hpar.
  destruct (variables env' !! x) as [v'|] eqn:Hv', (variables env !! x) as [v|] eqn:Hv;
    try done.
  - destruct Hdef as [Hdef _]. by destruct Hdef.
  - destruct Hdef as [_ Hdef]. by destruct Hdef.
  - rewrite Hpar. destruct (parent env) as [p|]; [by apply IH|done].
Qed.

(** [get] finds a variable exactly where [assign] finds it. *)
Theorem get_defined_iff_assign_defined h e name value :
  is_Some (get h e name) <-> is_Some (assign h e name value).
Proof.
  rewrite get_defining_scope. pose proof (assign_spec h e name value) as Hassign.
  destruct (defining_scope h e name) as [d|] eqn:Hd; simpl.
  - destruct Hassign as (h' & -> & _).
    split; [eauto|]. intros _. by eapply defining_scope_defines.
  - rewrite Hassign. done.
Qed.

(** What assignment does to every read: a read of the same name that ends
    in the same environment gets the new value, every other read gets
    what it got before. *)
Theorem get_after_assign_anywhere h e name value h' e' x :
  assign h e name value = Some h' ->
  get h' e' x
  = if decide (x = name /\ defining_scope h e' x = defining_scope h e name)
    then Some value else get h e' x.
Proof.
  intros Hassign. pose proof (assign_spec h e name value) as Hspec.
  destruct (defining_scope h e name) as [d|] eqn:Hd; [|congruence].
  destruct Hspec as (h'' & Heq & Hlen & Hpar & Hbind).
  assert (h'' = h') as -> by congruence.
  assert (defining_scope h' e' x = defining_scope h e' x) as Hsame.
  { apply defining_scope_ext; [done..|]. intros d'. rewrite Hbind.
    destruct (decide (d' = d /\ x = name)) as [[-> ->]|]; [|done].
    split; [|eauto]. intros _. by eapply defining_scope_defines. }
  rewrite !get_defining_scope, Hsame.
  destruct (defining_scope h e' x) as [d'|] eqn:Hd'; simpl.
  - rewrite Hbind.
    destruct (decide (d' = d /\ x = name)) as [[-> ->]|Hno].
    + by rewrite decide_True.
    + rewrite decide_False; [done|]. intros [-> [= ->]]. by apply Hno.
  - rewrite decide_False; [done|]. by intros [_ [=]].
Qed.

(** A new environment under [e] reads what [e] reads; a definition in it
    is read there and shadows the name, and no older environment sees
    it. *)
Theorem child_scope_shadows h e name value e' x :
  e' <> (allocate (Some e) h).1 ->
  get (allocate (Some e) h).2 (allocate (Some e) h).1 x = get h e x
  /\ get (define (allocate (Some e) h).2 (allocate (Some e) h).1 name value)
         (allocate (Some e) h).1 x
     = (if decide (x = name) then Some value else get h e x)
  /\ get (define (allocate (Some e) h).2 (allocate (Some e) h).1 name value) e' x
     = get h e' x.
Proof.
  intros Hne. unfold allocate in *. simpl in *.
  rewrite !decide_True by done. rewrite lookup_empty. simpl.
  split; [done|]. split.
  - rewrite decide_True by done.
    destruct (decide (x = name)) as [->|Hx].
    + by rewrite lookup_insert_eq.
    + by rewrite lookup_insert_ne, lookup_empty.
  - by rewrite decide_False.
Qed.

End Laws.

Lemma get_after_define_witness :
  0 < List.length [mkEnvironment ∅ None]
  /\ get (define [mkEnvironment ∅ None] 0 "x" (VInt 1)) 0 "x"
     = (if decide ("x" = "x") then Some (VInt 1)
        else get [mkEnvironment ∅ None] 0 "x").
Proof.
  split; [simpl; lia|].
  apply (get_after_define [mkEnvironment ∅ None] 0 "x" (VInt 1) "x").
  simpl. lia.
Defined.

Lemma get_after_assign_anywhere_witness :
  assign [mkEnvironment ∅ (Some 0); mkEnvironment {[ "x" := VInt 0 ]} None]
         1 "x" (VInt 5)
  = Some [mkEnvironment ∅ (Some 0);
          mkEnvironment (<[ "x" := VInt 5 ]> {[ "x" := VInt 0 ]}) None]
  /\ get [mkEnvironment ∅ (Some 0);
          mkEnvironment (<[ "x" := VInt 5 ]> {[ "x" := VInt 0 ]}) None] 0 "x"
     = (if decide
             ("x" = "x"
              /\ defining_scope
                   [mkEnvironment ∅ (Some 0); mkEnvironment {[ "x" := VInt 0 ]} None]
                   0 "x"
                 = defining_scope
                     [mkEnvironment ∅ (Some 0); mkEnvironment {[ "x" := VInt 0 ]} None]
                     1 "x")
        then Some (VInt 5)
        else get [mkEnvironment ∅ (Some 0); mkEnvironment {[ "x" := VInt 0 ]} None]
                 0 "x").
Proof.
  split; [reflexivity|].
  apply (get_after_assign_anywhere
           [mkEnvironment ∅ (Some 0); mkEnvironment {[ "x" := VInt 0 ]} None]
           1 "x" (VInt 5)).
  reflexivity.
Defined.

Lemma child_scope_shadows_witness :
  0 <> (allocate (Some 0) [mkEnvironment {[ "x" := VInt 1 ]} None]).1
  /\ get (define (allocate (Some 0) [mkEnvironment {[ "x" := VInt 1 ]} None]).2
                 (allocate (Some 0) [mkEnvironment {[ "x" := VInt 1 ]} None]).1
                 "x" (VInt 2))
         0 "x"
     = get [mkEnvironment {[ "x" := VInt 1 ]} None] 0 "x".
Proof.
  split; [simpl; lia|].
  apply (child_scope_shadows [mkEnvironment {[ "x" := VInt 1 ]} None] 0
           "x" (VInt 2) 0 "x").
  simpl. lia.
Defined.

End EnvironmentLaws.

(** ** The interpreter: what every visit keeps *)
Module InterpreterKeeps.
Import Ast Interp EnvironmentFacts InterpreterShape.

Section Keeps.
Context `{HostObjects}.

Lemma extends_refl h : extends h h.
Proof. split; [lia|done]. Qed.

Lemma extends_trans h1 h2 h3 : extends h1 h2 -> extends h2 h3 -> extends h1 h3.
Proof.
  intros [Hl1 Hp1] [Hl2 Hp2]. split; [lia|]. intros e He.
  rewrite Hp2 by lia. by apply Hp1.
Qed.

Lemma extends_define h e name value : extends h (define h e name value).
Proof.
  split; [by rewrite define_length|]. intros e' _. apply define_parent_of.
Qed.

Lemma extends_assign h e name value h' :
  assign h e name value = Some h' -> extends h h'.
Proof.
  intros Hassign. pose proof (assign_spec h e name value) as Hspec.
  destruct (defining_scope h e name) as [d|]; [|congruence].
  destruct Hspec as (h'' & Heq & Hlen & Hpar & _).
  assert (h'' = h') as -> by congruence.
  split; [lia|]. intros e' _. apply Hpar.
Qed.

Lemma extends_allocate h parent : extends h (allocate parent h).2.
Proof.
  unfold allocate. simpl. split; [simpl; lia|]. intros e He.
  apply parent_of_cons_older. lia.
Qed.

Lemma extends_bind_parameters h env i parameters arguments :
  extends h (bind_parameters h env i parameters arguments).
Proof.
  split; [by rewrite bind_parameters_length|]. intros e _.
  apply bind_parameters_parent_of.
Qed.

Lemma follows_refl st : follows st st.
Proof.
  split; [done|]. split; [apply extends_refl|]. split; [lia|].
  split; [exists []; by rewrite app_nil_r|done].
Qed.

Lemma follows_trans st1 st2 st3 :
  follows st1 st2 -> follows st2 st3 -> follows st1 st3.
Proof.
  intros (Hg1 & Hh1 & Ho1 & [l1 Hout1] & He1) (Hg2 & Hh2 & Ho2 & [l2 Hout2] & He2).
  split; [congruence|]. split; [by eapply extends_trans|]. split; [lia|].
  split; [|congruence].
  exists (l1 ++ l2). by rewrite Hout2, Hout1, app_assoc.
Qed.

Lemma follows_with_heap st h : extends (heap st) h -> follows st (with_heap h st).
Proof.
  intros Hh. split; [done|]. split; [done|]. split; [simpl; lia|].
  split; [exists []; by rewrite app_nil_r|done].
Qed.

Lemma follows_with_environment st e : follows st (with_environment e st).
Proof. exact (follows_refl st). Qed.

Lemma keeps_ret {A} (a : A) : keeps (ret a).
Proof. intros st. split; [done|apply follows_refl]. Qed.

Lemma keeps_raise {A} s : keeps (raise s : M A).
Proof. intros st. split; [done|apply follows_refl]. Qed.

Lemma keeps_host {A} (r : py_exception + A) : keeps (host r).
Proof. destruct r; [apply keeps_raise|apply keeps_ret]. Qed.

Lemma kept_trans {B} st st' (r : outcome B) :
  environment st' = environment st -> follows st st' ->
  kept st' r -> kept st r.
Proof.
  intros Henv Hf. destruct r as [b st''|s st''|]; simpl; [| |done];
    intros [Henv' Hf']; (split; [congruence|by eapply follows_trans]).
Qed.

Lemma keeps_bind {A B} (m : M A) (k : A -> M B) :
  keeps m -> (forall a, keeps (k a)) -> keeps (bind m k).
Proof.
  intros Hm Hk st. unfold bind. specialize (Hm st).
  destruct (m st) as [a st'|s st'|]; [|done..].
  destruct Hm as [Henv Hf]. eapply kept_trans; [done..|]. apply Hk.
Qed.

(** The body of a [try ... finally] that sets the environment back, run
    in another environment. *)
Lemma keeps_restoring {A} (body : M A) env :
  keeps body ->
  keeps (fun st =>
           restoring (environment st)
             (fun st0 => body (with_environment env st0)) st).
Proof.
  intros Hbody st. unfold restoring.
  specialize (Hbody (with_environment env st)).
  destruct (body _) as [a st'|s st'|]; simpl in *; [| |done];
    destruct Hbody as [_ Hf]; (split; [done|]); apply Hf.
Qed.

Lemma keeps_execute_all execute statements :
  (forall s, keeps (execute s)) -> keeps (execute_all execute statements).
Proof.
  intros Hex. induction statements as [|s others IH]; simpl; [apply keeps_ret|].
  apply keeps_bind; [apply Hex|done].
Qed.

Lemma keeps_execute_block execute statements env :
  (forall s, keeps (execute s)) -> keeps (execute_block execute statements env).
Proof.
  intros Hex. apply (keeps_restoring (execute_all execute statements)).
  by apply keeps_execute_all.
Qed.

Lemma keeps_visit_identifier name : keeps (visit_identifier name).
Proof.
  intros st. unfold visit_identifier.
  destruct (get _ _ _); [apply keeps_ret|apply keeps_raise].
Qed.

Lemma keeps_binary_operation operator l r : keeps (binary_operation operator l r).
Proof.
  unfold binary_operation.
  repeat case_match; first [apply keeps_ret | apply keeps_raise | apply keeps_host].
Qed.

Lemma keeps_visit_binary evaluate l operator r :
  (forall e, keeps (evaluate e)) -> keeps (visit_binary evaluate l operator r).
Proof.
  intros Hev. unfold visit_binary.
  apply keeps_bind; [apply Hev|]. intros lv.
  apply keeps_bind; [apply Hev|]. intros rv. apply keeps_binary_operation.
Qed.

Lemma keeps_visit_unary evaluate operator operand :
  (forall e, keeps (evaluate e)) -> keeps (visit_unary evaluate operator operand).
Proof.
  intros Hev. unfold visit_unary. apply keeps_bind; [apply Hev|]. intros v.
  repeat case_match; first [apply keeps_ret | apply keeps_raise | apply keeps_host].
Qed.

(** A state with a heap that extends the heap, used as the start of a
    method. *)
Lemma kept_from_heap {A} st h (r : outcome A) :
  extends (heap st) h -> kept (with_heap h st) r -> kept st r.
Proof.
  intros Hh. apply kept_trans; [done|by apply follows_with_heap].
Qed.

Lemma keeps_KSFunction_call execute parameters body closure arguments :
  (forall s, keeps (execute s)) ->
  keeps (KSFunction_call execute parameters body closure arguments).
Proof.
  intros Hex st. unfold KSFunction_call, allocate.
  set (h := bind_parameters _ _ _ _ _).
  pose proof (keeps_execute_block execute body (List.length (heap st)) Hex
                (with_heap h st)) as Hblock.
  assert (extends (heap st) h) as Hh.
  { eapply extends_trans; [apply (extends_allocate _ (Some closure))|].
    apply extends_bind_parameters. }
  destruct (execute_block _ _ _ _) as [[] st'|s st'|]; [| |done].
  - by apply (kept_from_heap (A:=Value) st h (Returned VNone st')) in Hblock.
  - destruct s as [msg|value|e].
    + by apply (kept_from_heap st h (Raised (KSRuntimeError msg) st')) in Hblock.
    + by apply (kept_from_heap (A:=Value) st h (Returned value st')) in Hblock.
    + by apply (kept_from_heap st h (Raised (HostError e) st')) in Hblock.
Qed.

Lemma keeps_evaluate_arguments evaluate args arguments :
  (forall e, keeps (evaluate e)) ->
  keeps (evaluate_arguments evaluate args arguments).
Proof.
  intros Hev. revert arguments.
  induction args as [|arg others IH]; intros arguments; simpl; [apply keeps_ret|].
  apply keeps_bind; [apply Hev|]. intros v. apply IH.
Qed.

Lemma keeps_call_value execute callee arguments :
  (forall s, keeps (execute s)) -> keeps (call_value execute callee arguments).
Proof.
  intros Hex. unfold call_value. destruct callee; try apply keeps_raise.
  case_match; [apply keeps_raise|by apply keeps_KSFunction_call].
Qed.

Lemma keeps_visit_call evaluate execute function arguments :
  (forall e, keeps (evaluate e)) -> (forall s, keeps (execute s)) ->
  keeps (visit_call evaluate execute function arguments).
Proof.
  intros Hev Hex. unfold visit_call.
  apply keeps_bind; [apply Hev|]. intros callee.
  apply keeps_bind; [by apply keeps_evaluate_arguments|]. intros values.
  by apply keeps_call_value.
Qed.

Lemma keeps_visit_assignment evaluate target value :
  (forall e, keeps (evaluate e)) -> keeps (visit_assignment evaluate target value).
Proof.
  intros Hev. unfold visit_assignment.
  apply keeps_bind; [apply Hev|]. intros v st.
  destruct (assign _ _ _ _) as [h|] eqn:Hassign; [|apply keeps_raise].
  split; [done|]. apply follows_with_heap. by eapply extends_assign.
Qed.

Lemma keeps_define_current name value : keeps (define_current name value).
Proof.
  intros st. split; [done|]. apply follows_with_heap, extends_define.
Qed.

Lemma keeps_visit_variable_declaration evaluate name initializer :
  (forall e, keeps (evaluate e)) ->
  keeps (visit_variable_declaration evaluate name initializer).
Proof.
  intros Hev. unfold visit_variable_declaration.
  apply keeps_bind; [destruct initializer; [apply Hev|apply keeps_ret]|].
  intros value. apply keeps_define_current.
Qed.

Lemma keeps_visit_function_declaration name parameters body :
  keeps (visit_function_declaration name parameters body).
Proof.
  intros st. unfold visit_function_declaration, define_current. simpl.
  split; [done|]. split; [done|]. split; [apply extends_define|].
  split; [simpl; lia|]. split; [exists []; by rewrite app_nil_r|done].
Qed.

Lemma keeps_visit_expression_statement evaluate expression :
  (forall e, keeps (evaluate e)) ->
  keeps (visit_expression_statement evaluate expression).
Proof.
  intros Hev. unfold visit_expression_statement.
  apply keeps_bind; [apply Hev|]. intros _. apply keeps_ret.
Qed.

Lemma keeps_visit_block_statement execute statements :
  (forall s, keeps (execute s)) -> keeps (visit_block_statement execute statements).
Proof.
  intros Hex st. unfold visit_block_statement, allocate.
  eapply kept_from_heap; [apply (extends_allocate _ (Some (environment st)))|].
  by apply keeps_execute_block.
Qed.

Lemma keeps_visit_if_statement evaluate execute condition then_branch else_branch :
  (forall e, keeps (evaluate e)) -> (forall s, keeps (execute s)) ->
  keeps (visit_if_statement evaluate execute condition then_branch else_branch).
Proof.
  intros Hev Hex. unfold visit_if_statement.
  apply keeps_bind; [apply Hev|]. intros v.
  destruct (is_truthy v); [apply Hex|].
  destruct else_branch; [apply Hex|apply keeps_ret].
Qed.

Lemma keeps_for_loop fuel evaluate execute condition increment body :
  (forall e, keeps (evaluate e)) -> (forall s, keeps (execute s)) ->
  keeps (for_loop fuel evaluate execute condition increment body).
Proof.
  intros Hev Hex. induction fuel as [|fuel IH]; [done|].
  cbn [for_loop]. apply keeps_bind.
  { destruct condition; [|apply keeps_ret].
    apply keeps_bind; [apply Hev|]. intros v. apply keeps_ret. }
  intros [|]; [|apply keeps_ret].
  apply keeps_bind; [apply Hex|]. intros _.
  apply keeps_bind; [|done].
  destruct increment; [|apply keeps_ret].
  apply keeps_bind; [apply Hev|]. intros v. apply keeps_ret.
Qed.

Lemma keeps_visit_for_statement fuel evaluate execute initializer condition
    increment body :
  (forall e, keeps (evaluate e)) -> (forall s, keeps (execute s)) ->
  keeps (visit_for_statement fuel evaluate execute initializer condition
                             increment body).
Proof.
  intros Hev Hex st. unfold visit_for_statement, allocate.
  eapply kept_from_heap; [apply (extends_allocate _ (Some (environment st)))|].
  refine (keeps_restoring
            (bind (match initializer with
                   | Some s => execute s
                   | None => ret tt
                   end)
                  (fun _ => for_loop fuel evaluate execute condition increment body))
            (List.length (heap st)) _
            (with_heap (mkEnvironment ∅ (Some (environment st)) :: heap st) st)).
  apply keeps_bind; [destruct initializer; [apply Hex|apply keeps_ret]|].
  intros _. by apply keeps_for_loop.
Qed.

Lemma keeps_visit_while_statement fuel evaluate execute condition body :
  (forall e, keeps (evaluate e)) -> (forall s, keeps (execute s)) ->
  keeps (visit_while_statement fuel evaluate execute condition body).
Proof.
  intros Hev Hex. induction fuel as [|fuel IH]; [done|].
  cbn [visit_while_statement]. apply keeps_bind; [apply Hev|]. intros v.
  destruct (is_truthy v); [|apply keeps_ret].
  apply keeps_bind; [apply Hex|done].
Qed.

Lemma keeps_visit_return_statement {A} evaluate value :
  (forall e, keeps (evaluate e)) ->
  keeps (visit_return_statement evaluate value : M A).
Proof.
  intros Hev. unfold visit_return_statement.
  apply keeps_bind; [destruct value; [apply Hev|apply keeps_ret]|].
  intros v. apply keeps_raise.
Qed.

Lemma keeps_print text : keeps (print text).
Proof.
  intros st. split; [done|]. split; [done|]. split; [apply extends_refl|].
  split; [simpl; lia|]. split; [by exists [text]|done].
Qed.

Lemma keeps_visit_gorun_statement evaluate expression :
  (forall e, keeps (evaluate e)) ->
  keeps (visit_gorun_statement evaluate expression).
Proof.
  intros Hev. unfold visit_gorun_statement.
  apply keeps_bind; [apply Hev|]. intros v. apply keeps_print.
Qed.

Lemma keeps_evaluate_execute fuel :
  (forall e, keeps (evaluate fuel e)) /\ (forall s, keeps (execute fuel s)).
Proof.
  induction fuel as [|fuel [IHev IHex]]; [by split|].
  split.
  - intros [value ?|name|l operator r|operator operand|function arguments
           |target value]; cbn [evaluate].
    + apply keeps_ret.
    + apply keeps_visit_identifier.
    + by apply keeps_visit_binary.
    + by apply keeps_visit_unary.
    + by apply keeps_visit_call.
    + by apply keeps_visit_assignment.
  - intros []; cbn [execute].
    + by apply keeps_visit_variable_declaration.
    + apply keeps_visit_function_declaration.
    + by apply keeps_visit_expression_statement.
    + by apply keeps_visit_block_statement.
    + by apply keeps_visit_if_statement.
    + by apply keeps_visit_for_statement.
    + by apply keeps_visit_while_statement.
    + by apply keeps_visit_return_statement.
    + by apply keeps_visit_gorun_statement.
Qed.

(** Every visit of an expression or a statement, returned or raised,
    leaves the current environment and the globals as they were; the heap
    has grown at most, with the parents it had, the standard output has
    lines added at most, and nothing was written to the error stream. *)
Theorem visits_keep_the_interpreter fuel st :
  (forall expr, kept st (evaluate fuel expr st))
  /\ (forall stmt, kept st (execute fuel stmt st)).
Proof.
  destruct (keeps_evaluate_execute fuel) as [Hev Hex].
  split; [intros expr; apply Hev|intros stmt; apply Hex].
Qed.

(** *** The signal of [return] *)

Lemma returns_inside_ret {A} (a : A) : returns_inside (ret a).
Proof. intros st s st'. done. Qed.

Lemma returns_inside_raise {A} s :
  is_return s = false -> returns_inside (raise s : M A).
Proof. intros Hs st s' st' [= <- _]. done. Qed.

Lemma returns_inside_host {A} (r : py_exception + A) : returns_inside (host r).
Proof.
  destruct r; [by apply returns_inside_raise|apply returns_inside_ret].
Qed.

Lemma returns_inside_bind {A B} (m : M A) (k : A -> M B) :
  returns_inside m -> (forall a, returns_inside (k a)) ->
  returns_inside (bind m k).
Proof.
  intros Hm Hk st s st'. unfold bind.
  destruct (m st) as [a st1|s1 st1|] eqn:Hmst; [apply Hk| |done].
  intros [= <- <-]. by eapply Hm.
Qed.

Lemma returns_inside_evaluate_arguments evaluate args arguments :
  (forall e, returns_inside (evaluate e)) ->
  returns_inside (evaluate_arguments evaluate args arguments).
Proof.
  intros Hev. revert arguments.
  induction args as [|arg others IH]; intros arguments; simpl;
    [apply returns_inside_ret|].
  apply returns_inside_bind; [apply Hev|]. intros v. apply IH.
Qed.

(** [KSFunction.call] catches the signal, whatever the body does. *)
Lemma returns_inside_call_value execute callee arguments :
  returns_inside (call_value execute callee arguments).
Proof.
  unfold call_value. destruct callee; try by apply returns_inside_raise.
  case_match; [by apply returns_inside_raise|].
  intros st s st'. unfold KSFunction_call, allocate.
  destruct (execute_block _ _ _ _) as [[] st1|s1 st1|]; [done| |done].
  destruct s1; [|done|]; by intros [= <- _].
Qed.

Lemma returns_inside_evaluate fuel expr : returns_inside (evaluate fuel expr).
Proof.
  revert expr. induction fuel as [|fuel IH]; intros expr; [by intros st s st'|].
  destruct expr as [value ?|name|l operator r|operator operand|function arguments
                   |target value]; cbn [evaluate].
  - apply returns_inside_ret.
  - intros st s st'. unfold visit_identifier, undefined_variable.
    destruct (get _ _ _); [done|]. by intros [= <- _].
  - unfold visit_binary.
    apply returns_inside_bind; [apply IH|]. intros lv.
    apply returns_inside_bind; [apply IH|]. intros rv.
    unfold binary_operation.
    repeat case_match;
      first [apply returns_inside_ret | by apply returns_inside_raise
            | apply returns_inside_host].
  - unfold visit_unary. apply returns_inside_bind; [apply IH|]. intros v.
    repeat case_match;
      first [apply returns_inside_ret | by apply returns_inside_raise
            | apply returns_inside_host].
  - unfold visit_call.
    apply returns_inside_bind; [apply IH|]. intros callee.
    apply returns_inside_bind; [by apply returns_inside_evaluate_arguments|].
    intros values. apply returns_inside_call_value.
  - unfold visit_assignment. apply returns_inside_bind; [apply IH|]. intros v.
    intros st s st'. unfold undefined_variable.
    destruct (assign _ _ _ _); [done|]. by intros [= <- _].
Qed.

(** No expression raises the signal of a [return] statement: a call
    catches the signal of its body. *)
Theorem return_never_leaves_an_expression fuel expr st value st' :
  evaluate fuel expr st <> Raised (ReturnValue value) st'.
Proof.
  intros Hraised. by apply returns_inside_evaluate in Hraised.
Qed.

(** *** The loops *)

Lemma while_exit fuel evaluate execute condition body st st' :
  visit_while_statement fuel evaluate execute condition body st = Returned tt st' ->
  exists st0 v, evaluate condition st0 = Returned v st' /\ is_truthy v = false.
Proof.
  revert st. induction fuel as [|fuel IH]; intros st; [done|].
  cbn [visit_while_statement]. unfold bind at 1.
  destruct (evaluate condition st) as [v st1|s st1|] eqn:Hcond; [|done..].
  destruct (is_truthy v) eqn:Hv.
  - unfold bind. destruct (execute body st1) as [[] st2|s st2|]; [|done..].
    apply IH.
  - intros [= <-]. eauto.
Qed.

(** A [while] statement that returns has just found its condition
    falsy. *)
Theorem while_ends_on_a_falsy_condition fuel condition body st st' :
  execute (S fuel) (WhileStatement condition body) st = Returned tt st' ->
  exists st0 v,
    evaluate fuel condition st0 = Returned v st' /\ is_truthy v = false.
Proof. cbn [execute]. apply while_exit. Qed.

Lemma for_loop_exit fuel evaluate execute condition increment body st st' :
  for_loop fuel evaluate execute condition increment body st = Returned tt st' ->
  exists c st0 v,
    condition = Some c /\ evaluate c st0 = Returned v st' /\ is_truthy v = false.
Proof.
  revert st. induction fuel as [|fuel IH]; intros st; [done|].
  cbn [for_loop]. unfold bind at 1.
  destruct condition as [c|].
  - unfold bind at 1.
    destruct (evaluate c st) as [v st1|s st1|] eqn:Hcond; [|done..].
    unfold ret at 1. destruct (is_truthy v) eqn:Hv.
    + unfold bind at 1. destruct (execute body st1) as [[] st2|s st2|]; [|done..].
      unfold bind at 1.
      destruct (match increment with
                | Some e => bind (evaluate e) (fun _ => ret tt)
                | None => ret tt
                end st2) as [[] st3|s st3|]; [|done..].
      apply IH.
    + intros [= <-]. eauto 6.
  - unfold ret at 1.
    unfold bind at 1. destruct (execute body st) as [[] st2|s st2|]; [|done..].
    unfold bind at 1.
    destruct (match increment with
              | Some e => bind (evaluate e) (fun _ => ret tt)
              | None => ret tt
              end st2) as [[] st3|s st3|]; [|done..].
    apply IH.
Qed.

(** A [for] statement that returns has a condition and has just found it
    falsy; without a condition it ends by an error or a [return] only. *)
Theorem for_ends_on_a_falsy_condition fuel initializer condition increment body
    st st' :
  execute (S fuel) (ForStatement initializer condition increment body) st
  = Returned tt st' ->
  exists c st0 v st1,
    condition = Some c /\ evaluate fuel c st0 = Returned v st1
    /\ is_truthy v = false /\ st' = with_environment (environment st) st1.
Proof.
  cbn [execute]. unfold visit_for_statement, allocate, restoring.
  destruct (bind _ _ _) as [[] st1|s st1|] eqn:Hbody; [|done..].
  intros [= <-]. unfold bind in Hbody.
  destruct (match initializer with
            | Some s => execute fuel s
            | None => ret tt
            end _) as [[] st2|s st2|]; [|done..].
  apply for_loop_exit in Hbody as (c & st0 & v & -> & Hcond & Hv).
  exists c, st0, v, st1. done.
Qed.

(** *** Programs *)

Lemma execute_all_app execute statements1 statements2 st :
  execute_all execute (statements1 ++ statements2) st
  = match execute_all execute statements1 st with
    | Returned _ st' => execute_all execute statements2 st'
    | Raised s st' => Raised s st'
    | Exhausted => Exhausted
    end.
Proof.
  revert st. induction statements1 as [|s others IH]; intros st; [done|].
  simpl. unfold bind. destruct (execute s st) as [[] st1|s1 st1|]; [|done..].
  apply IH.
Qed.

(** A program can be interpreted in two parts by the same interpreter, as
    the interactive mode does, when the first part succeeds. *)
Theorem interpret_in_two_parts execute statements1 statements2 st st1 :
  interpret execute (mkProgram statements1) st = Returned true st1 ->
  interpret execute (mkProgram (statements1 ++ statements2)) st
  = interpret execute (mkProgram statements2) st1.
Proof.
  unfold interpret, visit_program. cbn [statements_of].
  rewrite execute_all_app.
  destruct (execute_all execute statements1 st) as [[] st'|s st'|]; [| |done].
  - by intros [= <-].
  - by destruct s.
Qed.

(** [interpret] returns [False] exactly with one line for the runtime
    error on the error stream, and [True] with none; what it lets through
    is not a runtime error of the language. Either way the current
    environment is the one of before. *)
Theorem interpret_reports fuel program st :
  match interpret (execute fuel) program st with
  | Returned ok st' =>
      environment st' = environment st /\ globals st' = globals st
      /\ (exists lines, stdout st' = stdout st ++ lines)
      /\ if ok then stderr st' = stderr st
         else exists msg, stderr st' = stderr st ++ ["Runtime Error: " +:+ msg]
  | Raised s st' =>
      (forall msg, s <> KSRuntimeError msg)
      /\ environment st' = environment st /\ stderr st' = stderr st
  | Exhausted => True
  end.
Proof.
  unfold interpret, visit_program.
  pose proof (keeps_execute_all (execute fuel) (statements_of program)
                (proj2 (keeps_evaluate_execute fuel)) st) as Hkept.
  destruct (execute_all _ _ st) as [[] st'|s st'|]; [| |done].
  - destruct Hkept as (Henv & Hg & _ & _ & Hout & Herr). done.
  - destruct Hkept as (Henv & Hg & _ & _ & Hout & Herr).
    destruct s as [msg|value|e]; simpl.
    + rewrite Herr. eauto 6.
    + done.
    + done.
Qed.

Lemma get_define_same h e name value :
  e < List.length h -> get (define h e name value) e name = Some value.
Proof.
  induction h as [|env older IH]; simpl; [lia|]. intros Hlt.
  destruct (decide (e = List.length older)) as [->|Hne]; simpl.
  - rewrite decide_True by done. by rewrite lookup_insert_eq.
  - rewrite define_length, decide_False by done. apply IH. lia.
Qed.

(** A variable that was declared is read with the value of its
    initializer. *)
Theorem declared_variable_is_read fuel name initializer st value st1 :
  environment st < List.length (heap st) ->
  evaluate fuel initializer st = Returned value st1 ->
  exists st2,
    execute (S fuel) (VariableDeclaration name (Some initializer)) st
    = Returned tt st2
    /\ evaluate 1 (IdentifierExpression name) st2 = Returned value st2.
Proof.
  intros Hlt Hinit.
  pose proof (proj1 (keeps_evaluate_execute fuel) initializer st) as Hkept.
  rewrite Hinit in Hkept. destruct Hkept as (Henv & _ & [Hlen _] & _).
  eexists. split.
  - change (execute (S fuel) (VariableDeclaration name (Some initializer)))
      with (visit_variable_declaration (evaluate fuel) name (Some initializer)).
    unfold visit_variable_declaration, bind. rewrite Hinit. reflexivity.
  - cbn [evaluate]. unfold visit_identifier. simpl.
    by rewrite get_define_same by lia.
Qed.

(** *** Small runs *)

Lemma while_false_returns :
  execute 3 (WhileStatement (LiteralExpression (LBool false) "boolean")
                            (BlockStatement []))
          new_interpreter
  = Returned tt new_interpreter.
Proof. reflexivity. Qed.

Lemma for_false_returns :
  execute 3 (ForStatement None (Some (LiteralExpression (LBool false) "boolean"))
                          None (BlockStatement []))
          new_interpreter
  = Returned tt (mkInterpreter [mkEnvironment ∅ (Some 0); mkEnvironment ∅ None]
                               0 0 0 [] []).
Proof. reflexivity. Qed.

Lemma declaration_of_x_succeeds :
  interpret (execute 2) (mkProgram [VariableDeclaration "x" None]) new_interpreter
  = Returned true
      (mkInterpreter [mkEnvironment (<[ "x" := VNone ]> ∅) None] 0 0 0 [] []).
Proof. reflexivity. Qed.

Lemma literal_one_evaluates :
  evaluate 1 (LiteralExpression (LInt 1) "number") new_interpreter
  = Returned (VInt 1) new_interpreter.
Proof. reflexivity. Qed.

End Keeps.

Lemma while_ends_on_a_falsy_condition_witness :
  execute 3 (WhileStatement (LiteralExpression (LBool false) "boolean")
                            (BlockStatement []))
          new_interpreter
  = Returned tt new_interpreter
  /\ exists st0 v,
       evaluate 2 (LiteralExpression (LBool false) "boolean") st0
       = Returned v new_interpreter
       /\ is_truthy v = false.
Proof.
  split; [apply while_false_returns|].
  apply (while_ends_on_a_falsy_condition 2 _ _ _ _ while_false_returns).
Defined.

Lemma for_ends_on_a_falsy_condition_witness :
  execute 3 (ForStatement None (Some (LiteralExpression (LBool false) "boolean"))
                          None (BlockStatement []))
          new_interpreter
  = Returned tt (mkInterpreter [mkEnvironment ∅ (Some 0); mkEnvironment ∅ None]
                               0 0 0 [] [])
  /\ exists c st0 v st1,
       Some (LiteralExpression (LBool false) "boolean") = Some c
       /\ evaluate 2 c st0 = Returned v st1
       /\ is_truthy v = false
       /\ mkInterpreter [mkEnvironment ∅ (Some 0); mkEnvironment ∅ None] 0 0 0 [] []
          = with_environment (environment new_interpreter) st1.
Proof.
  split; [apply for_false_returns|].
  apply (for_ends_on_a_falsy_condition 2 _ _ _ _ _ _ for_false_returns).
Defined.

Lemma interpret_in_two_parts_witness :
  interpret (execute 2) (mkProgram [VariableDeclaration "x" None]) new_interpreter
  = Returned true
      (mkInterpreter [mkEnvironment (<[ "x" := VNone ]> ∅) None] 0 0 0 [] [])
  /\ interpret (execute 2)
       (mkProgram ([VariableDeclaration "x" None]
                   ++ [ExpressionStatement (IdentifierExpression "x")]))
       new_interpreter
     = interpret (execute 2)
         (mkProgram [ExpressionStatement (IdentifierExpression "x")])
         (mkInterpreter [mkEnvironment (<[ "x" := VNone ]> ∅) None] 0 0 0 [] []).
Proof.
  split; [apply declaration_of_x_succeeds|].
  apply (interpret_in_two_parts (execute 2) _ _ _ _ declaration_of_x_succeeds).
Defined.

Lemma declared_variable_is_read_witness :
  environment new_interpreter < List.length (heap new_interpreter)
  /\ evaluate 1 (LiteralExpression (LInt 1) "number") new_interpreter
     = Returned (VInt 1) new_interpreter
  /\ exists st2,
       execute 2 (VariableDeclaration "x"
                    (Some (LiteralExpression (LInt 1) "number")))
               new_interpreter
       = Returned tt st2
       /\ evaluate 1 (IdentifierExpression "x") st2 = Returned (VInt 1) st2.
Proof.
  split; [simpl; lia|]. split; [apply literal_one_evaluates|].
  apply (declared_variable_is_read 1 "x" (LiteralExpression (LInt 1) "number")
           new_interpreter (VInt 1) new_interpreter); [simpl; lia|].
  apply literal_one_evaluates.
Defined.

End InterpreterKeeps.

(** ** Lexical scoping: where names are declared *)
Module Scoping.
Import Ast Interp EnvironmentFacts InterpreterShape ScopeShape InterpreterKeeps.

Section Scoping.
Context `{HostObjects}.

Lemma names_kept_refl n h : names_kept n h h.
Proof. by intros e x _. Qed.

Lemma names_kept_trans n h1 h2 h3 :
  names_kept n h1 h2 -> names_kept n h2 h3 -> names_kept n h1 h3.
Proof. intros H12 H23 e x He. etrans; [by apply H23|by apply H12]. Qed.

Lemma names_kept_mono n n' h h' : n' <= n -> names_kept n h h' -> names_kept n' h h'.
Proof. intros Hle Hk e x He. apply Hk. lia. Qed.

Lemma names_kept_define n h e name value :
  n <= e -> e < List.length h -> names_kept n h (define h e name value).
Proof.
  intros Hn He e' x He'. rewrite define_binding by done.
  rewrite decide_False; [done|]. intros [-> _]. lia.
Qed.

Lemma names_kept_assign n h e name value h' :
  assign h e name value = Some h' -> names_kept n h h'.
Proof.
  intros Hassign e' x _. pose proof (assign_spec h e name value) as Hspec.
  destruct (defining_scope h e name) as [d|] eqn:Hd; [|congruence].
  destruct Hspec as (h'' & Heq & _ & _ & Hbind).
  assert (h'' = h') as -> by congruence.
  rewrite Hbind. destruct (decide (e' = d /\ x = name)) as [[-> ->]|]; [|done].
  split; [|eauto]. intros _. by eapply defining_scope_defines.
Qed.

Lemma names_kept_allocate n h parent :
  n <= List.length h -> names_kept n h (allocate parent h).2.
Proof.
  intros Hn e x He. unfold allocate. simpl.
  rewrite binding_cons_older by lia. done.
Qed.

Lemma names_kept_bind_parameters n h env i parameters arguments :
  n <= env -> env < List.length h ->
  names_kept n h (bind_parameters h env i parameters arguments).
Proof.
  intros Hn. revert h i.
  induction parameters as [|param others IH]; intros h i Henv; simpl;
    [apply names_kept_refl|].
  eapply names_kept_trans; [|apply IH].
  - destruct (decide (i < List.length arguments)); by apply names_kept_define.
  - destruct (decide (i < List.length arguments)); by rewrite define_length.
Qed.

Lemma kept_valid {A} st (r : outcome A) :
  valid st -> kept st r ->
  match r with
  | Returned _ st' | Raised _ st' =>
      valid st' /\ older st = older st' /\ existing st <= existing st'
  | Exhausted => True
  end.
Proof.
  unfold valid, older, existing.
  destruct r as [a st'|s st'|]; [| |done];
    intros Hv (Henv & _ & [Hlen _] & _); (split; [lia|split; [done|lia]]).
Qed.

Lemma confined_weaken {A} (m : M A) : confined existing m -> confined older m.
Proof.
  intros Hm st Hv. specialize (Hm st Hv).
  destruct (m st) as [a st'|s st'|]; [| |done];
    (eapply names_kept_mono; [|exact Hm]); unfold valid, older, existing in *; lia.
Qed.

Lemma level_mono n st st' :
  level n -> older st = older st' -> existing st <= existing st' -> n st <= n st'.
Proof. intros [-> | ->] Ho He; [done|]. rewrite Ho. done. Qed.

Lemma confined_ret {A} n (a : A) : confined n (ret a).
Proof. intros st _. apply names_kept_refl. Qed.

Lemma confined_raise {A} n s : confined n (raise s : M A).
Proof. intros st _. apply names_kept_refl. Qed.

Lemma confined_host {A} n (r : py_exception + A) : confined n (host r).
Proof. destruct r; [apply confined_raise|apply confined_ret]. Qed.

Lemma confined_bind {A B} n (m : M A) (k : A -> M B) :
  level n -> keeps m -> confined n m -> (forall a, confined n (k a)) ->
  confined n (bind m k).
Proof.
  intros Hn Hkeeps Hm Hk st Hv. unfold bind.
  specialize (Hm st Hv). pose proof (kept_valid st (m st) Hv (Hkeeps st)) as Hst.
  destruct (m st) as [a st1|s st1|]; [|done..].
  destruct Hst as (Hv1 & Ho & He). specialize (Hk a st1 Hv1).
  destruct (k a st1) as [b st2|s st2|]; [| |done];
    (eapply names_kept_trans; [exact Hm|]);
    (eapply names_kept_mono; [|exact Hk]); by apply level_mono.
Qed.

Lemma level_existing : level existing.
Proof. by left. Qed.

Lemma level_older : level older.
Proof. by right. Qed.

Section Visits.
Variable evaluate : Expression -> M Value.
Variable execute : Statement -> M unit.
Hypothesis keeps_evaluate : forall e, keeps (evaluate e).
Hypothesis keeps_execute : forall s, keeps (execute s).
Hypothesis confined_evaluate : forall e, confined existing (evaluate e).
Hypothesis confined_execute : forall s, confined older (execute s).

Lemma confined_binary_operation n operator l r :
  confined n (binary_operation operator l r).
Proof.
  unfold binary_operation.
  repeat case_match;
    first [apply confined_ret | apply confined_raise | apply confined_host].
Qed.

Lemma confined_execute_all statements :
  confined older (execute_all execute statements).
Proof.
  induction statements as [|s others IH]; simpl; [apply confined_ret|].
  apply confined_bind; [apply level_older|apply keeps_execute
                       |apply confined_execute|done].
Qed.

(** Statements run in a new environment, on a heap [h1] that has this
    environment on top, change no name of an environment that existed
    before. *)
Lemma confined_in_new_scope st h1 statements :
  List.length h1 = S (List.length (heap st)) ->
  names_kept (existing st) (heap st) h1 ->
  match execute_block execute statements (List.length (heap st)) (with_heap h1 st) with
  | Returned _ st' | Raised _ st' => names_kept (existing st) (heap st) (heap st')
  | Exhausted => True
  end.
Proof.
  intros Hlen Hh1. unfold execute_block, restoring.
  set (st0 := with_environment _ _).
  assert (valid st0) as Hv0 by (unfold valid, st0; simpl; lia).
  pose proof (confined_execute_all statements st0 Hv0) as Hall.
  destruct (execute_all execute statements st0) as [[] st'|s st'|]; [| |done];
    simpl; (eapply names_kept_trans; [exact Hh1|]); exact Hall.
Qed.

Lemma confined_KSFunction_call parameters body closure arguments :
  confined existing (KSFunction_call execute parameters body closure arguments).
Proof.
  intros st Hv. unfold KSFunction_call, allocate.
  set (h1 := bind_parameters _ _ _ _ _).
  assert (List.length h1 = S (List.length (heap st))) as Hlen
    by (unfold h1; by rewrite bind_parameters_length).
  assert (names_kept (existing st) (heap st) h1) as Hh1.
  { eapply names_kept_trans;
      [apply (names_kept_allocate _ _ (Some closure)); unfold existing; lia|].
    apply names_kept_bind_parameters; unfold existing, allocate; simpl; lia. }
  pose proof (confined_in_new_scope st h1 body Hlen Hh1) as Hblock.
  destruct (execute_block _ _ _ _) as [[] st'|s st'|]; [done| |done].
  by destruct s.
Qed.

Lemma confined_evaluate_arguments args arguments :
  confined existing (evaluate_arguments evaluate args arguments).
Proof.
  revert arguments.
  induction args as [|arg others IH]; intros arguments; simpl; [apply confined_ret|].
  apply confined_bind; [apply level_existing|apply keeps_evaluate
                       |apply confined_evaluate|]. intros v. apply IH.
Qed.

Lemma confined_call_value callee arguments :
  confined existing (call_value execute callee arguments).
Proof.
  unfold call_value. destruct callee; try apply confined_raise.
  case_match; [apply confined_raise|apply confined_KSFunction_call].
Qed.

Lemma confined_visit_block_statement statements :
  confined existing (visit_block_statement execute statements).
Proof.
  intros st Hv. unfold visit_block_statement, allocate.
  apply (confined_in_new_scope st (mkEnvironment ∅ (Some (environment st)) :: heap st));
    [done|].
  apply (names_kept_allocate _ _ (Some (environment st))). unfold existing. lia.
Qed.

Lemma confined_for_loop fuel condition increment body :
  confined older (for_loop fuel evaluate execute condition increment body).
Proof.
  induction fuel as [|fuel IH]; [done|].
  cbn [for_loop]. apply confined_bind; [apply level_older| | |].
  { destruct condition; [|apply keeps_ret].
    apply keeps_bind; [apply keeps_evaluate|]. intros v. apply keeps_ret. }
  { destruct condition; [|apply confined_ret].
    apply confined_bind; [apply level_older|apply keeps_evaluate
                         |apply confined_weaken, confined_evaluate|].
    intros v. apply confined_ret. }
  intros [|]; [|apply confined_ret].
  apply confined_bind; [apply level_older|apply keeps_execute
                       |apply confined_execute|]. intros _.
  apply confined_bind; [apply level_older| | |done].
  { destruct increment; [|apply keeps_ret].
    apply keeps_bind; [apply keeps_evaluate|]. intros v. apply keeps_ret. }
  destruct increment; [|apply confined_ret].
  apply confined_bind; [apply level_older|apply keeps_evaluate
                       |apply confined_weaken, confined_evaluate|].
  intros v. apply confined_ret.
Qed.

Lemma confined_visit_for_statement fuel initializer condition increment body :
  confined existing
    (visit_for_statement fuel evaluate execute initializer condition increment body).
Proof.
  intros st Hv. unfold visit_for_statement, allocate, restoring.
  set (st0 := with_environment _ _).
  assert (valid st0) as Hv0 by (unfold valid, st0; simpl; lia).
  assert (confined older
            (bind (match initializer with
                   | Some s => execute s
                   | None => ret tt
                   end)
                  (fun _ => for_loop fuel evaluate execute condition increment body)))
    as Hbody.
  { apply confined_bind; [apply level_older| | |].
    - destruct initializer; [apply keeps_execute|apply keeps_ret].
    - destruct initializer; [apply confined_execute|apply confined_ret].
    - intros _. apply confined_for_loop. }
  specialize (Hbody st0 Hv0).
  assert (names_kept (existing st) (heap st) (heap st0)) as Hh1.
  { apply (names_kept_allocate _ _ (Some (environment st))). unfold existing. lia. }
  destruct (bind _ _ st0) as [[] st'|s st'|]; [| |done];
    simpl; (eapply names_kept_trans; [exact Hh1|]); exact Hbody.
Qed.

Lemma confined_visit_while_statement fuel condition body :
  confined older (visit_while_statement fuel evaluate execute condition body).
Proof.
  induction fuel as [|fuel IH]; [done|].
  cbn [visit_while_statement].
  apply confined_bind; [apply level_older|apply keeps_evaluate
                       |apply confined_weaken, confined_evaluate|].
  intros v. destruct (is_truthy v); [|apply confined_ret].
  apply confined_bind; [apply level_older|apply keeps_execute
                       |apply confined_execute|done].
Qed.

Lemma confined_define_current name value :
  confined older (define_current name value).
Proof.
  intros st Hv. unfold define_current. simpl.
  apply names_kept_define; [unfold older; lia|done].
Qed.

End Visits.

Lemma confined_evaluate_execute fuel :
  (forall e, confined existing (evaluate fuel e))
  /\ (forall s, confined older (execute fuel s)).
Proof.
  induction fuel as [|fuel [IHev IHex]]; [by split|].
  destruct (keeps_evaluate_execute fuel) as [Hkev Hkex].
  split.
  - intros [value ?|name|l operator r|operator operand|function arguments
           |target value]; cbn [evaluate].
    + apply confined_ret.
    + intros st _. unfold visit_identifier.
      destruct (get _ _ _); apply names_kept_refl.
    + unfold visit_binary.
      apply confined_bind; [apply level_existing|apply Hkev|apply IHev|]. intros lv.
      apply confined_bind; [apply level_existing|apply Hkev|apply IHev|]. intros rv.
      apply confined_binary_operation.
    + unfold visit_unary.
      apply confined_bind; [apply level_existing|apply Hkev|apply IHev|]. intros v.
      repeat case_match;
        first [apply confined_ret | apply confined_raise | apply confined_host].
    + unfold visit_call.
      apply confined_bind; [apply level_existing|apply Hkev|apply IHev|].
      intros callee.
      apply confined_bind; [apply level_existing
                           |by apply keeps_evaluate_arguments
                           |by apply confined_evaluate_arguments|].
      intros values. by apply confined_call_value.
    + unfold visit_assignment.
      apply confined_bind; [apply level_existing|apply Hkev|apply IHev|]. intros v.
      intros st _. destruct (assign _ _ _ _) as [h|] eqn:Hassign;
        [|apply names_kept_refl].
      by eapply names_kept_assign.
  - intros []; cbn [execute].
    + unfold visit_variable_declaration.
      apply confined_bind; [apply level_older| | |].
      * destruct initializer; [apply Hkev|apply keeps_ret].
      * destruct initializer; [apply confined_weaken, IHev|apply confined_ret].
      * intros v. apply confined_define_current.
    + intros st Hv. unfold visit_function_declaration, define_current. simpl.
      apply names_kept_define; [unfold older; lia|done].
    + unfold visit_expression_statement.
      apply confined_bind; [apply level_older|apply Hkev
                           |apply confined_weaken, IHev|].
      intros _. apply confined_ret.
    + by apply confined_weaken, confined_visit_block_statement.
    + unfold visit_if_statement.
      apply confined_bind; [apply level_older|apply Hkev
                           |apply confined_weaken, IHev|].
      intros v. destruct (is_truthy v); [apply IHex|].
      destruct else_branch; [apply IHex|apply confined_ret].
    + by apply confined_weaken, confined_visit_for_statement.
    + by apply confined_visit_while_statement.
    + unfold visit_return_statement.
      apply confined_bind; [apply level_older| | |].
      * destruct value; [apply Hkev|apply keeps_ret].
      * destruct value; [apply confined_weaken, IHev|apply confined_ret].
      * intros v. apply confined_raise.
    + unfold visit_gorun_statement.
      apply confined_bind; [apply level_older|apply Hkev
                           |apply confined_weaken, IHev|].
      intros v. intros st _. apply names_kept_refl.
Qed.

(** *** Reading through an extended heap *)

Lemma defining_scope_in_heap h e x d :
  defining_scope h e x = Some d -> e < List.length h.
Proof.
  revert e. induction h as [|env older IH]; intros e; simpl; [done|].
  destruct (decide (e = List.length older)) as [->|Hne]; [lia|].
  intros Hd. apply IH in Hd. lia.
Qed.

(** The walk from [e] looks at [e] and at older environments only. *)
Lemma defining_scope_ext_below h h' e x :
  List.length h' = List.length h ->
  (forall d, d <= e -> parent_of h' d = parent_of h d) ->
  (forall d, d <= e -> is_Some (binding h' d x) <-> is_Some (binding h d x)) ->
  defining_scope h' e x = defining_scope h e x.
Proof.
  revert h' e. induction h as [|env older IH]; intros [|env' older'] e Hlen Hpar Hdef;
    simpl in *; try done.
  assert (List.length older' = List.length older) as Hlen' by lia.
  rewrite Hlen'.
  destruct (decide (e = List.length older)) as [->|Hne].
  - pose proof (Hdef (List.length older) (Nat.le_refl _)) as Htop.
    rewrite <- Hlen' in Htop at 1. rewrite !binding_cons_top in Htop.
    pose proof (Hpar (List.length older) (Nat.le_refl _)) as Hptop.
    unfold parent_of in Hptop. simpl in Hptop.
    rewrite Hlen', !decide_True in Hptop by done. simpl in Hptop.
    destruct (variables env' !! x) as [v'|] eqn:Hv',
             (variables env !! x) as [v|] eqn:Hv; try done.
    + destruct Htop as [Htop _]. by destruct Htop.
    + destruct Htop as [_ Htop]. by destruct Htop.
    + rewrite Hptop. destruct (parent env) as [p|]; [|done].
      destruct (decide (p < List.length older)) as [Hp|Hp].
      * apply IH; [done| |]; intros d Hd.
        -- specialize (Hpar d ltac:(lia)).
           rewrite !parent_of_cons_older in Hpar by lia. done.
        -- specialize (Hdef d ltac:(lia)).
           rewrite !binding_cons_older in Hdef by lia. done.
      * destruct (defining_scope older' p x) eqn:H1;
          [apply defining_scope_in_heap in H1; lia|].
        destruct (defining_scope older p x) eqn:H2;
          [apply defining_scope_in_heap in H2; lia|done].
  - destruct (decide (e < List.length older)) as [He|He].
    + apply IH; [done| |]; intros d Hd.
      * specialize (Hpar d ltac:(lia)).
        rewrite !parent_of_cons_older in Hpar by lia. done.
      * specialize (Hdef d ltac:(lia)).
        rewrite !binding_cons_older in Hdef by lia. done.
    + destruct (defining_scope older' e x) eqn:H1;
        [apply defining_scope_in_heap in H1; lia|].
      destruct (defining_scope older e x) eqn:H2;
        [apply defining_scope_in_heap in H2; lia|done].
Qed.

(** Newer environments, and names that come and go in them, do not change
    where the walk from an older environment ends. *)
Lemma defining_scope_extended h h' n e x :
  extends h h' -> names_kept n h h' -> e < n -> n <= List.length h ->
  defining_scope h' e x = defining_scope h e x.
Proof.
  intros [Hlen Hpar] Hnames He Hn.
  induction h' as [|env' older' IH]; [simpl in *; lia|].
  destruct (decide (List.length (env' :: older') = List.length h)) as [Heq|Hneq].
  - apply defining_scope_ext_below; [done| |]; intros d Hd.
    + apply Hpar. lia.
    + apply Hnames. lia.
  - simpl in Hlen, Hneq. cbn [defining_scope].
    rewrite decide_False by lia. apply IH.
    + lia.
    + intros d Hd. specialize (Hpar d Hd).
      rewrite parent_of_cons_older in Hpar by lia. done.
    + intros d y Hd. specialize (Hnames d y Hd).
      rewrite binding_cons_older in Hnames by lia. done.
Qed.

Lemma defining_scope_le h e x d : defining_scope h e x = Some d -> d <= e.
Proof.
  revert e. induction h as [|env older IH]; intros e; simpl; [done|].
  destruct (decide (e = List.length older)) as [->|Hne]; [|apply IH].
  destruct (variables env !! x); [by intros [= <-]|].
  destruct (parent env) as [p|]; [|done].
  intros Hd. apply defining_scope_lt in Hd. lia.
Qed.

Lemma get_defined_extended h h' n e x :
  extends h h' -> names_kept n h h' -> e < n -> n <= List.length h ->
  is_Some (get h' e x) <-> is_Some (get h e x).
Proof.
  intros Hext Hnames He Hn. rewrite !get_defining_scope.
  rewrite (defining_scope_extended h h' n e x) by done.
  destruct (defining_scope h e x) as [d|] eqn:Hd; simpl; [|done].
  pose proof (defining_scope_defines _ _ _ _ Hd) as Hb.
  assert (d < n) as Hdn by (apply defining_scope_le in Hd; lia).
  split; intros _; [done|]. by apply Hnames.
Qed.

(** A declaration adds its name to the current environment or to a newer
    one: an expression changes the names of no environment that exists,
    and a statement those of no environment older than the current one. *)
Theorem declarations_stay_in_scope fuel st :
  valid st ->
  (forall expr,
     match evaluate fuel expr st with
     | Returned _ st' | Raised _ st' =>
         names_kept (existing st) (heap st) (heap st')
     | Exhausted => True
     end)
  /\ (forall stmt,
        match execute fuel stmt st with
        | Returned _ st' | Raised _ st' =>
            names_kept (older st) (heap st) (heap st')
        | Exhausted => True
        end).
Proof.
  intros Hv. destruct (confined_evaluate_execute fuel) as [Hev Hex].
  split; [intros expr; by apply Hev|intros stmt; by apply Hex].
Qed.

(** The declarations of a block are not seen after the block: every
    environment that existed before reads a name after the block exactly
    when it read it before. *)
Theorem block_declarations_do_not_leak fuel statements st e x :
  valid st -> e < List.length (heap st) ->
  match execute (S fuel) (BlockStatement statements) st with
  | Returned _ st' | Raised _ st' =>
      is_Some (get (heap st') e x) <-> is_Some (get (heap st) e x)
  | Exhausted => True
  end.
Proof.
  intros Hv He.
  pose proof (proj2 (keeps_evaluate_execute (S fuel)) (BlockStatement statements) st)
    as Hkept.
  destruct (keeps_evaluate_execute fuel) as [Hkev Hkex].
  destruct (confined_evaluate_execute fuel) as [Hcev Hcex].
  pose proof (confined_visit_block_statement (execute fuel) Hkex Hcex statements st Hv)
    as Hnames.
  change (execute (S fuel) (BlockStatement statements))
    with (visit_block_statement (execute fuel) statements) in *.
  destruct (visit_block_statement _ _ st) as [[] st'|s st'|]; [| |done];
    destruct Hkept as (_ & _ & Hext & _);
    by apply (get_defined_extended _ _ (existing st)).
Qed.

(** An expression declares no variable: whatever it calls, every
    environment that existed before reads a name after the evaluation
    exactly when it read it before. *)
Theorem expression_declares_no_variable fuel expr st e x :
  valid st -> e < List.length (heap st) ->
  match evaluate fuel expr st with
  | Returned _ st' | Raised _ st' =>
      is_Some (get (heap st') e x) <-> is_Some (get (heap st) e x)
  | Exhausted => True
  end.
Proof.
  intros Hv He.
  pose proof (proj1 (keeps_evaluate_execute fuel) expr st) as Hkept.
  pose proof (proj1 (confined_evaluate_execute fuel) expr st Hv) as Hnames.
  destruct (evaluate fuel expr st) as [v st'|s st'|]; [| |done];
    destruct Hkept as (_ & _ & Hext & _);
    by apply (get_defined_extended _ _ (existing st)).
Qed.

End Scoping.

Lemma declarations_stay_in_scope_witness :
  valid new_interpreter
  /\ (forall expr,
        match evaluate 3 expr new_interpreter with
        | Returned _ st' | Raised _ st' =>
            names_kept (existing new_interpreter) (heap new_interpreter) (heap st')
        | Exhausted => True
        end)
  /\ (forall stmt,
        match execute 3 stmt new_interpreter with
        | Returned _ st' | Raised _ st' =>
            names_kept (older new_interpreter) (heap new_interpreter) (heap st')
        | Exhausted => True
        end).
Proof.
  assert (valid new_interpreter) as Hv by (unfold valid; simpl; lia).
  split; [exact Hv|]. exact (declarations_stay_in_scope 3 new_interpreter Hv).
Defined.

Lemma block_declarations_do_not_leak_witness :
  valid new_interpreter
  /\ 0 < List.length (heap new_interpreter)
  /\ match execute 3 (BlockStatement [VariableDeclaration "x" None])
                    new_interpreter with
     | Returned _ st' | Raised _ st' =>
         is_Some (get (heap st') 0 "x") <-> is_Some (get (heap new_interpreter) 0 "x")
     | Exhausted => True
     end.
Proof.
  assert (valid new_interpreter) as Hv by (unfold valid; simpl; lia).
  assert (0 < List.length (heap new_interpreter)) as He by (simpl; lia).
  split; [exact Hv|]. split; [exact He|].
  exact (block_declarations_do_not_leak 2 [VariableDeclaration "x" None]
           new_interpreter 0 "x" Hv He).
Defined.

Lemma expression_declares_no_variable_witness :
  valid Inputs.after_func_f
  /\ 0 < List.length (heap Inputs.after_func_f)
  /\ (exists st',
        evaluate 4 Inputs.call_f Inputs.after_func_f = Returned VNone st'
        /\ List.length (heap st') = 2
        /\ binding (heap st') 1 "x" = Some (VInt 1))
  /\ match evaluate 4 Inputs.call_f Inputs.after_func_f with
     | Returned _ st' | Raised _ st' =>
         is_Some (get (heap st') 0 "x")
         <-> is_Some (get (heap Inputs.after_func_f) 0 "x")
     | Exhausted => True
     end.
Proof.
  assert (valid Inputs.after_func_f) as Hv by (unfold valid; simpl; lia).
  assert (0 < List.length (heap Inputs.after_func_f)) as He by (simpl; lia).
  split; [exact Hv|]. split; [exact He|].
  split; [eexists; split; [reflexivity|split; reflexivity]|].
  exact (expression_declares_no_variable 4 Inputs.call_f
           Inputs.after_func_f 0 "x" Hv He).
Defined.

End Scoping.

(** ** The positions of the tokens *)
Module TokenOrder.
Import Lexer TokenShape LexerFacts.

Lemma before_spec l1 k1 l2 k2 :
  before l1 k1 l2 k2 = true <-> l1 < l2 \/ (l1 = l2 /\ k1 < k2).
Proof.
  unfold before. rewrite orb_true_iff, andb_true_iff.
  rewrite !Nat.ltb_lt, Nat.eqb_eq. done.
Qed.

Lemma advance_forward lx : forward lx (advance lx).
Proof.
  unfold forward, advance. destruct (rest lx) as [|c r]; simpl; [lia|].
  destruct (Ascii.eqb c Char.newline); simpl; lia.
Qed.

Lemma skip_whitespace_go_onward r l k :
  onward (mkLexer r l k) (skip_whitespace_go r l k).
Proof.
  unfold onward. revert k. induction r as [|c r IH]; intros k; simpl; [lia|].
  case_match; simpl; [|lia]. specialize (IH (S k)). simpl in IH. lia.
Qed.

Lemma skip_to_eol_onward r l k : onward (mkLexer r l k) (skip_to_eol r l k).
Proof.
  unfold onward. revert k. induction r as [|c r IH]; intros k; simpl; [lia|].
  case_match; simpl; [lia|]. specialize (IH (S k)). simpl in IH. lia.
Qed.

Lemma read_number_go_onward r l k number_str :
  onward (mkLexer r l k) (read_number_go r l k number_str).2.
Proof.
  unfold onward. revert k number_str.
  induction r as [|c r IH]; intros k number_str; simpl; [lia|].
  case_match; simpl; [|lia].
  specialize (IH (S k) (number_str +:+ Char.str c)). simpl in IH. lia.
Qed.

Lemma read_identifier_go_onward r l k identifier :
  onward (mkLexer r l k) (read_identifier_go r l k identifier).2.
Proof.
  unfold onward. revert k identifier.
  induction r as [|c r IH]; intros k identifier; simpl; [lia|].
  case_match; simpl; [|lia].
  specialize (IH (S k) (identifier +:+ Char.str c)). simpl in IH. lia.
Qed.

Lemma read_string_go_onward r l k string_value s lx' :
  read_string_go r l k string_value = inr (s, lx') ->
  onward (mkLexer r l k) lx'.
Proof.
  remember (String.length r) as n eqn:Hn.
  assert (String.length r <= n) as Hle by lia. clear Hn.
  revert r l k string_value Hle.
  induction n as [|n IH]; intros r l k string_value Hle.
  - destruct r; simpl in *; [|lia]. intros [= <- <-]. unfold onward. simpl. lia.
  - destruct r as [|c r]; simpl in *;
      [intros [= <- <-]; unfold onward; simpl; lia|].
    pose proof (advance_forward (mkLexer (String c r) l k)) as Hadv.
    set (after := advance (mkLexer (String c r) l k)) in *.
    assert (rest after = r) as Hrest.
    { unfold after, advance. simpl. by destruct (Ascii.eqb c Char.newline). }
    destruct (Ascii.eqb c Char.quote).
    { intros [= <- <-]. unfold onward, forward in *. simpl in *. lia. }
    destruct (Ascii.eqb c Char.backslash).
    + destruct r as [|d r]; [done|].
      pose proof (advance_forward after) as Hadv2.
      intros Hgo. apply IH in Hgo; [|simpl in *; lia].
      unfold onward, forward in *. simpl in *. lia.
    + intros Hgo. apply IH in Hgo; [|simpl in *; lia].
      unfold onward, forward in *. simpl in *. lia.
Qed.

Lemma ascending_snoc tokens t' :
  ascending tokens = true ->
  (forall t, last tokens = Some t -> token_before t t' = true) ->
  ascending (tokens ++ [t']) = true.
Proof.
  induction tokens as [|t1 [|t2 others] IH]; intros Hasc Hlast; [done| |].
  - simpl. rewrite (Hlast t1) by done. done.
  - change (ascending ((t1 :: t2 :: others) ++ [t']))
      with (token_before t1 t2 && ascending ((t2 :: others) ++ [t'])).
    change (ascending (t1 :: t2 :: others))
      with (token_before t1 t2 && ascending (t2 :: others)) in Hasc.
    apply andb_prop in Hasc as [-> Hasc]. simpl andb.
    apply IH; [done|]. intros t Ht. apply Hlast. done.
Qed.

Lemma behind_onward tokens lx lx' :
  behind tokens lx -> onward lx lx' -> behind tokens lx'.
Proof.
  intros Hb Ho t Ht. specialize (Hb t Ht). unfold onward in Ho. lia.
Qed.

(** A token made at the position of [lx], and the lexer moved forward. *)
Lemma behind_snoc tokens lx ty s lx' :
  forward lx lx' ->
  behind (tokens ++ [mkToken ty s (cur_line lx) (cur_column lx)]) lx'.
Proof.
  intros Hf t. rewrite last_snoc. intros [= <-]. simpl. exact Hf.
Qed.

Lemma ascending_at tokens lx ty s :
  ascending tokens = true -> behind tokens lx ->
  ascending (tokens ++ [mkToken ty s (cur_line lx) (cur_column lx)]) = true.
Proof.
  intros Hasc Hb. apply ascending_snoc; [done|]. intros t Ht.
  apply before_spec. simpl. by apply Hb.
Qed.

Lemma forward_onward lx1 lx2 lx3 : forward lx1 lx2 -> onward lx2 lx3 -> forward lx1 lx3.
Proof. unfold forward, onward. lia. Qed.

Lemma tokenize_loop_ascending fuel lx tokens :
  ascending tokens = true -> behind tokens lx ->
  match tokenize_loop fuel lx tokens with
  | Tokens ts => ascending ts = true
  | _ => True
  end.
Proof.
  revert lx tokens. induction fuel as [|fuel IH]; intros lx tokens Hasc Hb; [done|].
  cbn [tokenize_loop].
  destruct (rest lx) as [|c0 r0] eqn:Hrest; [by apply ascending_at|].
  pose proof (skip_whitespace_go_onward (rest lx) (cur_line lx) (cur_column lx))
    as Hws.
  fold (skip_whitespace lx) in Hws.
  set (lx1 := skip_whitespace lx) in *.
  assert (behind tokens lx1) as Hb1.
  { intros t Ht. specialize (Hb t Ht). unfold onward in Hws. simpl in Hws. lia. }
  unfold current_char.
  destruct (rest lx1) as [|char r1] eqn:Hr1; [by apply ascending_at|].
  assert (forall ty s lx', forward lx1 lx' ->
            match tokenize_loop fuel lx'
                    (tokens ++ [mkToken ty s (cur_line lx1) (cur_column lx1)]) with
            | Tokens ts => ascending ts = true
            | _ => True
            end) as Hnext.
  { intros ty s lx' Hf. apply IH; [by apply ascending_at|by apply behind_snoc]. }
  destruct (Ascii.eqb char "/" && bool_decide (peek_char lx1 = Some "/"%char))
    eqn:Hcomment.
  { apply IH; [done|]. eapply behind_onward; [exact Hb1|].
    unfold skip_comment. repeat case_match; try (unfold onward; lia).
    pose proof (skip_to_eol_onward (rest lx1) (cur_line lx1) (cur_column lx1)) as Ho.
    unfold onward in *. simpl in *. lia. }
  destruct (Ascii.eqb char Char.newline); [apply Hnext, advance_forward|].
  destruct (Char.isdigit char) eqn:Hdigit.
  { unfold read_number.
    destruct (read_number_go _ _ _ _) as [number_str lx'] eqn:Hgo.
    apply Hnext.
    rewrite Hr1 in Hgo. simpl in Hgo. rewrite Hdigit in Hgo. simpl in Hgo.
    pose proof (read_number_go_onward r1 (cur_line lx1) (S (cur_column lx1))
                  ("" +:+ Char.str char)) as Ho.
    rewrite Hgo in Ho. unfold forward, onward in *. simpl in *. lia. }
  destruct (Ascii.eqb char Char.quote).
  { unfold read_string.
    destruct (read_string_go _ _ _ _) as [e|[string_value lx']] eqn:Hgo; [done|].
    apply Hnext. apply read_string_go_onward in Hgo.
    eapply forward_onward; [apply advance_forward|].
    unfold onward in *. simpl in *. lia. }
  destruct (Char.isalpha char || Ascii.eqb char "_") eqn:Hletter.
  { unfold read_identifier.
    destruct (read_identifier_go _ _ _ _) as [identifier lx'] eqn:Hgo.
    apply Hnext.
    rewrite Hr1 in Hgo. simpl in Hgo.
    assert (Char.isalnum char || Ascii.eqb char "_" = true) as Hcond.
    { unfold Char.isalnum. apply orb_prop in Hletter as [->| ->]; [done|].
      apply orb_true_r. }
    rewrite Hcond in Hgo.
    pose proof (read_identifier_go_onward r1 (cur_line lx1) (S (cur_column lx1))
                  ("" +:+ Char.str char)) as Ho.
    rewrite Hgo in Ho. unfold forward, onward in *. simpl in *. lia. }
  destruct (delimiters char); [apply Hnext, advance_forward|].
  destruct (Char.char_in char "+-*/%=<>!&|"); [|exact I].
  unfold read_operator.
  destruct (operators (Char.str char +:+ from_option Char.str "" (peek_char lx1))).
  { apply Hnext. pose proof (advance_forward lx1) as H1.
    pose proof (advance_forward (advance lx1)) as H2.
    unfold forward in *. lia. }
  destruct (operators (Char.str char)); [|exact I].
  apply Hnext, advance_forward.
Qed.

(** The tokens of [tokenize] stand in reading order: every token starts
    before the next one, and the end-of-input token comes last. *)
Theorem tokens_are_in_reading_order text :
  match tokenize text with
  | Tokens ts => ascending ts = true
  | _ => True
  end.
Proof. apply tokenize_loop_ascending; [done|]. by intros t. Qed.

End TokenOrder.

(** ** The operations on values *)
Module ValueLaws.
Import Ast Interp InterpreterShape.

Section Laws.
Context `{HostObjects}.

Lemma py_eq_zero r : py_eq r (VInt 0) = true <-> zero_divisor r.
Proof.
  unfold py_eq. destruct r as [|b|n|x|s|oid name parameters body closure]; simpl;
    try (split; [discriminate|done]).
  - rewrite bool_decide_eq_true. destruct b; simpl; split; try done.
  - rewrite bool_decide_eq_true. split.
    + intros [= Hn]. by apply Z.compare_eq_iff in Hn.
    + intros ->. done.
  - by rewrite bool_decide_eq_true.
Qed.

Lemma host_is_no_runtime_error {A} (r : py_exception + A) st msg st' :
  host r st <> Raised (KSRuntimeError msg) st'.
Proof. by destruct r. Qed.

(** [/] raises the runtime error [Division by zero] exactly on a right
    operand equal to zero, whatever the left operand is; on every other
    right operand it raises no runtime error of the language. *)
Theorem division_raises_on_zero_divisors l r st :
  (zero_divisor r ->
   binary_operation "/" l r st = Raised (KSRuntimeError "Division by zero") st)
  /\ (~ zero_divisor r ->
      forall msg st', binary_operation "/" l r st <> Raised (KSRuntimeError msg) st').
Proof.
  unfold binary_operation. simpl. split.
  - intros Hz. apply py_eq_zero in Hz. by rewrite Hz.
  - intros Hz msg st'. destruct (py_eq r (VInt 0)) eqn:Heq.
    + by apply py_eq_zero in Heq.
    + apply host_is_no_runtime_error.
Qed.

(** [==], [!=], [&&] and [||] take every pair of operands and return a
    boolean; they raise nothing. *)
Theorem equality_and_logic_never_raise operator l r st :
  operator ∈ ["=="; "!="; "&&"; "||"] ->
  exists b, binary_operation operator l r st = Returned (VBool b) st.
Proof.
  intros Hop. unfold binary_operation.
  repeat (apply elem_of_cons in Hop as [-> | Hop]; [simpl; eauto|]).
  by apply elem_of_nil in Hop.
Qed.

Lemma strip_dot_zero_spec text :
  (exists s, text = s +:+ ".0" /\ strip_dot_zero text = s)
  \/ (~ ends_with_dot_zero text /\ strip_dot_zero text = text).
Proof.
  induction text as [|c text IH].
  - right. split; [|done]. intros [[|c s] Hs]; discriminate.
  - destruct (decide (c = "."%char /\ text = "0")) as [[-> ->]|Hne].
    { left. by exists "". }
    assert (strip_dot_zero (String c text) = String c (strip_dot_zero text)) as Hstep.
    { simpl. destruct c as [[] [] [] [] [] [] [] []]; try done.
      destruct text as [|d text']; [done|].
      destruct d as [[] [] [] [] [] [] [] []]; try done.
      destruct text'; [|done]. by destruct Hne. }
    rewrite Hstep.
    destruct IH as [(s & -> & ->) | [Hno ->]].
    + left. by exists (String c s).
    + right. split; [|done]. intros [[|c' s] Hs].
      * injection Hs as -> ->. by destruct Hne.
      * injection Hs as _ ->. apply Hno. by exists s.
Qed.

(** [stringify] of a float: the text of the host without a final dot and
    zero, and the text of the host itself when it does not end so. *)
Theorem stringify_drops_a_final_dot_zero x :
  (exists s, float_repr x = s +:+ ".0" /\ stringify (VFloat x) = s)
  \/ (~ ends_with_dot_zero (float_repr x)
      /\ stringify (VFloat x) = float_repr x).
Proof. apply strip_dot_zero_spec. Qed.

End Laws.

Lemma division_raises_on_zero_divisors_witness :
  zero_divisor (VBool false)
  /\ binary_operation "/" (VStr "a") (VBool false) new_interpreter
     = Raised (KSRuntimeError "Division by zero") new_interpreter.
Proof.
  assert (zero_divisor (VBool false)) as Hz by reflexivity.
  split; [exact Hz|].
  exact (proj1 (division_raises_on_zero_divisors (VStr "a") (VBool false)
                  new_interpreter) Hz).
Defined.

Lemma equality_and_logic_never_raise_witness :
  "==" ∈ ["=="; "!="; "&&"; "||"]
  /\ exists b,
       binary_operation "==" (VStr "a") VNone new_interpreter
       = Returned (VBool b) new_interpreter.
Proof.
  assert ("==" ∈ ["=="; "!="; "&&"; "||"]) as Hop by apply list_elem_of_here.
  split; [exact Hop|].
  exact (equality_and_logic_never_raise "==" (VStr "a") VNone new_interpreter Hop).
Defined.

End ValueLaws.

(** ** The parser: the operators of a parsed program *)
Module ParserOperators.
Import Lexer Ast Parser TokenShape OperatorShape.

Lemma operators_cases s ty :
  operators s = Some ty ->
  (ty = ASSIGN /\ s = "=") \/ (ty = NOT /\ s = "!")
  \/ (s ∈ binary_operators
      /\ ty ∈ [PLUS; MINUS; MULTIPLY; DIVIDE; MODULO; EQUAL; NOT_EQUAL; LESS_THAN;
               GREATER_THAN; LESS_EQUAL; GREATER_EQUAL; AND; OR]).
Proof.
  unfold operators.
  repeat match goal with
  | |- context [String.eqb s ?k] =>
      destruct (String.eqb_spec s k) as [-> | ?];
      [intros [= <-];
       first [by left | by right; left
             | right; right; split;
               repeat first [apply list_elem_of_here | apply list_elem_of_further]]|]
  end.
  done.
Qed.

(** The lexeme of a token of a binary operator kind. *)
Lemma binary_operator_token t :
  fits t = true ->
  type t ∈ [PLUS; MINUS; MULTIPLY; DIVIDE; MODULO; EQUAL; NOT_EQUAL; LESS_THAN;
            GREATER_THAN; LESS_EQUAL; GREATER_EQUAL; AND; OR] ->
  value t ∈ binary_operators.
Proof.
  intros Hfits Hty. unfold fits in Hfits.
  assert (operators (value t) = Some (type t)) as Hop.
  { repeat (apply elem_of_cons in Hty as [Hty | Hty];
            [rewrite Hty in *; by apply bool_decide_eq_true_1 in Hfits|]).
    by apply elem_of_nil in Hty. }
  destruct (operators_cases _ _ Hop) as [[Heq _] | [[Heq _] | [Hin _]]]; [| |done].
  - rewrite Heq in Hty.
    repeat (apply elem_of_cons in Hty as [Hty | Hty]; [discriminate|]).
    by apply elem_of_nil in Hty.
  - rewrite Heq in Hty.
    repeat (apply elem_of_cons in Hty as [Hty | Hty]; [discriminate|]).
    by apply elem_of_nil in Hty.
Qed.

Lemma unary_operator_token t :
  fits t = true -> type t ∈ [NOT; MINUS] -> value t ∈ unary_operators.
Proof.
  intros Hfits Hty. unfold fits in Hfits.
  assert (operators (value t) = Some (type t)) as Hop.
  { repeat (apply elem_of_cons in Hty as [Hty | Hty];
            [rewrite Hty in *; by apply bool_decide_eq_true_1 in Hfits|]).
    by apply elem_of_nil in Hty. }
  apply elem_of_cons in Hty as [Hty | Hty].
  - rewrite Hty in Hop. unfold operators in Hop.
    repeat match type of Hop with
    | context [String.eqb (value t) ?k] =>
        destruct (String.eqb_spec (value t) k) as [Heq | ?];
        [try discriminate; rewrite Heq|]
    end; [|done].
    apply list_elem_of_further, list_elem_of_here.
  - apply list_elem_of_singleton in Hty. rewrite Hty in Hop. unfold operators in Hop.
    repeat match type of Hop with
    | context [String.eqb (value t) ?k] =>
        destruct (String.eqb_spec (value t) k) as [Heq | ?];
        [try discriminate; rewrite Heq|]
    end; [|done].
    apply list_elem_of_here.
Qed.

Section Yields.
Context `{HostFloat}.

Lemma yields_ret {A} (Q : A -> Prop) a : Q a -> yields Q (ret a).
Proof. intros Ha p _. by split. Qed.

Lemma yields_raise {A} (Q : A -> Prop) e : yields Q (raise e).
Proof. by intros p _. Qed.

Lemma yields_exhausted {A} (Q : A -> Prop) : yields Q exhausted.
Proof. by intros p _. Qed.

Lemma yields_bind {A B} (Q1 : A -> Prop) (Q2 : B -> Prop) (m : M A) (k : A -> M B) :
  yields Q1 m -> (forall a, Q1 a -> yields Q2 (k a)) -> yields Q2 (bind m k).
Proof.
  intros Hm Hk p Hp. unfold bind. specialize (Hm p Hp).
  destruct (m p) as [a p'|e p'|]; [|done..].
  destruct Hm as [Ha Htok]. specialize (Hk a Ha p'). rewrite Htok in Hk.
  specialize (Hk Hp). destruct (k a p') as [b p''|e p''|]; [|done..].
  destruct Hk as [Hb Htok']. split; [done|congruence].
Qed.

Lemma yields_weaken {A} (Q Q' : A -> Prop) (m : M A) :
  (forall a, Q a -> Q' a) -> yields Q m -> yields Q' m.
Proof.
  intros HQ Hm p Hp. specialize (Hm p Hp).
  destruct (m p) as [a p'|e p'|]; [|done..]. destruct Hm. split; auto.
Qed.

Lemma yields_token_at i : yields (fun t => fits t = true \/ type t = EOF) (token_at i).
Proof.
  intros p Hp. unfold token_at. destruct (tokens p !! i) as [t|] eqn:Ht; [|done].
  split; [|done]. eapply Forall_lookup_1 in Hp; [|exact Ht]. done.
Qed.

Lemma yields_peek : yields (fun t => fits t = true \/ type t = EOF) peek.
Proof. intros p Hp. apply (yields_token_at (current p) p Hp). Qed.

Lemma yields_previous : yields (fun t => fits t = true \/ type t = EOF) previous.
Proof.
  intros p Hp. unfold previous. destruct (current p); by apply yields_token_at.
Qed.

Lemma yields_is_at_end : yields (fun _ => True) is_at_end.
Proof.
  eapply yields_bind; [apply yields_peek|]. intros t _. by apply yields_ret.
Qed.

Lemma yields_check token_type : yields (fun _ => True) (check token_type).
Proof.
  eapply yields_bind; [apply yields_is_at_end|]. intros [|] _; [by apply yields_ret|].
  eapply yields_bind; [apply yields_peek|]. intros t _. by apply yields_ret.
Qed.

Lemma yields_advance : yields (fun _ => True) advance.
Proof.
  eapply yields_bind; [apply yields_is_at_end|]. intros e _.
  eapply (yields_bind (fun _ => True)).
  - destruct e; [by apply yields_ret|]. by intros p Hp.
  - intros _ _. eapply yields_weaken; [|apply yields_previous]. done.
Qed.

Lemma yields_match token_types : yields (fun _ => True) (match_ token_types).
Proof.
  induction token_types as [|token_type others IH]; [by apply yields_ret|].
  simpl. eapply yields_bind; [apply yields_check|]. intros [|] _; [|done].
  eapply yields_bind; [apply yields_advance|]. intros _ _. by apply yields_ret.
Qed.

Lemma yields_consume token_type message :
  yields (fun _ => True) (consume token_type message).
Proof.
  eapply yields_bind; [apply yields_check|]. intros [|] _; [apply yields_advance|].
  eapply yields_bind; [apply yields_peek|]. intros t _. apply yields_raise.
Qed.

(** After a match, [previous] is the token that was matched. *)
Lemma match_then_previous token_types p p' :
  match_ token_types p = Returned true p' ->
  tokens p' = tokens p
  /\ exists t, previous p' = Returned t p' /\ t ∈ tokens p
               /\ type t ∈ token_types.
Proof.
  induction token_types as [|token_type others IH]; [done|].
  simpl. unfold bind at 1. unfold check, is_at_end, bind, peek, token_at, ret.
  destruct (tokens p !! current p) as [t|] eqn:Ht; [|done].
  destruct (bool_decide (type t = EOF)) eqn:Heof.
  { intros Hm. destruct (IH Hm) as (Htok & t' & Hprev & Hin & Hty).
    split; [done|]. exists t'. split; [done|]. split; [done|].
    by apply list_elem_of_further. }
  rewrite Ht. destruct (bool_decide (type t = token_type)) eqn:Hty.
  - apply bool_decide_eq_true_1 in Hty.
    unfold advance, is_at_end, bind, peek, token_at, ret. rewrite Ht, Heof.
    unfold previous, token_at. simpl. rewrite Ht. intros [= <-]. simpl.
    split; [done|]. exists t. rewrite Ht. split; [done|].
    split; [by eapply list_elem_of_lookup_2|]. rewrite <- Hty. apply list_elem_of_here.
  - intros Hm. destruct (IH Hm) as (Htok & t' & Hprev & Hin & Hty').
    split; [done|]. exists t'. split; [done|]. split; [done|].
    by apply list_elem_of_further.
Qed.

(** The branch on a match that goes on with the matched token. *)
Lemma yields_match_previous {B} (Q : B -> Prop) token_types
    (kt : Token -> M B) (kf : M B) :
  (forall t, fits t = true \/ type t = EOF -> type t ∈ token_types ->
             yields Q (kt t)) ->
  yields Q kf ->
  yields Q (bind (match_ token_types)
                 (fun m => if m then bind previous kt else kf)).
Proof.
  intros Ht Hf p Hp. unfold bind at 1.
  pose proof (yields_match token_types p Hp) as Hm.
  destruct (match_ token_types p) as [[|] p'|e p'|] eqn:Hmatch; [| |done..].
  - destruct Hm as [_ Htok].
    apply match_then_previous in Hmatch as (_ & t & Hprev & Hin & Hty).
    unfold bind. rewrite Hprev.
    assert (fits t = true \/ type t = EOF) as Hfit.
    { unfold lexical in Hp. rewrite Forall_forall in Hp. by apply Hp. }
    specialize (Ht t Hfit Hty p'). rewrite Htok in Ht. specialize (Ht Hp).
    destruct (kt t p') as [b p''|e p''|]; [|done..].
    destruct Ht as [Hb Htok']. split; [done|congruence].
  - destruct Hm as [_ Htok]. specialize (Hf p'). rewrite Htok in Hf.
    specialize (Hf Hp). destruct (kf p') as [b p''|e p''|]; [|done..].
    destruct Hf as [Hb Htok']. split; [done|congruence].
Qed.

Ltac ymatch :=
  eapply (yields_bind (fun _ => True)); [apply yields_match|intros [|] _].

Ltac ytoken :=
  eapply (yields_bind (fun _ => True));
  [first [apply yields_consume | apply yields_check | apply yields_is_at_end
         | eapply yields_weaken; [|apply yields_peek]; done
         | eapply yields_weaken; [|apply yields_previous]; done]
  |intros ? _].

#[local] Abbreviation known := (fun e : Expression => known_expression e = true).
#[local] Abbreviation known_list := (fun es : list Expression => forallb known_expression es = true).
#[local] Abbreviation known_stmt := (fun s : Statement => known_statement s = true).
#[local] Abbreviation known_stmts := (fun ss : list Statement => forallb known_statement ss = true).

Lemma primary_yields expression :
  yields known expression -> yields known (primary expression).
Proof.
  intros Hexpr. unfold primary.
  ymatch; [by apply yields_ret|].
  ymatch; [by apply yields_ret|].
  ymatch.
  { ytoken. repeat case_match; first [by apply yields_ret | apply yields_raise]. }
  ymatch; [ytoken; by apply yields_ret|].
  ymatch; [ytoken; by apply yields_ret|].
  ymatch.
  { eapply yields_bind; [exact Hexpr|]. intros expr Hk. ytoken.
    by apply yields_ret. }
  ytoken. apply yields_raise.
Qed.

Lemma finish_call_loop_yields fuel expression arguments :
  yields known expression -> forallb known_expression arguments = true ->
  yields known_list (finish_call_loop fuel expression arguments).
Proof.
  intros Hexpr. revert arguments.
  induction fuel as [|fuel IH]; intros arguments Hargs; [apply yields_exhausted|].
  cbn [finish_call_loop]. ymatch; [|by apply yields_ret].
  eapply yields_bind; [exact Hexpr|]. intros arg Harg. apply IH.
  rewrite forallb_app, Hargs. simpl. by rewrite Harg.
Qed.

Lemma finish_call_yields fuel expression callee :
  yields known expression -> known_expression callee = true ->
  yields known (finish_call fuel expression callee).
Proof.
  intros Hexpr Hcallee. unfold finish_call. ytoken.
  eapply (yields_bind known_list).
  { case_match; [by apply yields_ret|].
    eapply yields_bind; [exact Hexpr|]. intros arg Harg.
    apply finish_call_loop_yields; [done|]. simpl. by rewrite Harg. }
  intros arguments Hargs. ytoken. apply yields_ret. simpl.
  by rewrite Hcallee, Hargs.
Qed.

Lemma call_loop_yields fuel expression expr :
  yields known expression -> known_expression expr = true ->
  yields known (call_loop fuel expression expr).
Proof.
  intros Hexpr. revert expr.
  induction fuel as [|fuel IH]; intros expr Hk; [apply yields_exhausted|].
  cbn [call_loop]. ymatch; [|by apply yields_ret].
  eapply yields_bind; [by apply finish_call_yields|]. intros expr' Hk'.
  by apply IH.
Qed.

Lemma call_yields fuel expression :
  yields known expression -> yields known (call fuel expression).
Proof.
  intros Hexpr. unfold call.
  eapply yields_bind; [by apply primary_yields|]. intros expr Hk.
  by apply call_loop_yields.
Qed.

Lemma unary_yields fuel expression :
  yields known expression -> yields known (unary fuel expression).
Proof.
  intros Hexpr. induction fuel as [|fuel IH]; [apply yields_exhausted|].
  cbn [unary]. apply yields_match_previous; [|by apply call_yields].
  intros t Hfit Hty. eapply yields_bind; [exact IH|]. intros rhs Hrhs.
  apply yields_ret. simpl. rewrite Hrhs, andb_true_r.
  apply bool_decide_eq_true_2, unary_operator_token; [|done].
  destruct Hfit as [Hfit|Heof]; [done|]. rewrite Heof in Hty.
  repeat (apply elem_of_cons in Hty as [Hty | Hty]; [discriminate|]).
  by apply elem_of_nil in Hty.
Qed.

(** The kinds of the binary operators. *)
#[local] Abbreviation binary_kinds :=
  [PLUS; MINUS; MULTIPLY; DIVIDE; MODULO; EQUAL; NOT_EQUAL; LESS_THAN;
   GREATER_THAN; LESS_EQUAL; GREATER_EQUAL; AND; OR].

Lemma binary_loop_yields fuel token_types operand expr :
  Forall (fun ty => ty ∈ binary_kinds) token_types ->
  yields known operand -> known_expression expr = true ->
  yields known (binary_loop fuel token_types operand expr).
Proof.
  intros Hkinds Hop. revert expr.
  induction fuel as [|fuel IH]; intros expr Hk; [apply yields_exhausted|].
  cbn [binary_loop]. apply yields_match_previous; [|by apply yields_ret].
  intros t Hfit Hty. eapply yields_bind; [exact Hop|]. intros rhs Hrhs.
  apply IH. simpl. rewrite Hk, Hrhs, !andb_true_r.
  rewrite Forall_forall in Hkinds. specialize (Hkinds _ Hty).
  apply bool_decide_eq_true_2, binary_operator_token; [|done].
  destruct Hfit as [Hfit|Heof]; [done|]. rewrite Heof in Hkinds.
  repeat (apply elem_of_cons in Hkinds as [Hkinds | Hkinds]; [discriminate|]).
  by apply elem_of_nil in Hkinds.
Qed.

Ltac binary_kinds_tac :=
  repeat (apply Forall_cons; split;
          [repeat first [apply list_elem_of_here | apply list_elem_of_further]|]);
  apply Forall_nil.

Lemma binary_level_yields fuel token_types operand :
  Forall (fun ty => ty ∈ binary_kinds) token_types ->
  yields known operand ->
  yields known (bind operand (fun expr => binary_loop fuel token_types operand expr)).
Proof.
  intros Hkinds Hop. eapply yields_bind; [exact Hop|]. intros expr Hk.
  by apply binary_loop_yields.
Qed.

Lemma logical_or_yields fuel expression :
  yields known expression -> yields known (logical_or fuel expression).
Proof.
  intros Hexpr.
  apply binary_level_yields; [by binary_kinds_tac|].
  apply binary_level_yields; [by binary_kinds_tac|].
  apply binary_level_yields; [by binary_kinds_tac|].
  apply binary_level_yields; [by binary_kinds_tac|].
  apply binary_level_yields; [by binary_kinds_tac|].
  apply binary_level_yields; [by binary_kinds_tac|].
  by apply unary_yields.
Qed.

Lemma assignment_yields fuel : yields known (assignment fuel).
Proof.
  induction fuel as [|fuel IH]; [apply yields_exhausted|].
  cbn [assignment].
  eapply yields_bind; [by apply logical_or_yields|]. intros expr Hk.
  ymatch; [|by apply yields_ret].
  eapply yields_bind; [exact IH|]. intros value Hv.
  case_match; first [by apply yields_ret | apply yields_raise].
Qed.

Lemma expression_yields fuel : yields known (expression fuel).
Proof. apply assignment_yields. Qed.

Lemma parameters_loop_yields fuel parameters :
  yields (fun _ => True) (parameters_loop fuel parameters).
Proof.
  revert parameters. induction fuel as [|fuel IH]; intros parameters;
    [apply yields_exhausted|].
  cbn [parameters_loop]. ymatch; [|by apply yields_ret]. ytoken. apply IH.
Qed.

Lemma function_declaration_yields fuel block_statement :
  yields known_stmts block_statement ->
  yields known_stmt (function_declaration fuel block_statement).
Proof.
  intros Hblock. unfold function_declaration. ytoken. ytoken. ytoken.
  eapply (yields_bind (fun _ => True)).
  { case_match; [by apply yields_ret|]. ytoken. apply parameters_loop_yields. }
  intros parameters _. ytoken. ytoken.
  eapply yields_bind; [exact Hblock|]. intros body Hbody. by apply yields_ret.
Qed.

Lemma optional_yields (c : bool) expression :
  yields known expression ->
  yields (fun o => known_option o = true)
    (if c then ret None else bind expression (fun e => ret (Some e))).
Proof.
  intros Hexpr. destruct c; [by apply yields_ret|].
  eapply yields_bind; [exact Hexpr|]. intros e He. by apply yields_ret.
Qed.

Lemma variable_declaration_yields expression :
  yields known expression -> yields known_stmt (variable_declaration expression).
Proof.
  intros Hexpr. unfold variable_declaration. ytoken. ymatch.
  - eapply (yields_bind (fun o => known_option o = true)).
    + eapply yields_bind; [exact Hexpr|]. intros e He. by apply yields_ret.
    + intros initializer Hinit. ytoken. by apply yields_ret.
  - eapply (yields_bind (fun o => known_option o = true)); [by apply yields_ret|].
    intros initializer Hinit. ytoken. by apply yields_ret.
Qed.

Lemma gorun_statement_yields expression :
  yields known expression -> yields known_stmt (gorun_statement expression).
Proof.
  intros Hexpr. unfold gorun_statement. ytoken.
  eapply yields_bind; [exact Hexpr|]. intros expr Hk. ytoken. ytoken.
  by apply yields_ret.
Qed.

Lemma return_statement_yields expression :
  yields known expression -> yields known_stmt (return_statement expression).
Proof.
  intros Hexpr. unfold return_statement. ytoken.
  eapply yields_bind; [by apply optional_yields|]. intros value Hv. ytoken.
  by apply yields_ret.
Qed.

Lemma if_statement_yields expression statement :
  yields known expression -> yields known_stmt statement ->
  yields known_stmt (if_statement expression statement).
Proof.
  intros Hexpr Hstmt. unfold if_statement. ytoken.
  eapply yields_bind; [exact Hexpr|]. intros condition Hc. ytoken.
  eapply yields_bind; [exact Hstmt|]. intros then_branch Ht. ymatch.
  - eapply (yields_bind (fun o => match o with
                                  | Some s => known_statement s = true
                                  | None => True
                                  end)).
    + eapply yields_bind; [exact Hstmt|]. intros s Hs. by apply yields_ret.
    + intros [s|] Hs; apply yields_ret; simpl; rewrite Hc, Ht; [done|done].
  - eapply (yields_bind (fun o => o = None)); [by apply yields_ret|].
    intros o ->. apply yields_ret. simpl. by rewrite Hc, Ht.
Qed.

Lemma expression_statement_yields expression :
  yields known expression -> yields known_stmt (expression_statement expression).
Proof.
  intros Hexpr. unfold expression_statement.
  eapply yields_bind; [exact Hexpr|]. intros expr Hk. ytoken. by apply yields_ret.
Qed.

Lemma while_statement_yields expression statement :
  yields known expression -> yields known_stmt statement ->
  yields known_stmt (while_statement expression statement).
Proof.
  intros Hexpr Hstmt. unfold while_statement. ytoken.
  eapply yields_bind; [exact Hexpr|]. intros condition Hc. ytoken.
  eapply yields_bind; [exact Hstmt|]. intros body Hb.
  apply yields_ret. simpl. by rewrite Hc, Hb.
Qed.

Lemma for_statement_yields expression statement :
  yields known expression -> yields known_stmt statement ->
  yields known_stmt (for_statement expression statement).
Proof.
  intros Hexpr Hstmt. unfold for_statement. ytoken.
  eapply (yields_bind (fun _ => True)); [apply yields_match|intros m _].
  eapply (yields_bind (fun o => match o with
                                | Some s => known_statement s = true
                                | None => True
                                end)).
  { destruct m; [by apply yields_ret|]. ymatch.
    - eapply yields_bind; [by apply variable_declaration_yields|].
      intros s Hs. by apply yields_ret.
    - eapply yields_bind; [by apply expression_statement_yields|].
      intros s Hs. by apply yields_ret. }
  intros initializer Hinit. ytoken.
  eapply yields_bind; [by apply optional_yields|]. intros condition Hc. ytoken.
  ytoken.
  eapply yields_bind; [by apply optional_yields|]. intros increment Hi. ytoken.
  eapply yields_bind; [exact Hstmt|]. intros body Hb.
  apply yields_ret. simpl. rewrite Hc, Hi, Hb.
  destruct initializer as [s|]; [by rewrite Hinit|done].
Qed.

Lemma block_statement_loop_yields fuel declaration statements :
  yields known_stmt declaration -> forallb known_statement statements = true ->
  yields known_stmts (block_statement_loop fuel declaration statements).
Proof.
  intros Hdecl. revert statements.
  induction fuel as [|fuel IH]; intros statements Hss; [apply yields_exhausted|].
  cbn [block_statement_loop]. ytoken. ytoken.
  case_match; [|by apply yields_ret].
  eapply yields_bind; [exact Hdecl|]. intros stmt Hs. apply IH.
  rewrite forallb_app, Hss. simpl. by rewrite Hs.
Qed.

Lemma block_statement_yields fuel declaration :
  yields known_stmt declaration ->
  yields known_stmts (block_statement fuel declaration).
Proof.
  intros Hdecl. unfold block_statement.
  eapply yields_bind; [by apply block_statement_loop_yields|].
  intros statements Hss. ytoken. by apply yields_ret.
Qed.

Lemma yields_resynchronizing {A} (Q : A -> Prop) (body : M A) :
  yields Q body -> yields Q (resynchronizing body).
Proof.
  intros Hbody p Hp. unfold resynchronizing. specialize (Hbody p Hp).
  destruct (body p) as [a p'|e p'|]; [done| |done].
  destruct e; [|done]. by destruct (synchronize p').
Qed.

Lemma declaration_statement_yields fuel :
  yields known_stmt (declaration fuel) /\ yields known_stmt (statement fuel).
Proof.
  induction fuel as [|fuel [IHd IHs]]; [split; apply yields_exhausted|].
  pose proof (expression_yields fuel) as Hexpr.
  split.
  - cbn [declaration]. apply yields_resynchronizing. ymatch.
    { apply function_declaration_yields. by apply block_statement_yields. }
    ymatch; [by apply variable_declaration_yields|done].
  - cbn [statement].
    ymatch; [by apply gorun_statement_yields|].
    ymatch; [by apply return_statement_yields|].
    ymatch; [by apply if_statement_yields|].
    ymatch; [by apply for_statement_yields|].
    ymatch; [by apply while_statement_yields|].
    ymatch; [|by apply expression_statement_yields].
    eapply yields_bind; [by apply block_statement_yields|].
    intros statements Hss. by apply yields_ret.
Qed.

Lemma parse_loop_yields fuel statements :
  forallb known_statement statements = true ->
  yields known_stmts (parse_loop fuel statements).
Proof.
  revert statements. induction fuel as [|fuel IH]; intros statements Hss;
    [apply yields_exhausted|].
  cbn [parse_loop]. ytoken. case_match; [by apply yields_ret|].
  eapply yields_bind; [apply declaration_statement_yields|]. intros stmt Hs.
  apply IH. rewrite forallb_app, Hss. simpl. by rewrite Hs.
Qed.

Lemma parse_yields toks :
  lexical toks ->
  match parse toks with
  | Returned program _ => known_program program = true
  | _ => True
  end.
Proof.
  intros Htoks. unfold parse, parse_with, bind.
  assert (lexical (tokens (init toks))) as Hp.
  { unfold lexical, init in *. simpl. rewrite Forall_forall in *.
    intros t Ht. apply list_elem_of_filter in Ht as [_ Ht]. by apply Htoks. }
  pose proof (parse_loop_yields (4 * List.length toks + 8) [] eq_refl
                (init toks) Hp) as Hloop.
  destruct (parse_loop _ _ _) as [statements p'|e p'|]; [|done..].
  by destruct Hloop.
Qed.

Lemma tokenize_lexical text toks : tokenize text = Tokens toks -> lexical toks.
Proof.
  intros Htok.
  pose proof (LexerShape.tokenize_loop_lexed (S (String.length text))
                (Lexer.init text) []) as Hlexed.
  unfold tokenize in Htok. rewrite Htok in Hlexed.
  destruct Hlexed as (body & eof & -> & Heof & _ & _ & Hbody);
    [unfold remaining; simpl; lia|done|constructor|].
  unfold lexical. apply Forall_app. split.
  - eapply Forall_impl; [exact Hbody|]. intros t Ht. left.
    unfold well_formed in Ht. by apply andb_prop in Ht as [? _].
  - apply Forall_singleton. by right.
Qed.

(** Every operator of a parsed program is an operator that the
    interpreter knows: the operators of a [BinaryExpression] are the
    thirteen of [visit_binary], those of a [UnaryExpression] the two of
    [visit_unary]. *)
Theorem parsed_operators_are_known text :
  match parse_source text with
  | inr (Returned program _) => known_program program = true
  | _ => True
  end.
Proof.
  unfold parse_source. destruct (tokenize text) as [toks|e|] eqn:Htok; [|done..].
  apply parse_yields. by eapply tokenize_lexical.
Qed.

End Yields.

End ParserOperators.

(** ** The interpreter: the operators it meets *)
Module InterpreterOperators.
Import Ast Interp EnvironmentFacts OperatorShape.

Section Sound.
Context `{HostObjects}.

Lemma not_unknown_runtime_error msg :
  (forall operator, msg <> "Unknown binary operator: " +:+ operator) ->
  (forall operator, msg <> "Unknown unary operator: " +:+ operator) ->
  fine_signal (KSRuntimeError msg).
Proof.
  intros Hb Hu. split; [|done]. intros [operator [[= ->] | [= ->]]].
  - by eapply Hb.
  - by eapply Hu.
Qed.

Lemma fine_host_error e : fine_signal (HostError e).
Proof. split; [|done]. by intros [operator [|]]. Qed.

Lemma fine_return v : known_value v = true -> fine_signal (ReturnValue v).
Proof.
  intros Hv. split; [by intros [operator [|]]|]. by intros v' [= <-].
Qed.

Lemma fine_undefined_variable name :
  fine_signal (KSRuntimeError ("Undefined variable '" +:+ name +:+ "'")).
Proof. apply not_unknown_runtime_error; intros operator; discriminate. Qed.

Lemma fine_division_by_zero : fine_signal (KSRuntimeError "Division by zero").
Proof. apply not_unknown_runtime_error; intros operator; discriminate. Qed.

Lemma fine_can_only_call : fine_signal (KSRuntimeError "Can only call functions").
Proof. apply not_unknown_runtime_error; intros operator; discriminate. Qed.

Lemma fine_arity (n m : nat) :
  fine_signal (KSRuntimeError ("Expected " +:+ pretty n +:+ " arguments but got "
                               +:+ pretty m)).
Proof. apply not_unknown_runtime_error; intros operator; discriminate. Qed.

Lemma known_heap_define h e name value :
  known_heap h -> known_value value = true -> known_heap (define h e name value).
Proof.
  intros Hh Hv. unfold known_heap, binding in *.
  induction h as [|env older IH]; simpl; [done|].
  assert (known_heap older) as Holder.
  { intros e' x v Hb. apply (Hh e' x v).
    unfold binding in *. simpl.
    destruct (decide (e' = List.length older)) as [->|]; [|done].
    rewrite heap_lookup_ge in Hb by lia. done. }
  intros e' x v. destruct (decide (e = List.length older)) as [->|Hne]; simpl.
  - destruct (decide (e' = List.length older)) as [->|Hne']; simpl.
    + destruct (decide (x = name)) as [->|Hx].
      * rewrite lookup_insert_eq. by intros [= <-].
      * rewrite lookup_insert_ne by done. intros Hb.
        apply (Hh (List.length older) x v). simpl.
        by rewrite decide_True.
    + intros Hb. apply (Hh e' x v). simpl. by rewrite decide_False.
  - rewrite define_length.
    destruct (decide (e' = List.length older)) as [->|Hne']; simpl.
    + intros Hb. apply (Hh (List.length older) x v). simpl.
      by rewrite decide_True.
    + intros Hb. by apply (IH Holder e' x v).
Qed.

Lemma known_heap_assign h e name value h' :
  known_heap h -> known_value value = true ->
  assign h e name value = Some h' -> known_heap h'.
Proof.
  intros Hh Hv Hassign. pose proof (assign_spec h e name value) as Hspec.
  destruct (defining_scope h e name) as [d|]; [|congruence].
  destruct Hspec as (h'' & Heq & _ & _ & Hbind).
  assert (h'' = h') as -> by congruence.
  intros e' x v. rewrite Hbind.
  destruct (decide (e' = d /\ x = name)); [by intros [= <-]|apply Hh].
Qed.

Lemma known_heap_allocate h parent : known_heap h -> known_heap (allocate parent h).2.
Proof.
  intros Hh e x v. unfold allocate, binding. simpl.
  destruct (decide (e = List.length h)); simpl; [by rewrite lookup_empty|].
  apply Hh.
Qed.

Lemma known_heap_bind_parameters h env i parameters arguments :
  known_heap h -> Forall (fun v => known_value v = true) arguments ->
  known_heap (bind_parameters h env i parameters arguments).
Proof.
  intros Hh Hargs. revert h i Hh.
  induction parameters as [|param others IH]; intros h i Hh; simpl; [done|].
  apply IH. destruct (decide (i < List.length arguments)).
  - apply known_heap_define; [done|].
    destruct (arguments !! i) as [v|] eqn:Hv; [|done].
    by eapply Forall_lookup_1 in Hargs.
  - by apply known_heap_define.
Qed.

Lemma known_get h e name v :
  known_heap h -> get h e name = Some v -> known_value v = true.
Proof.
  intros Hh. rewrite get_defining_scope.
  destruct (defining_scope h e name) as [d|]; [|done]. simpl. apply Hh.
Qed.

#[local] Abbreviation kv := (fun v : Value => known_value v = true).
#[local] Abbreviation any := (fun _ : unit => True).

Lemma sound_ret {A} (Q : A -> Prop) a : Q a -> sound Q (ret a).
Proof. intros Ha st Hst. by split. Qed.

Lemma sound_raise {A} (Q : A -> Prop) s : fine_signal s -> sound Q (raise s).
Proof. intros Hs st Hst. by split. Qed.

Lemma sound_host {A} (Q : A -> Prop) (r : py_exception + A) :
  (forall a, r = inr a -> Q a) -> sound Q (host r).
Proof.
  intros Hr. destruct r as [e|a]; [apply sound_raise, fine_host_error|].
  apply sound_ret. by apply Hr.
Qed.

Lemma sound_bind {A B} (Q1 : A -> Prop) (Q2 : B -> Prop) (m : M A) (k : A -> M B) :
  sound Q1 m -> (forall a, Q1 a -> sound Q2 (k a)) -> sound Q2 (bind m k).
Proof.
  intros Hm Hk st Hst. unfold bind. specialize (Hm st Hst).
  destruct (m st) as [a st'|s st'|]; [|done..].
  destruct Hm as [Ha Hst']. by apply Hk.
Qed.

Lemma sound_weaken {A} (Q Q' : A -> Prop) (m : M A) :
  (forall a, Q a -> Q' a) -> sound Q m -> sound Q' m.
Proof.
  intros HQ Hm st Hst. specialize (Hm st Hst).
  destruct (m st) as [a st'|s st'|]; [|done..]. destruct Hm. split; auto.
Qed.

(** *** The operations of the host return no function *)

Lemma arith_known on_int on_float a b v :
  (forall m n w, on_int m n = inr w -> known_value w = true) ->
  (forall x y w, on_float x y = inr w -> known_value w = true) ->
  arith on_int on_float a b = inr v -> known_value v = true.
Proof.
  intros Hint Hfloat. unfold arith.
  destruct a as [m|x], b as [n|y]; try apply Hint;
    repeat case_match; try done; apply Hfloat.
Qed.

Lemma py_add_known l r v : py_add l r = inr v -> known_value v = true.
Proof.
  unfold py_add. repeat case_match; try done.
  apply arith_known; intros ? ? w [= <-]; done.
Qed.

Lemma py_sub_known l r v : py_sub l r = inr v -> known_value v = true.
Proof.
  unfold py_sub. repeat case_match; try done.
  apply arith_known; intros ? ? w [= <-]; done.
Qed.

Lemma str_mul_known s n v : str_mul s n = inr v -> known_value v = true.
Proof. unfold str_mul. destruct (str_repeat s n); [done|]. by intros [= <-]. Qed.

Lemma py_mul_known l r v : py_mul l r = inr v -> known_value v = true.
Proof.
  unfold py_mul. destruct (as_number l), (as_number r);
    try (repeat case_match; try done; by apply str_mul_known).
  apply arith_known; intros ? ? w [= <-]; done.
Qed.

Lemma py_truediv_known l r v : py_truediv l r = inr v -> known_value v = true.
Proof.
  unfold py_truediv. repeat case_match; try done.
  apply arith_known.
  - intros ? ? w. case_match; [|done]. by intros [= <-].
  - by intros ? ? w [= <-].
Qed.

Lemma py_mod_known l r v : py_mod l r = inr v -> known_value v = true.
Proof.
  unfold py_mod. destruct l; try (repeat case_match; try done; by intros [= <-]);
    (destruct (as_number _), (as_number r); try done;
     apply arith_known; intros ? ? w; case_match; try done; by intros [= <-]).
Qed.

Lemma py_order_known holds l r v : py_order holds l r = inr v -> known_value v = true.
Proof. unfold py_order. repeat case_match; try done; by intros [= <-]. Qed.

Lemma py_neg_known v w : py_neg v = inr w -> known_value w = true.
Proof. unfold py_neg. repeat case_match; try done; by intros [= <-]. Qed.

Lemma sound_binary_operation operator l r :
  operator ∈ binary_operators -> sound kv (binary_operation operator l r).
Proof.
  intros Hop. unfold binary_operators in Hop.
  repeat (apply elem_of_cons in Hop as [-> | Hop];
          [unfold binary_operation; simpl;
           first [ by repeat case_match;
                      first [by apply sound_ret
                            | apply sound_host, py_add_known]
                 | apply sound_host; first [apply py_sub_known | apply py_mul_known
                                           | apply py_mod_known | apply py_order_known]
                 | case_match; [apply sound_raise, fine_division_by_zero
                               |apply sound_host, py_truediv_known]
                 | by apply sound_ret ]|]).
  by apply elem_of_nil in Hop.
Qed.

Section Visits.
Variable evaluate : Expression -> M Value.
Variable execute : Statement -> M unit.
Hypothesis sound_evaluate :
  forall e, known_expression e = true -> sound kv (evaluate e).
Hypothesis sound_execute :
  forall s, known_statement s = true -> sound any (execute s).

Lemma sound_optional (o : option Expression) :
  known_option o = true ->
  sound kv (match o with
            | Some e => evaluate e
            | None => ret VNone
            end).
Proof. destruct o; [apply sound_evaluate|intros _; by apply sound_ret]. Qed.

Lemma sound_visit_identifier name : sound kv (visit_identifier name).
Proof.
  intros st Hst. unfold visit_identifier.
  destruct (get _ _ _) as [v|] eqn:Hget.
  - split; [by eapply known_get|done].
  - split; [apply fine_undefined_variable|done].
Qed.

Lemma sound_visit_unary operator operand :
  operator ∈ unary_operators -> known_expression operand = true ->
  sound kv (visit_unary evaluate operator operand).
Proof.
  intros Hop Hk. unfold visit_unary.
  eapply sound_bind; [by apply sound_evaluate|]. intros v _.
  apply elem_of_cons in Hop as [-> | Hop]; [apply sound_host, py_neg_known|].
  apply list_elem_of_singleton in Hop as ->. by apply sound_ret.
Qed.

Lemma sound_execute_all statements :
  forallb known_statement statements = true ->
  sound any (execute_all execute statements).
Proof.
  induction statements as [|s others IH]; simpl; [intros _; by apply sound_ret|].
  intros [Hs Hothers]%andb_prop.
  eapply sound_bind; [by apply sound_execute|]. intros _ _. by apply IH.
Qed.

Lemma sound_execute_block statements env :
  forallb known_statement statements = true ->
  sound any (execute_block execute statements env).
Proof.
  intros Hss st Hst. unfold execute_block, restoring.
  pose proof (sound_execute_all statements Hss (with_environment env st) Hst) as Hall.
  by destruct (execute_all _ _ _) as [[] st'|s st'|].
Qed.

Lemma sound_KSFunction_call parameters body closure arguments :
  forallb known_statement body = true ->
  Forall (fun v => known_value v = true) arguments ->
  sound kv (KSFunction_call execute parameters body closure arguments).
Proof.
  intros Hbody Hargs st Hst. unfold KSFunction_call, allocate.
  set (h := bind_parameters _ _ _ _ _).
  assert (known_heap h) as Hh.
  { apply known_heap_bind_parameters; [|done].
    by apply (known_heap_allocate _ (Some closure)). }
  pose proof (sound_execute_block body (List.length (heap st)) Hbody
                (with_heap h st) Hh) as Hblock.
  destruct (execute_block _ _ _ _) as [[] st'|s st'|]; [| |done].
  - by destruct Hblock.
  - destruct Hblock as [[Hunknown Hret] Hst'].
    destruct s as [msg|value|e]; [done| |done].
    split; [by apply Hret|done].
Qed.

Lemma sound_evaluate_arguments args arguments :
  forallb known_expression args = true ->
  Forall (fun v => known_value v = true) arguments ->
  sound (Forall (fun v => known_value v = true))
        (evaluate_arguments evaluate args arguments).
Proof.
  revert arguments.
  induction args as [|arg others IH]; intros arguments; simpl;
    [intros _ Hargs; by apply sound_ret|].
  intros [Harg Hothers]%andb_prop Hargs.
  eapply sound_bind; [by apply sound_evaluate|]. intros v Hv.
  apply IH; [done|]. apply Forall_app. split; [done|]. by apply Forall_singleton.
Qed.

Lemma sound_call_value callee arguments :
  known_value callee = true ->
  Forall (fun v => known_value v = true) arguments ->
  sound kv (call_value execute callee arguments).
Proof.
  intros Hcallee Hargs. unfold call_value.
  destruct callee; try apply sound_raise, fine_can_only_call.
  case_match; [apply sound_raise, fine_arity|].
  by apply sound_KSFunction_call.
Qed.

Lemma sound_visit_call function arguments :
  known_expression function = true ->
  forallb known_expression arguments = true ->
  sound kv (visit_call evaluate execute function arguments).
Proof.
  intros Hf Hargs. unfold visit_call.
  eapply sound_bind; [by apply sound_evaluate|]. intros callee Hcallee.
  eapply sound_bind; [by apply sound_evaluate_arguments|]. intros values Hvalues.
  by apply sound_call_value.
Qed.

Lemma sound_visit_assignment target value :
  known_expression value = true ->
  sound kv (visit_assignment evaluate target value).
Proof.
  intros Hk. unfold visit_assignment.
  eapply sound_bind; [by apply sound_evaluate|]. intros v Hv st Hst.
  destruct (assign _ _ _ _) as [h|] eqn:Hassign.
  - split; [done|]. exact (known_heap_assign _ _ _ _ _ Hst Hv Hassign).
  - split; [apply fine_undefined_variable|done].
Qed.

Lemma sound_define_current name value :
  known_value value = true -> sound any (define_current name value).
Proof.
  intros Hv st Hst. split; [done|]. by apply known_heap_define.
Qed.

Lemma sound_for_loop fuel condition increment body :
  known_option condition = true -> known_option increment = true ->
  known_statement body = true ->
  sound any (for_loop fuel evaluate execute condition increment body).
Proof.
  intros Hc Hi Hb. induction fuel as [|fuel IH]; [done|].
  cbn [for_loop]. eapply (sound_bind (fun _ => True)).
  { destruct condition; [|by apply sound_ret].
    eapply sound_bind; [by apply sound_evaluate|]. intros v _. by apply sound_ret. }
  intros [|] _; [|by apply sound_ret].
  eapply sound_bind; [by apply sound_execute|]. intros _ _.
  eapply (sound_bind any); [|done].
  destruct increment; [|by apply sound_ret].
  eapply sound_bind; [by apply sound_evaluate|]. intros v _. by apply sound_ret.
Qed.

Lemma sound_visit_for_statement fuel initializer condition increment body :
  known_statement (ForStatement initializer condition increment body) = true ->
  sound any (visit_for_statement fuel evaluate execute initializer condition
                                 increment body).
Proof.
  simpl. intros [[[Hinit Hc]%andb_prop Hi]%andb_prop Hb]%andb_prop st Hst.
  unfold visit_for_statement, allocate, restoring.
  set (st0 := with_environment _ _).
  assert (known_heap (heap st0)) as Hst0
    by (by apply (known_heap_allocate _ (Some (environment st)))).
  assert (sound any
            (bind (match initializer with
                   | Some s => execute s
                   | None => ret tt
                   end)
                  (fun _ => for_loop fuel evaluate execute condition increment body)))
    as Hbody.
  { eapply (sound_bind any).
    - destruct initializer; [by apply sound_execute|by apply sound_ret].
    - intros _ _. by apply sound_for_loop. }
  specialize (Hbody st0 Hst0).
  by destruct (bind _ _ st0) as [[] st'|s st'|].
Qed.

Lemma sound_visit_while_statement fuel condition body :
  known_expression condition = true -> known_statement body = true ->
  sound any (visit_while_statement fuel evaluate execute condition body).
Proof.
  intros Hc Hb. induction fuel as [|fuel IH]; [done|].
  cbn [visit_while_statement].
  eapply sound_bind; [by apply sound_evaluate|]. intros v _.
  destruct (is_truthy v); [|by apply sound_ret].
  eapply sound_bind; [by apply sound_execute|]. by intros _ _.
Qed.

End Visits.

Lemma sound_evaluate_execute fuel :
  (forall e, known_expression e = true -> sound kv (evaluate fuel e))
  /\ (forall s, known_statement s = true -> sound any (execute fuel s)).
Proof.
  induction fuel as [|fuel [IHev IHex]]; [by split|].
  split.
  - intros [value ?|name|l operator r|operator operand|function arguments
           |target value] Hk; cbn [evaluate]; simpl in Hk.
    + apply sound_ret. by destruct value.
    + apply sound_visit_identifier.
    + apply andb_prop in Hk as [[Hop Hl]%andb_prop Hr].
      apply bool_decide_eq_true_1 in Hop. unfold visit_binary.
      eapply sound_bind; [by apply IHev|]. intros lv _.
      eapply sound_bind; [by apply IHev|]. intros rv _.
      by apply sound_binary_operation.
    + apply andb_prop in Hk as [Hop Hoperand].
      apply bool_decide_eq_true_1 in Hop. by apply sound_visit_unary.
    + apply andb_prop in Hk as [Hf Hargs]. by apply sound_visit_call.
    + by apply sound_visit_assignment.
  - intros [name initializer|name parameters body|expression|statements
           |condition then_branch else_branch|initializer condition increment body
           |condition body|value|expression] Hk; cbn [execute].
    + unfold visit_variable_declaration.
      eapply sound_bind; [by apply sound_optional|]. intros v Hv.
      by apply sound_define_current.
    + intros st Hst. unfold visit_function_declaration, define_current. simpl.
      split; [done|]. by apply known_heap_define.
    + unfold visit_expression_statement.
      eapply sound_bind; [by apply IHev|]. intros _ _. by apply sound_ret.
    + intros st Hst. unfold visit_block_statement, allocate.
      apply (sound_execute_block (execute fuel) IHex statements
               (List.length (heap st)) Hk).
      by apply (known_heap_allocate _ (Some (environment st))).
    + simpl in Hk. apply andb_prop in Hk as [[Hc Ht]%andb_prop He].
      unfold visit_if_statement.
      eapply sound_bind; [by apply IHev|]. intros v _.
      destruct (is_truthy v); [by apply IHex|].
      destruct else_branch; [by apply IHex|by apply sound_ret].
    + by apply sound_visit_for_statement.
    + simpl in Hk. apply andb_prop in Hk as [Hc Hb].
      by apply sound_visit_while_statement.
    + unfold visit_return_statement.
      eapply sound_bind; [by apply sound_optional|]. intros v Hv.
      by apply sound_raise, fine_return.
    + unfold visit_gorun_statement.
      eapply sound_bind; [by apply IHev|]. intros v _. by intros st Hst.
Qed.

Lemma known_heap_new : known_heap (heap new_interpreter).
Proof.
  intros e x v. unfold binding. simpl.
  destruct (decide (e = 0)); simpl; [by rewrite lookup_empty|done].
Qed.

(** A program of known operators, run on a heap whose functions have
    bodies of known operators, never raises the error of an unknown
    operator, and leaves such a heap. *)
Theorem known_programs_meet_no_unknown_operator fuel program st :
  known_program program = true -> known_heap (heap st) ->
  match visit_program (execute fuel) program st with
  | Returned _ st' => known_heap (heap st')
  | Raised s st' => ~ unknown_operator s /\ known_heap (heap st')
  | Exhausted => True
  end.
Proof.
  intros Hprogram Hst. unfold visit_program.
  pose proof (sound_execute_all (execute fuel)
                (proj2 (sound_evaluate_execute fuel))
                (statements_of program) Hprogram st Hst) as Hall.
  destruct (execute_all _ _ st) as [[] st'|s st'|]; [| |done].
  - by destruct Hall.
  - by destruct Hall as [[Hunknown _] Hst'].
Qed.

(** Whatever the source text, the run of its program never ends in the
    error of an unknown binary or unary operator: the last branches of
    [visit_binary] and [visit_unary] are out of reach of the parser. *)
Theorem source_programs_meet_no_unknown_operator fuel text :
  match Pipeline.run_source fuel text with
  | Pipeline.Ran (Returned ok st') =>
      if ok then stderr st' = []
      else exists msg,
             stderr st' = ["Runtime Error: " +:+ msg]
             /\ ~ unknown_operator (KSRuntimeError msg)
  | Pipeline.Ran (Raised s _) => ~ unknown_operator s
  | _ => True
  end.
Proof.
  unfold Pipeline.run_source.
  pose proof (ParserOperators.parse_yields) as Hparse.
  unfold Parser.parse_source.
  destruct (Lexer.tokenize text) as [toks|e|] eqn:Htok; [|done..].
  specialize (Hparse toks (ParserOperators.tokenize_lexical _ _ Htok)).
  destruct (Parser.parse toks) as [program p'|e p'|]; [|done..].
  unfold run, interpret, visit_program.
  pose proof (sound_execute_all (execute fuel)
                (proj2 (sound_evaluate_execute fuel))
                (statements_of program) Hparse new_interpreter known_heap_new)
    as Hall.
  pose proof (InterpreterKeeps.keeps_execute_all (execute fuel)
                (statements_of program)
                (proj2 (InterpreterKeeps.keeps_evaluate_execute fuel))
                new_interpreter) as Hkept.
  destruct (execute_all _ _ new_interpreter) as [[] st'|s st'|]; [| |done].
  - by destruct Hkept as (_ & _ & _ & _ & _ & ->).
  - destruct Hall as [[Hunknown _] _].
    destruct Hkept as (_ & _ & _ & _ & _ & Herr).
    destruct s as [msg|value|e]; [|done..].
    exists msg. simpl. by rewrite Herr.
Qed.

End Sound.

Lemma known_programs_meet_no_unknown_operator_witness :
  known_program (mkProgram [GorunStatement
                              (BinaryExpression
                                 (LiteralExpression (LInt 1) "number") "+"
                                 (LiteralExpression (LInt 2) "number"))]) = true
  /\ known_heap (heap new_interpreter)
  /\ match visit_program (execute 3)
             (mkProgram [GorunStatement
                           (BinaryExpression
                              (LiteralExpression (LInt 1) "number") "+"
                              (LiteralExpression (LInt 2) "number"))])
             new_interpreter with
     | Returned _ st' => known_heap (heap st')
     | Raised s st' => ~ unknown_operator s /\ known_heap (heap st')
     | Exhausted => True
     end.
Proof.
  split; [reflexivity|]. split; [apply known_heap_new|].
  apply known_programs_meet_no_unknown_operator;
    [reflexivity|apply known_heap_new].
Defined.

End InterpreterOperators.

(** ** The places of the tokens *)
Module TokenPlaces.
Import Lexer TokenShape LexerShape.


Lemma position_after_one c pos : position_after (Char.str c) pos = step pos c.
Proof. done. Qed.






















(** After a last operator of one character the end-of-input token stands
    one column past the end of the text. *)
Example end_of_input_past_the_text :
  tokenize "1 +"
  = Tokens [mkToken NUMBER "1" 1 1; mkToken PLUS "+" 1 3; mkToken EOF "" 1 5]
  /\ position_after "1 +" (1, 1) = (1, 4).
Proof. split; vm_compute; reflexivity. Qed.

End TokenPlaces.

(** ** Escapes in string literals *)
Module StringEscapes.
Import Lexer TokenShape LexerShape StringLiterals.

Lemma read_string_go_escaped s r l k string_value :
  exists l' k',
    read_string_go (escaped s +:+ r) l k string_value
    = read_string_go r l' k' (string_value +:+ s).
Proof.
  revert l k string_value.
  induction s as [|c s IH]; intros l k string_value.
  - exists l, k. by rewrite append_nil, append_nil_r.
  - cbn [escaped].
    destruct (Ascii.eqb c Char.quote) eqn:Hq; [|destruct (Ascii.eqb c Char.backslash) eqn:Hb].
    + apply Ascii.eqb_eq in Hq as ->. cbn [orb].
      rewrite !append_cons. cbn [read_string_go].
      change (Ascii.eqb Char.backslash Char.quote) with false.
      change (Ascii.eqb Char.backslash Char.backslash) with true.
      change (Char.char_in Char.quote escapable) with true.
      change (escape_chars Char.quote) with Char.quote.
      cbv iota.
      destruct (IH (cur_line (advance (advance
                      (mkLexer (String Char.backslash
                                  (String Char.quote (escaped s +:+ r))) l k))))
                   (cur_column (advance (advance
                      (mkLexer (String Char.backslash
                                  (String Char.quote (escaped s +:+ r))) l k))))
                   (string_value +:+ Char.str Char.quote)) as (l' & k' & ->).
      exists l', k'. by rewrite append_assoc.
    + apply Ascii.eqb_eq in Hb as ->. cbn [orb].
      rewrite !append_cons. cbn [read_string_go].
      change (Ascii.eqb Char.backslash Char.quote) with false.
      change (Ascii.eqb Char.backslash Char.backslash) with true.
      change (Char.char_in Char.backslash escapable) with true.
      change (escape_chars Char.backslash) with Char.backslash.
      cbv iota.
      destruct (IH (cur_line (advance (advance
                      (mkLexer (String Char.backslash
                                  (String Char.backslash (escaped s +:+ r))) l k))))
                   (cur_column (advance (advance
                      (mkLexer (String Char.backslash
                                  (String Char.backslash (escaped s +:+ r))) l k))))
                   (string_value +:+ Char.str Char.backslash)) as (l' & k' & ->).
      exists l', k'. by rewrite append_assoc.
    + cbn [orb]. rewrite append_cons. cbn [read_string_go]. rewrite Hq, Hb.
      destruct (IH (cur_line (advance (mkLexer (String c (escaped s +:+ r)) l k)))
                   (cur_column (advance (mkLexer (String c (escaped s +:+ r)) l k)))
                   (string_value +:+ Char.str c)) as (l' & k' & ->).
      exists l', k'. by rewrite append_assoc.
Qed.

(** Every string is the value of a literal: with a backslash before each
    quote and each backslash of it, and between two quotes, it is lexed to
    a [STRING] token that holds it. *)
Theorem every_string_has_a_literal s :
  exists l k,
    tokenize (Char.str Char.quote +:+ escaped s +:+ Char.str Char.quote)
    = Tokens [mkToken STRING s 1 1; mkToken EOF "" l k].
Proof.
  unfold tokenize.
  destruct (read_string_go_escaped s (Char.str Char.quote) 1 2 "")
    as (l' & k' & Hgo).
  rewrite append_nil in Hgo.
  exists l', (S k').
  change (Char.str Char.quote +:+ escaped s +:+ Char.str Char.quote)
    with (String Char.quote (escaped s +:+ Char.str Char.quote)).
  unfold init. rewrite tokenize_loop_at_quote, Hgo.
  change (read_string_go (Char.str Char.quote) l' k' s)
    with (@inr py_exception _ (s, mkLexer "" l' (S k'))).
  cbn [String.length]. reflexivity.
Qed.

End StringEscapes.
